(** * typemold: the mapper-compilation and caching engine

    A shallow embedding of the mapping core of typemold, with the properties
    its specification states about it: the registry and the mapper factory
    ([src/registry.ts]: classes [MappingRegistryClass] and [MapperFactory]),
    the facade (class [Mapper]), the utilities ([getNestedValue],
    [pickKeys], [omitKeys]), and the decorators with the mapping builder
    ([src/decorators.ts]).

    Conventions of the embedding:
    - JavaScript values are plain data ([value]): a property read has no
      side effect and fails only on [null] and [undefined]; prototypes,
      accessors and proxies are not modelled, and the keys a mapper assigns
      are ordinary property names.
    - A JavaScript string is a Rocq [string], a sequence of 8-bit code
      units; the default ordering of [Array.prototype.sort] is the
      lexicographic ordering of code units ([String.leb]).
    - Module-level and static mutable state (the registry maps, the path
      cache, the global context), the [Reflect] metadata of the classes and
      the arrays callers pass in options live in one [State] record that
      every operation threads explicitly. The arrays are held by address, so
      that sorting one in place is seen by whoever holds it.
    - A thrown exception is the [Throw] case of [Result]; the state reached
      when the exception was raised is kept.
    - A function instance (a compiled mapper closure) is the record of its
      captured variables with a [fn_id] drawn at allocation: two closures
      are the same instance ([===]) exactly when they are equal.
    - Transform functions are pure functions of the source and the context
      that may throw; constructors of target classes only initialise
      fields. Decorators run when a class is defined, before any call: the
      metadata of a class does not change afterwards.
    - [Mapper.registerConverter] only fills a list nothing reads; it is
      left out.
    - The [trace] is ghost state: it records which collaborators were
      called (metadata reads, constructions, path lookups, transforms). *)

From Stdlib Require Import String Ascii ZArith.
From stdpp Require Import gmap strings list sorting pretty.

Set Warnings "-register-all".

(* ================================================================== *)
(** * Values *)
(* ================================================================== *)

(** Plain-data JavaScript values. An object is the list of its own
    properties in insertion order (keys unique). *)
Inductive value : Type :=
  | VUndefined
  | VNull
  | VBool (b : bool)
  | VNum (n : Z)
  | VStr (s : string)
  | VObj (props : list (string * value))
  | VArr (elems : list value).

(** The outcome of an evaluation that may throw. *)
Inductive Result (A : Type) : Type :=
  | Ok (a : A)
  | Throw (e : value).
Arguments Ok {A} a.
Arguments Throw {A} e.

Definition TypeError : value := VStr "TypeError".

(** [v == null] *)
Definition is_nullish (v : value) : bool :=
  match v with
  | VUndefined | VNull => true
  | _ => false
  end.

(** [typeof v === "object"] *)
Definition typeof_object (v : value) : bool :=
  match v with
  | VNull | VObj _ | VArr _ => true
  | _ => false
  end.

(** The elements of an array. *)
Definition array_elements (v : value) : list value :=
  match v with
  | VArr elems => elems
  | _ => []
  end.

(** [Array.isArray(v)] *)
Definition isArray (v : value) : bool :=
  match v with
  | VArr _ => true
  | _ => false
  end.

(** Own-property lookup in a property list. *)
Fixpoint lookup_prop (k : string) (props : list (string * value)) : option value :=
  match props with
  | [] => None
  | (k', v) :: rest => if String.eqb k k' then Some v else lookup_prop k rest
  end.

(** [obj[k] = v] on a property list: overwrite in place, or append. *)
Fixpoint set_prop (k : string) (v : value) (props : list (string * value))
  : list (string * value) :=
  match props with
  | [] => [(k, v)]
  | (k', v') :: rest =>
      if String.eqb k k' then (k', v) :: rest else (k', v') :: set_prop k v rest
  end.

(** The own keys of a property list. *)
Definition keys (props : list (string * value)) : list string := map fst props.

(** The array index denoted by a canonical numeric key, below bound [n]. *)
Definition array_index (k : string) (n : nat) : option nat :=
  snd <$> list_find (λ i : nat, pretty i = k) (seq 0 n).

(** [v[k]] on plain data. Reading a property of [null] or [undefined]
    throws a TypeError. *)
Definition get_prop (v : value) (k : string) : Result value :=
  match v with
  | VUndefined | VNull => Throw TypeError
  | VBool _ | VNum _ => Ok VUndefined
  | VStr s =>
      if String.eqb k "length" then Ok (VNum (Z.of_nat (String.length s)))
      else match array_index k (String.length s) with
           | Some i => Ok (VStr (String.substring i 1 s))
           | None => Ok VUndefined
           end
  | VObj props => Ok (default VUndefined (lookup_prop k props))
  | VArr elems =>
      if String.eqb k "length" then Ok (VNum (Z.of_nat (length elems)))
      else match array_index k (length elems) with
           | Some i => Ok (default VUndefined (elems !! i))
           | None => Ok VUndefined
           end
  end.

(* ================================================================== *)
(** * Strings *)
(* ================================================================== *)

(** [s.includes(".")] *)
Fixpoint includes_dot (s : string) : bool :=
  match s with
  | EmptyString => false
  | String c rest => if Ascii.eqb c "." then true else includes_dot rest
  end.

(** [s.split(".")] *)
Fixpoint split_dot (s : string) : list string :=
  match s with
  | EmptyString => [EmptyString]
  | String c rest =>
      if Ascii.eqb c "." then EmptyString :: split_dot rest
      else match split_dot rest with
           | [] => [String c EmptyString]
           | seg :: segs => String c seg :: segs
           end
  end.

(** [xs.join(",")] *)
Definition join_comma (xs : list string) : string := String.concat "," xs.

(** A non-empty string is truthy. *)
Definition truthy_string (s : string) : bool :=
  match s with
  | EmptyString => false
  | _ => true
  end.

(** The comparison [Array.prototype.sort] uses without a comparator. *)
Definition str_le (a b : string) : Prop := String.leb a b = true.

Global Instance str_le_dec a b : Decision (str_le a b).
Proof. unfold str_le. apply _. Defined.

(** [xs.sort()]: the sorted permutation of [xs] (all sorting algorithms agree
    on it, the order being total and antisymmetric). *)
Definition sort (xs : list string) : list string := merge_sort str_le xs.

(* ================================================================== *)
(** * Types ([src/types.ts]) *)
(* ================================================================== *)

(** A class constructor is known by its identity; what the class declares
    is looked up in the program state ([classes]). *)
Abbreviation Constructor := positive.

(** The address of an array a caller passes as [pick] or [omit]. *)
Abbreviation loc := positive.

Module MappingContext.

Record t : Type := {
  extras : value;
  depth : option Z;
  visited : option (list (value * value));
}.

(** The object literal [{}] *)
Definition empty : t :=
  {| extras := VUndefined; depth := None; visited := None |}.

End MappingContext.

Definition TransformFn : Type :=
  value → option MappingContext.t → Result value.

(** [source: PropertyPath | TransformFn] *)
Inductive Source : Type :=
  | SourcePath (path : string)
  | SourceFn (fn : TransformFn).

Record PropertyMappingConfig : Type := {
  targetKey : string;
  source : Source;
  isTransform : bool;
  groups : list string;
  ignore : bool;
}.

Module MapOptions.

Record t : Type := {
  pick : option loc;
  omit : option loc;
  group : option string;
  extras : option value;
}.

End MapOptions.

Inductive MetadataKey : Type := PROPERTY_MAPPINGS | FIELD_GROUPS.

(** [Map<string, PropertyMappingConfig>] keeps insertion order, which
    [Array.from(m.values())] exposes; [Map<string, Set<string>>] is only
    looked up. *)
Record MappingRegistryEntry : Type := {
  targetType : Constructor;
  propertyConfigs : list (string * PropertyMappingConfig);
  fieldGroups : gmap string (gset string);
}.

(** The closure [buildMapper] returns: its captured variables, and the
    identity of the function instance. *)
Record PathMapping : Type := { pm_target : string; pm_source : Source }.
Record TransformMapping : Type := { tm_target : string; tm_transform : TransformFn }.

Record CompiledMapper : Type := {
  fn_id : nat;
  captured_targetType : Constructor;
  pathMappings : list PathMapping;
  transformMappings : list TransformMapping;
}.

(** The arrow function [Mapper.createMapper] returns. *)
Record BoundMapper : Type := {
  bound_fn_id : nat;
  bound_mapper : CompiledMapper;
  bound_context : MappingContext.t;
}.

(* ================================================================== *)
(** * Program state *)
(* ================================================================== *)

(** What a class contributes: the own fields of [new C()], and the metadata
    its decorators defined on the constructor (absent when no decorator of
    that kind ran). *)
Record ClassInfo : Type := {
  instance_fields : list (string * value);
  property_mappings : option (list (string * PropertyMappingConfig));
  field_groups : option (gmap string (gset string));
}.

(** Ghost observations, newest first: they record which collaborators an
    operation called. *)
Inductive Event : Type :=
  | EvGetMetadata (key : MetadataKey) (T : Constructor)
  | EvConstruct (T : Constructor)
  | EvPathLookup (target : string)
  | EvTransform (target : string).

Record State : Type := {
  (** the classes of the program and their [Reflect] metadata *)
  classes : Constructor → ClassInfo;
  (** [MappingRegistryClass.registry] *)
  registry : gmap Constructor MappingRegistryEntry;
  (** [MappingRegistryClass.compiledMappers] *)
  compiledMappers : gmap Constructor (gmap string CompiledMapper);
  (** [pathCache] of the utilities *)
  pathCache : gmap string (list string);
  (** [Mapper.globalContext] *)
  globalContext : MappingContext.t;
  (** the field arrays callers hold *)
  arrays : gmap loc (list string);
  (** the next function identity *)
  next_fn_id : nat;
  trace : list Event;
}.

Definition set_registry (f : gmap Constructor MappingRegistryEntry →
                             gmap Constructor MappingRegistryEntry) (s : State) : State :=
  {| classes := classes s; registry := f (registry s);
     compiledMappers := compiledMappers s; pathCache := pathCache s;
     globalContext := globalContext s; arrays := arrays s;
     next_fn_id := next_fn_id s; trace := trace s |}.

Definition set_compiledMappers (f : gmap Constructor (gmap string CompiledMapper) →
                                    gmap Constructor (gmap string CompiledMapper))
    (s : State) : State :=
  {| classes := classes s; registry := registry s;
     compiledMappers := f (compiledMappers s); pathCache := pathCache s;
     globalContext := globalContext s; arrays := arrays s;
     next_fn_id := next_fn_id s; trace := trace s |}.

Definition set_pathCache (f : gmap string (list string) → gmap string (list string))
    (s : State) : State :=
  {| classes := classes s; registry := registry s;
     compiledMappers := compiledMappers s; pathCache := f (pathCache s);
     globalContext := globalContext s; arrays := arrays s;
     next_fn_id := next_fn_id s; trace := trace s |}.

Definition set_globalContext (f : MappingContext.t → MappingContext.t)
    (s : State) : State :=
  {| classes := classes s; registry := registry s;
     compiledMappers := compiledMappers s; pathCache := pathCache s;
     globalContext := f (globalContext s); arrays := arrays s;
     next_fn_id := next_fn_id s; trace := trace s |}.

Definition set_arrays (f : gmap loc (list string) → gmap loc (list string))
    (s : State) : State :=
  {| classes := classes s; registry := registry s;
     compiledMappers := compiledMappers s; pathCache := pathCache s;
     globalContext := globalContext s; arrays := f (arrays s);
     next_fn_id := next_fn_id s; trace := trace s |}.

Definition set_next_fn_id (f : nat → nat) (s : State) : State :=
  {| classes := classes s; registry := registry s;
     compiledMappers := compiledMappers s; pathCache := pathCache s;
     globalContext := globalContext s; arrays := arrays s;
     next_fn_id := f (next_fn_id s); trace := trace s |}.

Definition log (e : Event) (s : State) : State :=
  {| classes := classes s; registry := registry s;
     compiledMappers := compiledMappers s; pathCache := pathCache s;
     globalContext := globalContext s; arrays := arrays s;
     next_fn_id := next_fn_id s; trace := e :: trace s |}.

(** ** The monad of operations: state, and exceptions that keep the state *)

Definition M (A : Type) : Type := State → Result A * State.

Definition ret {A} (a : A) : M A := λ s, (Ok a, s).

Definition throw {A} (e : value) : M A := λ s, (Throw e, s).

Definition bind {A B} (c : M A) (k : A → M B) : M B :=
  λ s, match c s with
       | (Ok a, s') => k a s'
       | (Throw e, s') => (Throw e, s')
       end.

Definition get : M State := λ s, (Ok s, s).

Definition modify (f : State → State) : M unit := λ s, (Ok tt, f s).

Definition lift {A} (r : Result A) : M A := λ s, (r, s).

Notation "x <- c ;; k" := (bind c (λ x, k))
  (at level 100, c at next level, right associativity).
Notation "c ;;; k" := (bind c (λ _, k))
  (at level 100, right associativity).

(* ================================================================== *)
(** * Utilities ([src/utils.ts]) *)
(* ================================================================== *)

(** [const BLOCKED_KEYS = new Set(["__proto__", "constructor", "prototype"])] *)
Definition BLOCKED_KEYS : gset string :=
  {[ "__proto__"; "constructor"; "prototype" ]}.

(** [BLOCKED_KEYS.has(k)] *)
Definition BLOCKED_KEYS_has (k : string) : bool := bool_decide (k ∈ BLOCKED_KEYS).

(** The loop of [getNestedValue] over the segments, from [current]. *)
Fixpoint walk_segments (segments : list string) (current : value) : Result value :=
  match segments with
  | [] => Ok current
  | seg :: rest =>
      if BLOCKED_KEYS_has seg then Ok VUndefined
      else if is_nullish current || negb (typeof_object current) then Ok VUndefined
      else match get_prop current seg with
           | Ok next => walk_segments rest next
           | Throw e => Throw e
           end
  end.

(** [pathCache.get(path)], filled with [path.split(".")] on a miss. *)
Definition cached_segments (path : string) : M (list string) :=
  s <- get ;;
  match pathCache s !! path with
  | Some segments => ret segments
  | None =>
      let segments := split_dot path in
      modify (set_pathCache <[path := segments]>) ;;;
      ret segments
  end.

Definition getNestedValue (obj : value) (path : string) : M value :=
  if is_nullish obj then ret VUndefined
  else if negb (includes_dot path) then
    if BLOCKED_KEYS_has path then ret VUndefined
    else lift (get_prop obj path)
  else
    segments <- cached_segments path ;;
    lift (walk_segments segments obj).

(* ================================================================== *)
(** * The registry ([src/registry.ts]) *)
(* ================================================================== *)

(** [Reflect.getMetadata(key, targetType)] for the two keys the registry
    reads. *)
Definition Reflect_getMetadata_PROPERTY_MAPPINGS (T : Constructor)
  : M (option (list (string * PropertyMappingConfig))) :=
  modify (log (EvGetMetadata PROPERTY_MAPPINGS T)) ;;;
  s <- get ;;
  ret (property_mappings (classes s T)).

Definition Reflect_getMetadata_FIELD_GROUPS (T : Constructor)
  : M (option (gmap string (gset string))) :=
  modify (log (EvGetMetadata FIELD_GROUPS T)) ;;;
  s <- get ;;
  ret (field_groups (classes s T)).

(** [arr.sort()], in place; the sorted array is also the result. *)
Definition Array_sort (l : loc) : M (list string) :=
  s <- get ;;
  let sorted := sort (arrays s !!! l) in
  modify (set_arrays <[l := sorted]>) ;;;
  ret sorted.

(** [arr] read through its address. *)
Definition Array_read (l : loc) : M (list string) :=
  s <- get ;;
  ret (arrays s !!! l).

Module MappingRegistry.

Definition createEntryFromMetadata (T : Constructor) : M MappingRegistryEntry :=
  propertyMappings <- Reflect_getMetadata_PROPERTY_MAPPINGS T ;;
  fieldGroups <- Reflect_getMetadata_FIELD_GROUPS T ;;
  ret {| targetType := T;
         propertyConfigs := default [] propertyMappings;
         fieldGroups := default ∅ fieldGroups |}.

Definition getEntry (T : Constructor) : M MappingRegistryEntry :=
  s <- get ;;
  match registry s !! T with
  | Some entry => ret entry
  | None =>
      entry <- createEntryFromMetadata T ;;
      modify (set_registry <[T := entry]>) ;;;
      ret entry
  end.

Definition getCompiledMapper (T : Constructor) (optionsKey : string)
  : M (option CompiledMapper) :=
  s <- get ;;
  ret (typeMappers ← compiledMappers s !! T; typeMappers !! optionsKey).

Definition setCompiledMapper (T : Constructor) (optionsKey : string)
    (mapper : CompiledMapper) : M unit :=
  s <- get ;;
  let typeMappers := default ∅ (compiledMappers s !! T) in
  modify (set_compiledMappers <[T := <[optionsKey := mapper]> typeMappers]>).

Definition clearCache : M unit :=
  modify (set_registry (λ _, ∅)).

Definition getOptionsKey (options : option MapOptions.t) : M string :=
  match options with
  | None => ret "default"
  | Some o =>
      match MapOptions.pick o with
      | Some l => sorted <- Array_sort l ;; ret ("pick:" +:+ join_comma sorted)
      | None =>
          match MapOptions.omit o with
          | Some l => sorted <- Array_sort l ;; ret ("omit:" +:+ join_comma sorted)
          | None =>
              match MapOptions.group o with
              | Some g => if truthy_string g then ret ("group:" +:+ g) else ret "default"
              | None => ret "default"
              end
          end
      end
  end.

End MappingRegistry.

Module MapperFactory.

(** [options.group] when it is truthy. *)
Definition truthy_group (o : MapOptions.t) : option string :=
  match MapOptions.group o with
  | Some g => if truthy_string g then Some g else None
  | None => None
  end.

(** The elements of [fields] when [fields && fields.length > 0]. *)
Definition nonempty_fields (fields : option loc) : M (option (list string)) :=
  match fields with
  | None => ret None
  | Some l =>
      xs <- Array_read l ;;
      ret (if bool_decide (0 < length xs) then Some xs else None)
  end.

Definition getPropertiesToMap (entry : MappingRegistryEntry)
    (options : option MapOptions.t) : M (list PropertyMappingConfig) :=
  let allConfigs :=
    filter (λ config, ignore config = false) (propertyConfigs entry).*2 in
  match options with
  | None => ret allConfigs
  | Some o =>
      match truthy_group o with
      | Some g =>
          match fieldGroups entry !! g with
          | Some groupFields =>
              ret (filter (λ config, targetKey config ∈ groupFields) allConfigs)
          | None => ret []
          end
      | None =>
          pickFields <- nonempty_fields (MapOptions.pick o) ;;
          match pickFields with
          | Some fields =>
              let pickSet : gset string := list_to_set fields in
              ret (filter (λ config, targetKey config ∈ pickSet) allConfigs)
          | None =>
              omitFields <- nonempty_fields (MapOptions.omit o) ;;
              match omitFields with
              | Some fields =>
                  let omitSet : gset string := list_to_set fields in
                  ret (filter (λ config, targetKey config ∉ omitSet) allConfigs)
              | None => ret allConfigs
              end
          end
      end
  end.

(** The first loop of [buildMapper]: each property is pushed on one of the
    two arrays. *)
Fixpoint partition_properties (properties : list PropertyMappingConfig)
    (pathMappings : list PathMapping) (transformMappings : list TransformMapping)
  : list PathMapping * list TransformMapping :=
  match properties with
  | [] => (pathMappings, transformMappings)
  | prop :: rest =>
      match isTransform prop, source prop with
      | true, SourceFn fn =>
          partition_properties rest pathMappings
            (transformMappings ++
               [{| tm_target := targetKey prop; tm_transform := fn |}])
      | _, _ =>
          partition_properties rest
            (pathMappings ++
               [{| pm_target := targetKey prop; pm_source := source prop |}])
            transformMappings
      end
  end.

(** Allocation of the closure: a function instance with a fresh identity. *)
Definition buildMapper (T : Constructor) (entry : MappingRegistryEntry)
    (properties : list PropertyMappingConfig) : M CompiledMapper :=
  let '(pathMappings, transformMappings) := partition_properties properties [] [] in
  s <- get ;;
  modify (set_next_fn_id S) ;;;
  ret {| fn_id := next_fn_id s;
         captured_targetType := T;
         pathMappings := pathMappings;
         transformMappings := transformMappings |}.

Definition createMapper (T : Constructor) (options : option MapOptions.t)
  : M CompiledMapper :=
  entry <- MappingRegistry.getEntry T ;;
  optionsKey <- MappingRegistry.getOptionsKey options ;;
  compiledMapper <- MappingRegistry.getCompiledMapper T optionsKey ;;
  match compiledMapper with
  | Some mapper => ret mapper
  | None =>
      propertiesToMap <- getPropertiesToMap entry options ;;
      mapper <- buildMapper T entry propertiesToMap ;;
      MappingRegistry.setCompiledMapper T optionsKey mapper ;;;
      ret mapper
  end.

End MapperFactory.

(** ** Calling a compiled mapper *)

(** [new targetType()] *)
Definition construct (T : Constructor) : M (list (string * value)) :=
  modify (log (EvConstruct T)) ;;;
  s <- get ;;
  ret (instance_fields (classes s T)).

(** [getNestedValue(source, mapping.source)]: a [source] that is not a string
    has no [includes] method. *)
Definition resolve_source (obj : value) (src : Source) : M value :=
  match src with
  | SourcePath path => getNestedValue obj path
  | SourceFn _ => if is_nullish obj then ret VUndefined else throw TypeError
  end.

Fixpoint apply_pathMappings (mappings : list PathMapping) (src : value)
    (result : list (string * value)) : M (list (string * value)) :=
  match mappings with
  | [] => ret result
  | mapping :: rest =>
      modify (log (EvPathLookup (pm_target mapping))) ;;;
      v <- resolve_source src (pm_source mapping) ;;
      apply_pathMappings rest src (set_prop (pm_target mapping) v result)
  end.

Fixpoint apply_transformMappings (mappings : list TransformMapping) (src : value)
    (context : option MappingContext.t) (result : list (string * value))
  : M (list (string * value)) :=
  match mappings with
  | [] => ret result
  | mapping :: rest =>
      modify (log (EvTransform (tm_target mapping))) ;;;
      v <- lift (tm_transform mapping src context) ;;
      apply_transformMappings rest src context (set_prop (tm_target mapping) v result)
  end.

(** The body of the closure [buildMapper] returns, applied to
    [(source, context)]. *)
Definition invoke (mapper : CompiledMapper) (src : value)
    (context : option MappingContext.t) : M value :=
  if is_nullish src then ret VNull
  else
    result <- construct (captured_targetType mapper) ;;
    result <- apply_pathMappings (pathMappings mapper) src result ;;
    result <- apply_transformMappings (transformMappings mapper) src context result ;;
    ret (VObj result).

(* ================================================================== *)
(** * The facade ([src/mapper.ts]) *)
(* ================================================================== *)

(** [!v] is false *)
Definition truthy (v : value) : bool :=
  match v with
  | VUndefined | VNull | VBool false | VNum 0 | VStr EmptyString => false
  | _ => true
  end.

(** [options?.extras] *)
Definition options_extras (options : option MapOptions.t) : value :=
  match options with
  | Some o => default VUndefined (MapOptions.extras o)
  | None => VUndefined
  end.

(** [{ ...a, ...b }] on contexts: the properties [b] has win. *)
Definition spread_context (a b : MappingContext.t) : MappingContext.t :=
  {| MappingContext.extras :=
       match MappingContext.extras b with
       | VUndefined => MappingContext.extras a
       | e => e
       end;
     MappingContext.depth :=
       match MappingContext.depth b with
       | Some d => Some d
       | None => MappingContext.depth a
       end;
     MappingContext.visited :=
       match MappingContext.visited b with
       | Some w => Some w
       | None => MappingContext.visited a
       end |}.

(** The context [Mapper.map] and [Mapper.mapArray] build: the spread of the
    global context, with [extras], [depth] and [visited] overridden. *)
Definition map_context (g : MappingContext.t) (options : option MapOptions.t)
  : MappingContext.t :=
  {| MappingContext.extras := options_extras options;
     MappingContext.depth := Some 0%Z;
     MappingContext.visited := Some [] |}.

(** The context [Mapper.createMapper] binds: the spread of the global
    context, with [extras] overridden. *)
Definition bound_call_context (g : MappingContext.t) (options : option MapOptions.t)
  : MappingContext.t :=
  {| MappingContext.extras := options_extras options;
     MappingContext.depth := MappingContext.depth g;
     MappingContext.visited := MappingContext.visited g |}.

Module Mapper.

(** [{ ...this.globalContext, extras: options?.extras, depth: 0,
       visited: new WeakMap() }] *)
Definition call_context (options : option MapOptions.t) : M MappingContext.t :=
  s <- get ;;
  ret (map_context (globalContext s) options).

Definition map (src : value) (T : Constructor) (options : option MapOptions.t)
  : M value :=
  if is_nullish src then ret VNull
  else
    mapper <- MapperFactory.createMapper T options ;;
    context <- call_context options ;;
    invoke mapper src (Some context).

(** The loop of [mapArray] over the elements. *)
Fixpoint map_elements (mapper : CompiledMapper) (context : MappingContext.t)
    (sources : list value) : M (list value) :=
  match sources with
  | [] => ret []
  | x :: rest =>
      r <- (if negb (is_nullish x) then invoke mapper x (Some context)
            else ret VNull) ;;
      rs <- map_elements mapper context rest ;;
      ret (r :: rs)
  end.

Definition mapArray (sources : value) (T : Constructor)
    (options : option MapOptions.t) : M value :=
  if negb (truthy sources) || negb (isArray sources) then ret (VArr [])
  else
    mapper <- MapperFactory.createMapper T options ;;
    context <- call_context options ;;
    result <- map_elements mapper context (array_elements sources) ;;
    ret (VArr result).

Definition pick (src : value) (T : Constructor) (fields : loc) : M value :=
  map src T (Some (MapOptions.Build_t (Some fields) None None None)).

Definition omit (src : value) (T : Constructor) (fields : loc) : M value :=
  map src T (Some (MapOptions.Build_t None (Some fields) None None)).

Definition group (src : value) (T : Constructor) (groupName : string) : M value :=
  map src T (Some (MapOptions.Build_t None None (Some groupName) None)).

Definition createMapper (T : Constructor) (options : option MapOptions.t)
  : M BoundMapper :=
  compiledMapper <- MapperFactory.createMapper T options ;;
  s <- get ;;
  let context := bound_call_context (globalContext s) options in
  modify (set_next_fn_id S) ;;;
  ret {| bound_fn_id := next_fn_id s;
         bound_mapper := compiledMapper;
         bound_context := context |}.

Definition setGlobalContext (context : MappingContext.t) : M unit :=
  modify (set_globalContext (λ g, spread_context g context)).

Definition clearCache : M unit := MappingRegistry.clearCache.

Definition getCompiledMapper (T : Constructor) (options : option MapOptions.t)
  : M (option CompiledMapper) :=
  optionsKey <- MappingRegistry.getOptionsKey options ;;
  MappingRegistry.getCompiledMapper T optionsKey.

End Mapper.

(** Calling the arrow function [Mapper.createMapper] returned. *)
Definition call_bound (f : BoundMapper) (src : value) : M value :=
  invoke (bound_mapper f) src (Some (bound_context f)).

(* ================================================================== *)
(** * Callers and reachable states *)
(* ================================================================== *)

(** What a program does with the library: it calls the facade, calls a
    mapper it obtained, or writes one of its own arrays. *)
Inductive Call : Type :=
  | CallMap (src : value) (T : Constructor) (options : option MapOptions.t)
  | CallMapArray (sources : value) (T : Constructor) (options : option MapOptions.t)
  | CallPick (src : value) (T : Constructor) (fields : loc)
  | CallOmit (src : value) (T : Constructor) (fields : loc)
  | CallGroup (src : value) (T : Constructor) (groupName : string)
  | CallCreateMapper (T : Constructor) (options : option MapOptions.t)
  | CallSetGlobalContext (context : MappingContext.t)
  | CallClearCache
  | CallGetCompiledMapper (T : Constructor) (options : option MapOptions.t)
  | CallCompiled (mapper : CompiledMapper) (src : value)
      (context : option MappingContext.t)
  | CallBound (f : BoundMapper) (src : value)
  | CallerStore (l : loc) (xs : list string).

(** The state a call leaves, whether it returned or threw. *)
Definition run (c : Call) (s : State) : State :=
  match c with
  | CallMap src T options => snd (Mapper.map src T options s)
  | CallMapArray sources T options => snd (Mapper.mapArray sources T options s)
  | CallPick src T fields => snd (Mapper.pick src T fields s)
  | CallOmit src T fields => snd (Mapper.omit src T fields s)
  | CallGroup src T groupName => snd (Mapper.group src T groupName s)
  | CallCreateMapper T options => snd (Mapper.createMapper T options s)
  | CallSetGlobalContext context => snd (Mapper.setGlobalContext context s)
  | CallClearCache => snd (Mapper.clearCache s)
  | CallGetCompiledMapper T options => snd (Mapper.getCompiledMapper T options s)
  | CallCompiled mapper src context => snd (invoke mapper src context s)
  | CallBound f src => snd (call_bound f src s)
  | CallerStore l xs => set_arrays <[l := xs]> s
  end.

Definition step (s s' : State) : Prop := ∃ c, s' = run c s.

(** [s'] is reached from [s] by any number of calls. *)
Definition steps : State → State → Prop := rtc step.

(** The state of a program whose classes are [cls], before any call. *)
Definition initial_state (cls : Constructor → ClassInfo) : State :=
  {| classes := cls; registry := ∅; compiledMappers := ∅; pathCache := ∅;
     globalContext := MappingContext.empty; arrays := ∅;
     next_fn_id := 0; trace := [] |}.

(** A state some program reaches. *)
Definition reachable (s : State) : Prop := ∃ cls, steps (initial_state cls) s.

(** The state in which the caller has stored [xs] at [l]. *)
Definition holding (l : loc) (xs : list string) (s : State) : State :=
  run (CallerStore l xs) s.

(* ================================================================== *)
(** * Vocabulary of the properties *)
(* ================================================================== *)

(** The compiled mapper stored for [(T, optionsKey)], if any. *)
Definition cached (s : State) (T : Constructor) (optionsKey : string)
  : option CompiledMapper :=
  typeMappers ← compiledMappers s !! T; typeMappers !! optionsKey.

(** The signature [getOptionsKey] derives for [options] in state [s]. *)
Definition signature (options : option MapOptions.t) (s : State) : Result string :=
  fst (MappingRegistry.getOptionsKey options s).

(** The array the signature is derived from: [pick] when present, else
    [omit]. *)
Definition signature_array (options : option MapOptions.t) : option loc :=
  match options with
  | Some o =>
      match MapOptions.pick o with
      | Some l => Some l
      | None => MapOptions.omit o
      end
  | None => None
  end.

(** The options of the facade's shorthands. *)
Definition pick_options (fields : loc) : option MapOptions.t :=
  Some (MapOptions.Build_t (Some fields) None None None).

Definition omit_options (fields : loc) : option MapOptions.t :=
  Some (MapOptions.Build_t None (Some fields) None None).

Definition group_options (groupName : string) : option MapOptions.t :=
  Some (MapOptions.Build_t None None (Some groupName) None).

(** The entry [createEntryFromMetadata] builds for [T]. *)
Definition entry_of_metadata (s : State) (T : Constructor) : MappingRegistryEntry :=
  {| targetType := T;
     propertyConfigs := default [] (property_mappings (classes s T));
     fieldGroups := default ∅ (field_groups (classes s T)) |}.

(** The entry [getEntry] returns for [T]: the stored one, else the one it
    creates from the metadata. *)
Definition current_entry (s : State) (T : Constructor) : MappingRegistryEntry :=
  default (entry_of_metadata s T) (registry s !! T).

(** The declarations of [T], in declaration order. *)
Definition declarations (s : State) (T : Constructor) : list PropertyMappingConfig :=
  (default [] (property_mappings (classes s T))).*2.

(** The keys the decorators of [T] declared. *)
Definition declaredKeys (s : State) (T : Constructor) : list string :=
  targetKey <$> declarations s T.

(** No declaration of [T] is ignored. *)
Definition none_ignored (s : State) (T : Constructor) : Prop :=
  ∀ config, config ∈ declarations s T → ignore config = false.

(** The closure [buildMapper] allocates in state [s] for [properties]. *)
Definition built_mapper (s : State) (T : Constructor)
    (properties : list PropertyMappingConfig) : CompiledMapper :=
  {| fn_id := next_fn_id s;
     captured_targetType := T;
     pathMappings := (MapperFactory.partition_properties properties [] []).1;
     transformMappings := (MapperFactory.partition_properties properties [] []).2 |}.

(** The two arrays [buildMapper] fills, each as a function of the
    properties: the transform mappings, and the path mappings. *)
Definition as_transform (prop : PropertyMappingConfig) : option TransformMapping :=
  match isTransform prop, source prop with
  | true, SourceFn fn => Some {| tm_target := targetKey prop; tm_transform := fn |}
  | _, _ => None
  end.

Definition as_path (prop : PropertyMappingConfig) : option PathMapping :=
  match as_transform prop with
  | Some _ => None
  | None => Some {| pm_target := targetKey prop; pm_source := source prop |}
  end.

(** The target keys a compiled mapper assigns. *)
Definition assigned_keys (mapper : CompiledMapper) : list string :=
  (pm_target <$> pathMappings mapper) ++ (tm_target <$> transformMappings mapper).

(** The locator of [config] yields a value on [src]: a path always does; a
    transform does when it returns. *)
Definition locator_returns (config : PropertyMappingConfig) (src : value)
    (context : option MappingContext.t) : Prop :=
  match source config with
  | SourcePath _ => True
  | SourceFn fn => isTransform config = true ∧ ∃ v, fn src context = Ok v
  end.

(** Left-to-right traversal that stops at the first exception. *)
Fixpoint traverse {A B} (f : A → Result B) (xs : list A) : Result (list B) :=
  match xs with
  | [] => Ok []
  | x :: rest =>
      match f x with
      | Ok y =>
          match traverse f rest with
          | Ok ys => Ok (y :: ys)
          | Throw e => Throw e
          end
      | Throw e => Throw e
      end
  end.

(** [f] under [Ok] *)
Definition Result_map {A B} (f : A → B) (r : Result A) : Result B :=
  match r with
  | Ok a => Ok (f a)
  | Throw e => Throw e
  end.

(** ** Invariants of the module-level state *)

(** Every cached segment list is the split of its path. *)
Definition pathCache_ok (s : State) : Prop :=
  ∀ path segments, pathCache s !! path = Some segments → segments = split_dot path.

(** Every registry entry mirrors the metadata of its class. *)
Definition registry_ok (s : State) : Prop :=
  ∀ T entry, registry s !! T = Some entry → entry = entry_of_metadata s T.

(** [mapper] is what compiling [T] yields for some options whose signature
    is [optionsKey]. *)
Definition compiled_from (s : State) (T : Constructor) (optionsKey : string)
    (mapper : CompiledMapper) : Prop :=
  ∃ options s0 properties,
    fst (MappingRegistry.getOptionsKey options s0) = Ok optionsKey ∧
    fst (MapperFactory.getPropertiesToMap (entry_of_metadata s T) options
           (snd (MappingRegistry.getOptionsKey options s0))) = Ok properties ∧
    MapperFactory.partition_properties properties [] [] =
      (pathMappings mapper, transformMappings mapper) ∧
    captured_targetType mapper = T.

Definition cache_ok (s : State) : Prop :=
  ∀ T optionsKey mapper,
    cached s T optionsKey = Some mapper → compiled_from s T optionsKey mapper.

Definition valid_state (s : State) : Prop :=
  pathCache_ok s ∧ registry_ok s ∧ cache_ok s.

(** Every stored closure was allocated before the next identity. *)
Definition ids_fresh (s : State) : Prop :=
  ∀ T optionsKey mapper,
    cached s T optionsKey = Some mapper → fn_id mapper < next_fn_id s.

(** ** Frame conditions *)

(** [s'] differs from [s] at most in the path cache. *)
Definition same_but_pathCache (s s' : State) : Prop :=
  classes s' = classes s ∧ registry s' = registry s ∧
  compiledMappers s' = compiledMappers s ∧ globalContext s' = globalContext s ∧
  arrays s' = arrays s ∧ next_fn_id s' = next_fn_id s ∧ trace s' = trace s.

(** [s'] differs from [s] at most in the path cache and in the trace. *)
Definition same_but_pathCache_and_trace (s s' : State) : Prop :=
  classes s' = classes s ∧ registry s' = registry s ∧
  compiledMappers s' = compiledMappers s ∧ globalContext s' = globalContext s ∧
  arrays s' = arrays s ∧ next_fn_id s' = next_fn_id s.

(** [s'] differs from [s] at most in the arrays callers hold. *)
Definition same_but_arrays (s s' : State) : Prop :=
  classes s' = classes s ∧ registry s' = registry s ∧
  compiledMappers s' = compiledMappers s ∧ pathCache s' = pathCache s ∧
  globalContext s' = globalContext s ∧ next_fn_id s' = next_fn_id s ∧
  trace s' = trace s.

(** Wherever it is run, [c] leaves a state related by [R] to the one it
    started in. *)
Definition respects {A} (R : relation State) (c : M A) : Prop :=
  ∀ s, R s (snd (c s)).

(** [R] compares one component of the state. *)
Definition keeps {X} (proj : State → X) : relation State :=
  λ s s', proj s' = proj s.

(** The compiled-mapper cache only grows: what is stored stays stored. *)
Definition cache_extends (s s' : State) : Prop :=
  ∀ T optionsKey mapper,
    cached s T optionsKey = Some mapper → cached s' T optionsKey = Some mapper.

(** Two states a computation may run in alike: the same classes, and path
    caches that hold what [getNestedValue] stored. *)
Definition agree (s s' : State) : Prop :=
  classes s = classes s' ∧ pathCache_ok s ∧ pathCache_ok s'.

(** [c] yields the same result in states that agree, and leaves states
    that agree. *)
Definition stable {A} (c : M A) : Prop :=
  ∀ s s', agree s s' →
    fst (c s) = fst (c s') ∧ agree (snd (c s)) (snd (c s')).

(* ================================================================== *)
(** * A program to run *)
(* ================================================================== *)

(** [@AutoMap()], [@MapFrom(path)] and [@MapFrom(fn)], with the groups
    [@FieldGroup] gave the property. *)
Definition path_config (key path : string) (gs : list string) : PropertyMappingConfig :=
  {| targetKey := key; source := SourcePath path; isTransform := false;
     groups := gs; ignore := false |}.

Definition transform_config (key : string) (fn : TransformFn) (gs : list string)
  : PropertyMappingConfig :=
  {| targetKey := key; source := SourceFn fn; isTransform := true;
     groups := gs; ignore := false |}.

(** [(src) => src.age >= 18] *)
Definition isAdult_fn : TransformFn := λ src _,
  match get_prop src "age" with
  | Ok (VNum n) => Ok (VBool (18 <=? n)%Z)
  | Ok _ => Ok (VBool false)
  | Throw e => Throw e
  end.

(** The DTO of the specification's scenarios. *)
Definition UserDto : Constructor := 1%positive.

Definition UserDto_info : ClassInfo :=
  {| instance_fields := [];
     property_mappings := Some
       [ ("username", path_config "username" "username" ["minimal"]);
         ("avatar", path_config "avatar" "profile.avatarUrl" ["minimal"]);
         ("isAdult", transform_config "isAdult" isAdult_fn []);
         ("email", path_config "email" "email" ["full"]) ];
     field_groups := Some
       (<["minimal" := {[ "username"; "avatar" ]}]>
          (<["full" := {[ "email" ]}]> ∅)) |}.

(** A class with two mapped properties, no group and nothing ignored. *)
Definition PlainDto : Constructor := 2%positive.

Definition PlainDto_info : ClassInfo :=
  {| instance_fields := [];
     property_mappings := Some
       [ ("a", path_config "a" "a" []); ("b", path_config "b" "b" []) ];
     field_groups := None |}.

(** A class no decorator touched. *)
Definition no_info : ClassInfo :=
  {| instance_fields := []; property_mappings := None; field_groups := None |}.

Definition program (T : Constructor) : ClassInfo :=
  if decide (T = UserDto) then UserDto_info
  else if decide (T = PlainDto) then PlainDto_info
  else no_info.

Definition userEntity : value :=
  VObj [ ("username", VStr "john_doe"); ("email", VStr "john@x.com");
         ("age", VNum 25); ("profile", VObj [("avatarUrl", VStr "u")]) ].

Definition plainSource : value := VObj [("a", VNum 1); ("b", VNum 2)].

(* ================================================================== *)
(** * More of the utilities ([src/utils.ts]) *)
(* ================================================================== *)

(** A [Map] with string keys, in insertion order: [m.get(key)], and
    [m.set(key, v)], which keeps the place of a key the map has. An object
    whose properties are not all plain data is held in the same way. *)
Fixpoint Map_get {V} (key : string) (m : list (string * V)) : option V :=
  match m with
  | [] => None
  | (k, v) :: rest => if String.eqb key k then Some v else Map_get key rest
  end.

Fixpoint Map_set {V} (key : string) (v : V) (m : list (string * V))
  : list (string * V) :=
  match m with
  | [] => [(key, v)]
  | (k, v') :: rest =>
      if String.eqb key k then (k, v) :: rest else (k, v') :: Map_set key v rest
  end.










(* ================================================================== *)
(** * More vocabulary *)
(* ================================================================== *)

(** [getNestedValue] with its memo erased: what it computes when every
    path is split afresh. *)
Definition resolve_path (obj : value) (path : string) : Result value :=
  if is_nullish obj then Ok VUndefined
  else if negb (includes_dot path) then
    if BLOCKED_KEYS_has path then Ok VUndefined else get_prop obj path
  else walk_segments (split_dot path) obj.

(** An object or an array: what the walk of [getNestedValue] steps into. *)
Definition object_like (v : value) : bool :=
  negb (is_nullish v) && typeof_object v.

(** The path [p.q] *)
Definition dotted (p q : string) : string := p +:+ "." +:+ q.

(** The calls of a program, run in order. *)
Definition run_all (cs : list Call) (s : State) : State :=
  foldl (λ s c, run c s) s cs.

(** How often the decorator metadata of [T] was consulted: the reads of
    its property mappings (the field groups are read right after, by the
    same call). *)
Fixpoint metadata_reads (T : Constructor) (tr : list Event) : nat :=
  match tr with
  | [] => 0
  | EvGetMetadata PROPERTY_MAPPINGS T' :: rest =>
      (if decide (T' = T) then 1 else 0) + metadata_reads T rest
  | _ :: rest => metadata_reads T rest
  end.

(** How often a program cleared the cache. *)
Fixpoint clears (cs : list Call) : nat :=
  match cs with
  | [] => 0
  | CallClearCache :: rest => S (clears rest)
  | _ :: rest => clears rest
  end.

(** The path-cache only grows: what is memoised stays memoised. *)
Definition pathCache_extends (s s' : State) : Prop :=
  ∀ path segments,
    pathCache s !! path = Some segments → pathCache s' !! path = Some segments.

(** What the registry holds, and how often the metadata of [T] was read. *)
Definition metadata_view (T : Constructor) (s : State)
  : gmap Constructor MappingRegistryEntry * nat :=
  (registry s, metadata_reads T (trace s)).

(** The reads of the metadata of [T] so far, and the one still to come
    while the registry has no entry for [T]. *)
Definition metadata_potential (T : Constructor) (s : State) : nat :=
  metadata_reads T (trace s) +
  match registry s !! T with
  | Some _ => 0
  | None => 1
  end.

(** What the locator of a declaration yields on [src]: the result of its
    transform, or what its path resolves to (a function that was not
    declared as a transform is taken for a path, and has no [includes]
    method). *)
Definition locate (config : PropertyMappingConfig) (src : value)
    (context : option MappingContext.t) : Result value :=
  match as_transform config with
  | Some mapping => tm_transform mapping src context
  | None =>
      match source config with
      | SourcePath path => resolve_path src path
      | SourceFn _ => Throw TypeError
      end
  end.

(** The events of the two loops of a compiled mapper, oldest first. *)
Definition path_events (mappings : list PathMapping) : list Event :=
  (λ mapping, EvPathLookup (pm_target mapping)) <$> mappings.

Definition transform_events (mappings : list TransformMapping) : list Event :=
  (λ mapping, EvTransform (tm_target mapping)) <$> mappings.

(** [(src) => src.profile.bio], which throws a TypeError on a source
    without a profile. *)
Definition bio_fn : TransformFn := λ src _,
  match get_prop src "profile" with
  | Ok profile => get_prop profile "bio"
  | Throw e => Throw e
  end.

(** [c] does not read the global context: it runs alike under every
    global context, and leaves the one it found. *)
Definition ignores_globalContext {A} (c : M A) : Prop :=
  ∀ f s, c (set_globalContext f s) = (fst (c s), set_globalContext f (snd (c s))).

(* ================================================================== *)
(** * Decorators ([src/decorators.ts]) *)
(* ================================================================== *)

(** [[...new Set(xs)]]: the first occurrences, in order. *)
Fixpoint Set_to_array (xs : list string) : list string :=
  match xs with
  | [] => []
  | x :: rest => x :: filter (λ y, y ≠ x) (Set_to_array rest)
  end.

(** The metadata decorators define on a constructor: the two maps the
    registry reads, held in [ClassInfo], and the markers kept per
    property. *)
Record ClassMetadata : Type := {
  class_info : ClassInfo;
  auto_map_marks : gset string;
  ignore_marks : gset string;
  nested_types : gmap string Constructor;
}.

(** [Reflect.defineMetadata(METADATA_KEYS.PROPERTY_MAPPINGS, m, ctor)] *)
Definition defineMetadata_PROPERTY_MAPPINGS
    (m : list (string * PropertyMappingConfig)) (c : ClassMetadata) : ClassMetadata :=
  {| class_info :=
       {| instance_fields := instance_fields (class_info c);
          property_mappings := Some m;
          field_groups := field_groups (class_info c) |};
     auto_map_marks := auto_map_marks c;
     ignore_marks := ignore_marks c;
     nested_types := nested_types c |}.

(** [Reflect.defineMetadata(METADATA_KEYS.FIELD_GROUPS, fg, ctor)] *)
Definition defineMetadata_FIELD_GROUPS
    (fg : gmap string (gset string)) (c : ClassMetadata) : ClassMetadata :=
  {| class_info :=
       {| instance_fields := instance_fields (class_info c);
          property_mappings := property_mappings (class_info c);
          field_groups := Some fg |};
     auto_map_marks := auto_map_marks c;
     ignore_marks := ignore_marks c;
     nested_types := nested_types c |}.

(** [Reflect.defineMetadata(key, value, ctor, propertyKey)] for the three
    keys kept per property. *)
Definition defineMetadata_AUTO_MAP (key : string) (c : ClassMetadata) : ClassMetadata :=
  {| class_info := class_info c;
     auto_map_marks := {[ key ]} ∪ auto_map_marks c;
     ignore_marks := ignore_marks c;
     nested_types := nested_types c |}.

Definition defineMetadata_IGNORE (key : string) (c : ClassMetadata) : ClassMetadata :=
  {| class_info := class_info c;
     auto_map_marks := auto_map_marks c;
     ignore_marks := {[ key ]} ∪ ignore_marks c;
     nested_types := nested_types c |}.

Definition defineMetadata_NESTED_TYPE (key : string) (typeFactory : Constructor)
    (c : ClassMetadata) : ClassMetadata :=
  {| class_info := class_info c;
     auto_map_marks := auto_map_marks c;
     ignore_marks := ignore_marks c;
     nested_types := <[key := typeFactory]> (nested_types c) |}.

Definition createDefaultConfig (targetKey : string) : PropertyMappingConfig :=
  {| targetKey := targetKey; source := SourcePath targetKey; isTransform := false;
     groups := []; ignore := false |}.

(** The decorators, applied to the property [key] of the class whose
    metadata is [c]. *)
Definition MapFrom (sourcePathOrTransform : Source) (key : string)
    (c : ClassMetadata) : ClassMetadata :=
  let existingMappings := default [] (property_mappings (class_info c)) in
  let existingConfig :=
    default (createDefaultConfig key) (Map_get key existingMappings) in
  let existingConfig :=
    match sourcePathOrTransform with
    | SourceFn _ =>
        {| targetKey := targetKey existingConfig;
           source := sourcePathOrTransform; isTransform := true;
           groups := groups existingConfig; ignore := ignore existingConfig |}
    | SourcePath _ =>
        {| targetKey := targetKey existingConfig;
           source := sourcePathOrTransform; isTransform := false;
           groups := groups existingConfig; ignore := ignore existingConfig |}
    end in
  defineMetadata_PROPERTY_MAPPINGS (Map_set key existingConfig existingMappings) c.

Definition AutoMap (key : string) (c : ClassMetadata) : ClassMetadata :=
  let existingMappings := default [] (property_mappings (class_info c)) in
  let existingConfig :=
    default (createDefaultConfig key) (Map_get key existingMappings) in
  let existingConfig :=
    {| targetKey := targetKey existingConfig;
       source := SourcePath key; isTransform := false;
       groups := groups existingConfig; ignore := ignore existingConfig |} in
  defineMetadata_AUTO_MAP key
    (defineMetadata_PROPERTY_MAPPINGS (Map_set key existingConfig existingMappings) c).

(** The loop of [FieldGroup] over its groups, adding [key] to each. *)
Fixpoint add_to_groups (key : string) (groups : list string)
    (fieldGroups : gmap string (gset string)) : gmap string (gset string) :=
  match groups with
  | [] => fieldGroups
  | group :: rest =>
      let groupSet := default ∅ (fieldGroups !! group) in
      add_to_groups key rest (<[group := {[ key ]} ∪ groupSet]> fieldGroups)
  end.

Definition FieldGroup (groups' : list string) (key : string)
    (c : ClassMetadata) : ClassMetadata :=
  let existingMappings := default [] (property_mappings (class_info c)) in
  let existingConfig :=
    default (createDefaultConfig key) (Map_get key existingMappings) in
  let existingConfig :=
    {| targetKey := targetKey existingConfig;
       source := source existingConfig; isTransform := isTransform existingConfig;
       groups := Set_to_array (groups existingConfig ++ groups');
       ignore := ignore existingConfig |} in
  let c := defineMetadata_PROPERTY_MAPPINGS
             (Map_set key existingConfig existingMappings) c in
  let fieldGroups := default ∅ (field_groups (class_info c)) in
  defineMetadata_FIELD_GROUPS (add_to_groups key groups' fieldGroups) c.

Definition Ignore (key : string) (c : ClassMetadata) : ClassMetadata :=
  let existingMappings := default [] (property_mappings (class_info c)) in
  let existingConfig :=
    default (createDefaultConfig key) (Map_get key existingMappings) in
  let existingConfig :=
    {| targetKey := targetKey existingConfig;
       source := source existingConfig; isTransform := isTransform existingConfig;
       groups := groups existingConfig; ignore := true |} in
  defineMetadata_IGNORE key
    (defineMetadata_PROPERTY_MAPPINGS (Map_set key existingConfig existingMappings) c).

Definition NestedType (typeFactory : Constructor) (key : string)
    (c : ClassMetadata) : ClassMetadata :=
  defineMetadata_NESTED_TYPE key typeFactory c.

(** ** Class declarations *)

(** A decorator expression on a property. *)
Inductive Decorator : Type :=
  | DMapFrom (sourcePathOrTransform : Source)
  | DAutoMap
  | DFieldGroup (groups : list string)
  | DIgnore
  | DNestedType (typeFactory : Constructor).

Definition decorate (d : Decorator) (key : string) : ClassMetadata → ClassMetadata :=
  match d with
  | DMapFrom sourcePathOrTransform => MapFrom sourcePathOrTransform key
  | DAutoMap => AutoMap key
  | DFieldGroup groups => FieldGroup groups key
  | DIgnore => Ignore key
  | DNestedType typeFactory => NestedType typeFactory key
  end.

(** The decorators of one class declaration run one after the other, in
    the order the language runs them: member after member, and on one
    member from the decorator nearest to it upwards. Each finds the
    metadata [Reflect.getMetadata] yields for the constructor, which for a
    subclass is, at first, what its parent holds: [c] is that view, and the
    result is the view of the class once its decorators have run. (The maps
    are changed in place: a parent whose map a subclass inherited sees the
    additions too.) *)
Definition run_decorators (decorators : list (Decorator * string))
    (c : ClassMetadata) : ClassMetadata :=
  foldl (λ c d, decorate d.1 d.2 c) c decorators.

(** A constructor for which [Reflect.getMetadata] finds nothing, on the
    class or up its prototype chain; its instances have [fields]. *)
Definition undecorated (fields : list (string * value)) : ClassMetadata :=
  {| class_info :=
       {| instance_fields := fields; property_mappings := None;
          field_groups := None |};
     auto_map_marks := ∅; ignore_marks := ∅; nested_types := ∅ |}.

(** The metadata of maps that only the decorator runs [decorators] have
    written, from their creation on: that of a class that inherits no
    metadata and has no decorated subclass, once its decorators have
    run. *)
Definition define_class (fields : list (string * value))
    (decorators : list (Decorator * string)) : ClassMetadata :=
  foldl (λ c d, decorate d.1 d.2 c) (undecorated fields) decorators.

(** What the decorators maintain: each config sits under its own key,
    once; its groups are listed once each; and the group index holds a
    key under a group exactly when the key's config lists the group. *)
Definition metadata_ok (info : ClassInfo) : Prop :=
  let mappings := default [] (property_mappings info) in
  let fieldGroups := default ∅ (field_groups info) in
  NoDup mappings.*1
  ∧ (∀ key config, (key, config) ∈ mappings →
       targetKey config = key ∧ NoDup (groups config))
  ∧ (∀ group key,
       key ∈ default ∅ (fieldGroups !! group) ↔
       ∃ config, (key, config) ∈ mappings ∧ group ∈ groups config).

(** The classes of the tests, as the decorators leave them. *)
Definition IgnoreTestDto_metadata : ClassMetadata :=
  define_class [] [ (DAutoMap, "name"); (DIgnore, "secret") ].

Definition UserWithGroupsDto_metadata : ClassMetadata :=
  define_class []
    [ (DAutoMap, "username"); (DFieldGroup ["minimal"; "public"], "username");
      (DMapFrom (SourcePath "profile.avatarUrl"), "avatar");
      (DFieldGroup ["minimal"; "public"], "avatar");
      (DAutoMap, "bio"); (DFieldGroup ["public"; "full"], "bio");
      (DAutoMap, "email"); (DFieldGroup ["full"], "email");
      (DAutoMap, "createdAt"); (DFieldGroup ["full"], "createdAt") ].

Definition IgnoreTestDto : Constructor := 3%positive.
Definition UserWithGroupsDto : Constructor := 4%positive.

(** The program of the tests. *)
Definition test_program (T : Constructor) : ClassInfo :=
  if decide (T = IgnoreTestDto) then class_info IgnoreTestDto_metadata
  else if decide (T = UserWithGroupsDto) then class_info UserWithGroupsDto_metadata
  else program T.

(** What a decorator is about: where the value comes from, the groups of
    the property, whether it is ignored, or its nested type. *)
Inductive Concern : Type := Locator | Grouping | Ignoring | Nesting.

Definition concern (d : Decorator) : Concern :=
  match d with
  | DMapFrom _ | DAutoMap => Locator
  | DFieldGroup _ => Grouping
  | DIgnore => Ignoring
  | DNestedType _ => Nesting
  end.

(** ** The mapping builder *)

(** The loop of [getNestedValueTyped] over the segments, from [current]. *)
Fixpoint walk_typed (segments : list string) (current : value) : Result value :=
  match segments with
  | [] => Ok current
  | segment :: rest =>
      if is_nullish current || negb (typeof_object current) then Ok VUndefined
      else match get_prop current segment with
           | Ok next => walk_typed rest next
           | Throw e => Throw e
           end
  end.

Definition getNestedValueTyped (obj : value) (path : string) : Result value :=
  if is_nullish obj then Ok VUndefined
  else walk_typed (split_dot path) obj.




(* ================================================================== *)
(** * Properties: auxiliary lemmas *)
(* ================================================================== *)

(** ** The default ordering of strings *)

Lemma string_compare_lt_trans s1 s2 s3 :
  String.compare s1 s2 = Lt → String.compare s2 s3 = Lt → String.compare s1 s3 = Lt.
Proof.
  revert s2 s3.
  induction s1 as [|a s1 IH]; intros [|b s2] [|c s3]; simpl; try done.
  unfold Ascii.compare.
  destruct (N.compare_spec (N_of_ascii a) (N_of_ascii b)) as [Hab|Hab|Hab];
    destruct (N.compare_spec (N_of_ascii b) (N_of_ascii c)) as [Hbc|Hbc|Hbc];
    try done; intros H1 H2.
  - rewrite Hab, Hbc, N.compare_refl. eauto.
  - rewrite Hab. by apply N.compare_lt_iff in Hbc as ->.
  - rewrite <- Hbc. by apply N.compare_lt_iff in Hab as ->.
  - assert (N_of_ascii a < N_of_ascii c)%N as Hac by lia.
    by apply N.compare_lt_iff in Hac as ->.
Qed.

Global Instance str_le_trans : Transitive str_le.
Proof.
  intros s1 s2 s3. unfold str_le, String.leb.
  destruct (String.compare s1 s2) eqn:H12;
    [|destruct (String.compare s2 s3) eqn:H23|]; try done.
  - apply String.compare_eq_iff in H12 as ->. done.
  - apply String.compare_eq_iff in H23 as ->. by rewrite H12.
  - by rewrite (string_compare_lt_trans _ _ _ H12 H23).
Qed.

Global Instance str_le_total : Total str_le.
Proof. intros s1 s2. apply String.leb_total. Qed.

Global Instance str_le_antisym : AntiSymm (=) str_le.
Proof. intros s1 s2. apply String.leb_antisym. Qed.

Lemma sort_Permutation xs : sort xs ≡ₚ xs.
Proof. apply merge_sort_Permutation. Qed.

Lemma sort_Sorted xs : StronglySorted str_le (sort xs).
Proof. apply (StronglySorted_merge_sort _). Qed.

(** Sorting forgets the order the caller supplied. *)
Lemma sort_permuted xs ys : xs ≡ₚ ys → sort xs = sort ys.
Proof.
  intros Hp. apply (StronglySorted_unique str_le); try apply sort_Sorted.
  by rewrite !sort_Permutation.
Qed.

Lemma sort_idemp xs : sort (sort xs) = sort xs.
Proof. apply sort_permuted, sort_Permutation. Qed.

Lemma elem_of_sort x xs : x ∈ sort xs ↔ x ∈ xs.
Proof. by rewrite sort_Permutation. Qed.

Lemma sort_nil_inv xs : sort xs = [] → xs = [].
Proof.
  intros H. apply Permutation_nil_r. rewrite <- H. by rewrite sort_Permutation.
Qed.

(** ** Paths *)

Lemma split_dot_no_dot path : includes_dot path = false → split_dot path = [path].
Proof.
  induction path as [|c rest IH]; simpl; [done|].
  destruct (Ascii.eqb c "."); [done|]. intros H. by rewrite (IH H).
Qed.

Lemma BLOCKED_KEYS_has_true k : k ∈ BLOCKED_KEYS → BLOCKED_KEYS_has k = true.
Proof. intros H. unfold BLOCKED_KEYS_has. by apply bool_decide_eq_true. Qed.

(** A property read on an object or an array does not throw. *)
Lemma get_prop_object v k :
  is_nullish v = false → ∃ r, get_prop v k = Ok r.
Proof.
  destruct v; simpl; try done; intros _; eauto; repeat case_match; eauto.
Qed.

(** Once a segment is blocked the walk yields [undefined], wherever it
    started. *)
Lemma walk_segments_blocked segments current :
  (∃ seg, seg ∈ segments ∧ seg ∈ BLOCKED_KEYS) →
  walk_segments segments current = Ok VUndefined.
Proof.
  intros (seg & Hin & Hb). revert current.
  induction segments as [|seg' rest IH]; intros current; [by inversion Hin|].
  simpl. destruct (BLOCKED_KEYS_has seg') eqn:Hseg'; [done|].
  destruct (is_nullish current) eqn:Hnull; simpl; [done|].
  destruct (typeof_object current); simpl; [|done].
  destruct (get_prop_object current seg' Hnull) as [r ->].
  apply IH. apply elem_of_cons in Hin as [->|Hin]; [|done].
  by rewrite (BLOCKED_KEYS_has_true _ Hb) in Hseg'.
Qed.

(** ** Running the monad *)

Lemma bind_Ok {A B} (c : M A) (k : A → M B) s a s' :
  c s = (Ok a, s') → bind c k s = k a s'.
Proof. unfold bind. by intros ->. Qed.

Lemma bind_Throw {A B} (c : M A) (k : A → M B) s e s' :
  c s = (Throw e, s') → bind c k s = (Throw e, s').
Proof. unfold bind. by intros ->. Qed.

Lemma pathCache_ok_initial cls : pathCache_ok (initial_state cls).
Proof. intros path segments. simpl. by rewrite lookup_empty. Qed.

Lemma cached_segments_spec s path :
  pathCache_ok s →
  ∃ s', cached_segments path s = (Ok (split_dot path), s') ∧
        same_but_pathCache s s' ∧ pathCache_ok s'.
Proof.
  intros Hok. unfold cached_segments, bind, get, modify, ret; simpl.
  destruct (pathCache s !! path) as [segments|] eqn:Hc.
  - rewrite (Hok _ _ Hc). exists s. by repeat split.
  - eexists; split; [done|]. split; [by repeat split|].
    intros p segs. simpl. rewrite lookup_insert.
    case_decide as Hp; [|apply Hok]. subst p. by intros [= <-].
Qed.

(** ** Frame conditions of the operations *)

Global Instance keeps_refl {X} (proj : State → X) : Reflexive (keeps proj).
Proof. by intros s. Qed.

Global Instance keeps_trans {X} (proj : State → X) : Transitive (keeps proj).
Proof. unfold keeps. intros s1 s2 s3 H1 H2. congruence. Qed.

Global Instance same_but_pathCache_and_trace_refl :
  Reflexive same_but_pathCache_and_trace.
Proof. by intros s. Qed.

Global Instance same_but_pathCache_and_trace_trans :
  Transitive same_but_pathCache_and_trace.
Proof.
  intros s1 s2 s3 (?&?&?&?&?&?) (?&?&?&?&?&?).
  repeat split; congruence.
Qed.

Global Instance same_but_arrays_refl : Reflexive same_but_arrays.
Proof. by intros s. Qed.

Global Instance same_but_arrays_trans : Transitive same_but_arrays.
Proof.
  intros s1 s2 s3 (?&?&?&?&?&?&?) (?&?&?&?&?&?&?).
  repeat split; congruence.
Qed.

Global Instance cache_extends_refl : Reflexive cache_extends.
Proof. by intros s T k m H. Qed.

Global Instance cache_extends_trans : Transitive cache_extends.
Proof. unfold cache_extends. intros s1 s2 s3 H1 H2 T k m H. eauto. Qed.

Section respects.
Context (R : relation State) `{!Reflexive R, !Transitive R}.

Lemma respects_ret {A} (a : A) : respects R (ret a).
Proof. by intros s. Qed.

Lemma respects_throw {A} e : respects R (@throw A e).
Proof. by intros s. Qed.

Lemma respects_lift {A} (r : Result A) : respects R (lift r).
Proof. by intros s. Qed.

Lemma respects_get : respects R get.
Proof. by intros s. Qed.

Lemma respects_modify f : (∀ s, R s (f s)) → respects R (modify f).
Proof. intros H s. apply H. Qed.

Lemma respects_bind {A B} (c : M A) (k : A → M B) :
  respects R c → (∀ a, respects R (k a)) → respects R (bind c k).
Proof.
  intros Hc Hk s. unfold bind. specialize (Hc s).
  destruct (c s) as [[a|e] s']; simpl in *; [|done].
  etrans; [done|]. apply Hk.
Qed.
End respects.

(** One step of a frame proof: peel a bind, or close a primitive whose
    state update leaves the compared components alone. *)
Ltac respects_step :=
  first
    [ apply respects_bind; [tc_solve | |intros ?]
    | apply respects_ret; tc_solve
    | apply respects_throw; tc_solve
    | apply respects_lift; tc_solve
    | apply respects_get; tc_solve
    | apply respects_modify; intros ?; by repeat split
    | progress case_match ].

Ltac respects_auto := repeat respects_step.

Lemma cached_segments_frame path :
  respects same_but_pathCache_and_trace (cached_segments path).
Proof. unfold cached_segments. respects_auto. Qed.

Lemma getNestedValue_frame obj path :
  respects same_but_pathCache_and_trace (getNestedValue obj path).
Proof. unfold getNestedValue. respects_auto. Qed.

Lemma resolve_source_frame obj src :
  respects same_but_pathCache_and_trace (resolve_source obj src).
Proof. unfold resolve_source. respects_auto. apply getNestedValue_frame. Qed.

Lemma apply_pathMappings_frame mappings src result :
  respects same_but_pathCache_and_trace (apply_pathMappings mappings src result).
Proof.
  revert result. induction mappings as [|mapping rest IH]; intros result; simpl.
  - respects_auto.
  - respects_step; [respects_auto|].
    respects_step; [apply resolve_source_frame|apply IH].
Qed.

Lemma apply_transformMappings_frame mappings src context result :
  respects same_but_pathCache_and_trace
    (apply_transformMappings mappings src context result).
Proof.
  revert result. induction mappings as [|mapping rest IH]; intros result; simpl.
  - respects_auto.
  - respects_auto. apply IH.
Qed.

Lemma construct_frame T : respects same_but_pathCache_and_trace (construct T).
Proof. unfold construct. respects_auto. Qed.

Lemma invoke_frame mapper src context :
  respects same_but_pathCache_and_trace (invoke mapper src context).
Proof.
  unfold invoke. respects_auto;
    auto using construct_frame, apply_pathMappings_frame,
      apply_transformMappings_frame.
Qed.

(** ** The signature of options *)

Lemma Array_sort_spec l s :
  Array_sort l s =
    (Ok (sort (arrays s !!! l)), set_arrays <[l := sort (arrays s !!! l)]> s).
Proof. done. Qed.

(** [getOptionsKey] never throws, and touches nothing but the array the
    signature is derived from, which it leaves sorted. *)
Lemma getOptionsKey_state options s :
  snd (MappingRegistry.getOptionsKey options s) =
    match signature_array options with
    | Some l => set_arrays <[l := sort (arrays s !!! l)]> s
    | None => s
    end.
Proof.
  destruct options as [[[l|] [l'|] [g|] e]|]; simpl; try done;
    by destruct (truthy_string g).
Qed.

Lemma getOptionsKey_returns options s :
  ∃ optionsKey, fst (MappingRegistry.getOptionsKey options s) = Ok optionsKey.
Proof.
  destruct options as [[[l|] [l'|] [g|] e]|]; simpl; eauto;
    destruct (truthy_string g); eauto.
Qed.

Lemma getOptionsKey_run options s :
  ∃ optionsKey,
    MappingRegistry.getOptionsKey options s =
      (Ok optionsKey, snd (MappingRegistry.getOptionsKey options s)) ∧
    signature options s = Ok optionsKey.
Proof.
  destruct (getOptionsKey_returns options s) as [k Hk]. exists k. split; [|done].
  destruct (MappingRegistry.getOptionsKey options s); simpl in *. by subst.
Qed.

(** The signature only depends on the arrays. *)
Lemma signature_arrays options s s' :
  arrays s = arrays s' → signature options s = signature options s'.
Proof.
  intros H. unfold signature.
  destruct options as [[[l|] [l'|] [g|] e]|]; simpl; rewrite ?H; try done;
    by destruct (truthy_string g).
Qed.

Lemma getOptionsKey_frame options :
  respects same_but_arrays (MappingRegistry.getOptionsKey options).
Proof.
  intros s. rewrite getOptionsKey_state. by destruct (signature_array options).
Qed.

(** Field lists that differ only in their order derive the same signature. *)
Lemma signature_pick_permuted l1 l2 om1 om2 g1 g2 e1 e2 s1 s2 :
  arrays s1 !!! l1 ≡ₚ arrays s2 !!! l2 →
  signature (Some (MapOptions.Build_t (Some l1) om1 g1 e1)) s1 =
  signature (Some (MapOptions.Build_t (Some l2) om2 g2 e2)) s2.
Proof. intros H. unfold signature. simpl. by rewrite (sort_permuted _ _ H). Qed.

Lemma signature_omit_permuted l1 l2 g1 g2 e1 e2 s1 s2 :
  arrays s1 !!! l1 ≡ₚ arrays s2 !!! l2 →
  signature (Some (MapOptions.Build_t None (Some l1) g1 e1)) s1 =
  signature (Some (MapOptions.Build_t None (Some l2) g2 e2)) s2.
Proof. intros H. unfold signature. simpl. by rewrite (sort_permuted _ _ H). Qed.

(** ** The registry *)

Lemma getEntry_run T s :
  MappingRegistry.getEntry T s =
    match registry s !! T with
    | Some entry => (Ok entry, s)
    | None =>
        (Ok (entry_of_metadata s T),
         set_registry <[T := entry_of_metadata s T]>
           (log (EvGetMetadata FIELD_GROUPS T)
              (log (EvGetMetadata PROPERTY_MAPPINGS T) s)))
    end.
Proof.
  unfold MappingRegistry.getEntry, bind, get; simpl. by destruct (registry s !! T).
Qed.

Lemma getEntry_arrays T s : arrays (snd (MappingRegistry.getEntry T s)) = arrays s.
Proof. rewrite getEntry_run. by destruct (registry s !! T). Qed.

Lemma getEntry_compiledMappers T s :
  compiledMappers (snd (MappingRegistry.getEntry T s)) = compiledMappers s.
Proof. rewrite getEntry_run. by destruct (registry s !! T). Qed.

Lemma getCompiledMapper_run T optionsKey s :
  MappingRegistry.getCompiledMapper T optionsKey s = (Ok (cached s T optionsKey), s).
Proof. done. Qed.

Lemma getPropertiesToMap_state entry options s :
  snd (MapperFactory.getPropertiesToMap entry options s) = s.
Proof.
  unfold MapperFactory.getPropertiesToMap.
  destruct options as [o|]; [|done].
  destruct (MapperFactory.truthy_group o); [by case_match|].
  destruct o as [[l|] [l'|] g e]; simpl; unfold bind; simpl; repeat case_match; done.
Qed.

Lemma getPropertiesToMap_returns entry options s :
  ∃ properties, fst (MapperFactory.getPropertiesToMap entry options s) = Ok properties.
Proof.
  unfold MapperFactory.getPropertiesToMap.
  destruct options as [o|]; [|by eexists].
  destruct (MapperFactory.truthy_group o); [case_match; by eexists|].
  destruct o as [[l|] [l'|] g e]; simpl; unfold bind; simpl; repeat case_match;
    by eexists.
Qed.

Lemma getPropertiesToMap_arrays entry options s s' :
  arrays s = arrays s' →
  fst (MapperFactory.getPropertiesToMap entry options s) =
  fst (MapperFactory.getPropertiesToMap entry options s').
Proof.
  intros H. unfold MapperFactory.getPropertiesToMap.
  destruct options as [o|]; [|done].
  destruct (MapperFactory.truthy_group o); [by case_match|].
  destruct s, s'; simpl in H; subst.
  destruct o as [[l|] [l'|] g e]; simpl; unfold bind; simpl;
    repeat case_match; simpl in *; simplify_eq; done || congruence.
Qed.

(** ** Compilation *)

Lemma buildMapper_run T entry properties s :
  MapperFactory.buildMapper T entry properties s =
    (Ok (built_mapper s T properties), set_next_fn_id S s).
Proof.
  unfold MapperFactory.buildMapper, built_mapper.
  by destruct (MapperFactory.partition_properties properties [] []).
Qed.

Lemma cached_insert s T optionsKey mapper T' optionsKey' :
  (typeMappers ← <[T := <[optionsKey := mapper]>
                     (default ∅ (compiledMappers s !! T))]> (compiledMappers s) !! T';
   typeMappers !! optionsKey') =
  if decide (T = T' ∧ optionsKey = optionsKey') then Some mapper
  else cached s T' optionsKey'.
Proof.
  unfold cached. destruct (decide (T = T')) as [->|HT].
  - rewrite lookup_insert_eq. simpl.
    destruct (decide (optionsKey = optionsKey')) as [->|Hk].
    + rewrite lookup_insert_eq. by rewrite decide_True.
    + rewrite lookup_insert_ne by done. rewrite decide_False by (intros [? ?]; congruence).
      by destruct (compiledMappers s !! T').
  - rewrite lookup_insert_ne by done. by rewrite decide_False by (intros [? ?]; congruence).
Qed.

(** What [createMapper] does, step by step: the entry is fetched, the
    signature derived (sorting the caller's array), and the cache consulted;
    only on a miss is a mapper built and stored. *)
Lemma createMapper_run T options s :
  let s1 := snd (MappingRegistry.getEntry T s) in
  let s2 := snd (MappingRegistry.getOptionsKey options s1) in
  ∃ optionsKey,
    signature options s = Ok optionsKey ∧
    match cached s T optionsKey with
    | Some mapper => MapperFactory.createMapper T options s = (Ok mapper, s2)
    | None =>
        ∃ properties,
          fst (MapperFactory.getPropertiesToMap (current_entry s T) options s2)
            = Ok properties ∧
          MapperFactory.createMapper T options s =
            (Ok (built_mapper s T properties),
             set_compiledMappers
               <[T := <[optionsKey := built_mapper s T properties]>
                        (default ∅ (compiledMappers s !! T))]>
               (set_next_fn_id S s2))
    end.
Proof.
  intros s1 s2.
  destruct (getOptionsKey_run options s1) as (k & Hrun & Hsig).
  exists k. split.
  { rewrite <- Hsig. apply signature_arrays. subst s1. by rewrite getEntry_arrays. }
  assert (MappingRegistry.getEntry T s = (Ok (current_entry s T), s1)) as Hentry.
  { subst s1. rewrite getEntry_run. unfold current_entry.
    by destruct (registry s !! T). }
  assert (cached s2 T k = cached s T k) as Hcached.
  { unfold cached. subst s2.
    destruct (getOptionsKey_frame options s1) as (_ & _ & -> & _).
    subst s1. by rewrite getEntry_compiledMappers. }
  unfold MapperFactory.createMapper.
  rewrite (bind_Ok _ _ _ _ _ Hentry), (bind_Ok _ _ _ _ _ Hrun).
  fold s2. rewrite (bind_Ok _ _ _ _ _ (getCompiledMapper_run T k s2)).
  rewrite Hcached. destruct (cached s T k) as [mapper|]; [done|].
  destruct (getPropertiesToMap_returns (current_entry s T) options s2)
    as [properties Hprops].
  exists properties. split; [done|].
  assert (MapperFactory.getPropertiesToMap (current_entry s T) options s2
          = (Ok properties, s2)) as Hprops'.
  { pose proof (getPropertiesToMap_state (current_entry s T) options s2).
    destruct (MapperFactory.getPropertiesToMap _ _ _); simpl in *. by subst. }
  rewrite (bind_Ok _ _ _ _ _ Hprops').
  rewrite (bind_Ok _ _ _ _ _ (buildMapper_run T _ properties s2)).
  assert (next_fn_id s2 = next_fn_id s) as Hid.
  { subst s2. destruct (getOptionsKey_frame options s1) as (_&_&_&_&_& -> &_).
    subst s1. rewrite getEntry_run. by destruct (registry s !! T). }
  assert (compiledMappers s2 = compiledMappers s) as Hcm.
  { subst s2. destruct (getOptionsKey_frame options s1) as (_ & _ & -> & _).
    subst s1. by rewrite getEntry_compiledMappers. }
  unfold MappingRegistry.setCompiledMapper, bind, get, modify, ret; simpl.
  unfold built_mapper. rewrite Hid, Hcm. done.
Qed.

Lemma createMapper_returns T options s :
  ∃ mapper, fst (MapperFactory.createMapper T options s) = Ok mapper.
Proof.
  destruct (createMapper_run T options s) as (k & _ & H).
  destruct (cached s T k); [|destruct H as (? & _ & H)]; rewrite H; eauto.
Qed.

(** After [createMapper], the mapper it returned is the one stored under
    the signature. *)
Lemma createMapper_cached T options s optionsKey :
  signature options s = Ok optionsKey →
  Ok <$> cached (snd (MapperFactory.createMapper T options s)) T optionsKey
    = Some (fst (MapperFactory.createMapper T options s)).
Proof.
  intros Hsig. destruct (createMapper_run T options s) as (k & Hk & H).
  rewrite Hsig in Hk. injection Hk as <-.
  destruct (cached s T optionsKey) as [mapper|] eqn:Hc.
  - rewrite H. simpl. unfold cached.
    destruct (getOptionsKey_frame options (snd (MappingRegistry.getEntry T s)))
      as (_ & _ & -> & _).
    rewrite getEntry_compiledMappers. fold (cached s T optionsKey). by rewrite Hc.
  - destruct H as (properties & _ & ->). simpl. unfold cached at 1. simpl.
    destruct (getOptionsKey_frame options (snd (MappingRegistry.getEntry T s)))
      as (_ & _ & -> & _).
    rewrite getEntry_compiledMappers.
    rewrite cached_insert. by rewrite decide_True.
Qed.

(** A cache hit returns the stored mapper. *)
Lemma createMapper_hit T options s optionsKey mapper :
  signature options s = Ok optionsKey →
  cached s T optionsKey = Some mapper →
  fst (MapperFactory.createMapper T options s) = Ok mapper.
Proof.
  intros Hsig Hc. destruct (createMapper_run T options s) as (k & Hk & H).
  rewrite Hsig in Hk. injection Hk as <-. rewrite Hc in H. by rewrite H.
Qed.

Lemma createMapper_cache_extends T options :
  respects cache_extends (MapperFactory.createMapper T options).
Proof.
  intros s T' k' m Hc. destruct (createMapper_run T options s) as (k & Hk & H).
  assert (compiledMappers
            (snd (MappingRegistry.getOptionsKey options
                    (snd (MappingRegistry.getEntry T s)))) = compiledMappers s) as Hcm.
  { destruct (getOptionsKey_frame options (snd (MappingRegistry.getEntry T s)))
      as (_ & _ & -> & _). by rewrite getEntry_compiledMappers. }
  destruct (cached s T k) as [mapper|] eqn:Hhit.
  - rewrite H. simpl. unfold cached. by rewrite Hcm.
  - destruct H as (properties & _ & ->). simpl. unfold cached at 1. simpl.
    rewrite Hcm, cached_insert. case_decide as Heq; [|done].
    destruct Heq as [<- <-]. congruence.
Qed.

Lemma createMapper_arrays T options s :
  arrays (snd (MapperFactory.createMapper T options s)) =
  arrays (snd (MappingRegistry.getOptionsKey options s)).
Proof.
  destruct (createMapper_run T options s) as (k & _ & H).
  assert (arrays (snd (MappingRegistry.getOptionsKey options
                         (snd (MappingRegistry.getEntry T s)))) =
          arrays (snd (MappingRegistry.getOptionsKey options s))) as Harr.
  { rewrite !getOptionsKey_state. pose proof (getEntry_arrays T s) as Hs.
    destruct (signature_array options); simpl; by rewrite Hs. }
  destruct (cached s T k); [|destruct H as (? & _ & H)]; by rewrite H.
Qed.

Lemma createMapper_classes T options :
  respects (keeps classes) (MapperFactory.createMapper T options).
Proof.
  intros s. unfold keeps. destruct (createMapper_run T options s) as (k & _ & H).
  assert (classes (snd (MappingRegistry.getOptionsKey options
                          (snd (MappingRegistry.getEntry T s)))) = classes s) as Hcl.
  { destruct (getOptionsKey_frame options (snd (MappingRegistry.getEntry T s)))
      as (-> & _). rewrite getEntry_run. by destruct (registry s !! T). }
  destruct (cached s T k); [|destruct H as (? & _ & H)]; by rewrite H.
Qed.

(** ** Calls keep what the cache holds *)

Lemma cache_extends_same s s' :
  compiledMappers s' = compiledMappers s → cache_extends s s'.
Proof. intros H T k m. unfold cached. by rewrite H. Qed.

Lemma invoke_cache_extends mapper src context :
  respects cache_extends (invoke mapper src context).
Proof.
  intros s. apply cache_extends_same.
  by destruct (invoke_frame mapper src context s) as (_ & _ & -> & _).
Qed.

Lemma map_elements_frame mapper context sources :
  respects same_but_pathCache_and_trace (Mapper.map_elements mapper context sources).
Proof.
  induction sources as [|x rest IH]; simpl; [apply respects_ret; tc_solve|].
  apply respects_bind; [tc_solve| |intros r].
  - destruct (is_nullish x); simpl;
      [apply respects_ret; tc_solve|apply invoke_frame].
  - apply respects_bind; [tc_solve|apply IH|intros rs].
    apply respects_ret; tc_solve.
Qed.

Lemma map_elements_cache_extends mapper context sources :
  respects cache_extends (Mapper.map_elements mapper context sources).
Proof.
  intros s. apply cache_extends_same.
  by destruct (map_elements_frame mapper context sources s) as (_ & _ & -> & _).
Qed.

Lemma map_cache_extends src T options :
  respects cache_extends (Mapper.map src T options).
Proof.
  unfold Mapper.map. destruct (is_nullish src); [apply respects_ret; tc_solve|].
  apply respects_bind; [tc_solve|apply createMapper_cache_extends|intros mapper].
  apply respects_bind; [tc_solve|by intros ?|intros context].
  apply invoke_cache_extends.
Qed.

Lemma Mapper_getCompiledMapper_run T options s :
  ∃ optionsKey,
    signature options s = Ok optionsKey ∧
    Mapper.getCompiledMapper T options s =
      (Ok (cached s T optionsKey), snd (MappingRegistry.getOptionsKey options s)).
Proof.
  destruct (getOptionsKey_run options s) as (k & Hrun & Hsig).
  exists k. split; [done|].
  unfold Mapper.getCompiledMapper. rewrite (bind_Ok _ _ _ _ _ Hrun).
  rewrite getCompiledMapper_run. f_equal. f_equal. unfold cached.
  by destruct (getOptionsKey_frame options s) as (_ & _ & -> & _).
Qed.

Lemma run_cache_extends c s : cache_extends s (run c s).
Proof.
  destruct c; simpl.
  - apply map_cache_extends.
  - unfold Mapper.mapArray. case_match; [done|].
    apply (respects_bind cache_extends); [apply createMapper_cache_extends|intros mapper].
    apply respects_bind; [tc_solve|by intros ?|intros context].
    apply respects_bind; [tc_solve|apply map_elements_cache_extends|intros rs].
    apply respects_ret; tc_solve.
  - apply map_cache_extends.
  - apply map_cache_extends.
  - apply map_cache_extends.
  - apply (respects_bind cache_extends); [apply createMapper_cache_extends|intros mapper].
    intros s'. by apply cache_extends_same.
  - by apply cache_extends_same.
  - by apply cache_extends_same.
  - apply cache_extends_same.
    destruct (getOptionsKey_frame options s) as (_ & _ & Hcm & _).
    destruct (Mapper_getCompiledMapper_run T options s) as (k & _ & ->).
    exact Hcm.
  - apply invoke_cache_extends.
  - apply invoke_cache_extends.
  - by apply cache_extends_same.
Qed.

Lemma steps_cache_extends s s' : steps s s' → cache_extends s s'.
Proof.
  induction 1 as [s|s1 s2 s3 [c ->] _ IH]; [done|].
  etrans; [apply run_cache_extends|done].
Qed.

(** ** The caller's arrays *)

Lemma invoke_arrays mapper src context s :
  arrays (snd (invoke mapper src context s)) = arrays s.
Proof. by destruct (invoke_frame mapper src context s) as (_&_&_&_& -> &_). Qed.

Lemma map_arrays src T options s :
  is_nullish src = false →
  arrays (snd (Mapper.map src T options s)) =
  arrays (snd (MappingRegistry.getOptionsKey options s)).
Proof.
  intros Hsrc. unfold Mapper.map. rewrite Hsrc.
  destruct (createMapper_returns T options s) as [mapper Hm].
  pose proof (createMapper_arrays T options s) as Harr.
  destruct (MapperFactory.createMapper T options s) as [r s1] eqn:Hrun.
  simpl in Hm, Harr. subst r.
  rewrite (bind_Ok _ _ _ _ _ Hrun).
  rewrite (bind_Ok _ _ s1 (map_context (globalContext s1) options) s1) by done.
  by rewrite invoke_arrays.
Qed.

(** ** Results do not depend on the memo *)

Lemma stable_ret {A} (a : A) : stable (ret a).
Proof. by intros s s' H. Qed.

Lemma stable_throw {A} e : stable (@throw A e).
Proof. by intros s s' H. Qed.

Lemma stable_lift {A} (r : Result A) : stable (lift r).
Proof. by intros s s' H. Qed.

Lemma stable_log e : stable (modify (log e)).
Proof. by intros s s' H. Qed.

Lemma stable_bind {A B} (c : M A) (k : A → M B) :
  stable c → (∀ a, stable (k a)) → stable (bind c k).
Proof.
  intros Hc Hk s s' Hs. destruct (Hc s s' Hs) as [Hfst Hsnd]. unfold bind.
  destruct (c s) as [[a|e] s1], (c s') as [[a'|e'] s1']; simplify_eq/=; [|done].
  by apply Hk.
Qed.

Lemma stable_cached_segments path : stable (cached_segments path).
Proof.
  intros s s' (Hcl & Hok & Hok').
  destruct (cached_segments_spec s path Hok) as (s1 & -> & Hf & Hok1).
  destruct (cached_segments_spec s' path Hok') as (s1' & -> & Hf' & Hok1').
  split; [done|]. simpl. repeat split; try done.
  destruct Hf as (-> & _), Hf' as (-> & _). done.
Qed.

Lemma stable_getNestedValue obj path : stable (getNestedValue obj path).
Proof.
  unfold getNestedValue.
  repeat case_match; auto using stable_ret, stable_lift.
  apply stable_bind; [apply stable_cached_segments|intros segments].
  apply stable_lift.
Qed.

Lemma stable_resolve_source obj src : stable (resolve_source obj src).
Proof.
  destruct src; simpl; [apply stable_getNestedValue|].
  case_match; auto using stable_ret, stable_throw.
Qed.

Lemma stable_apply_pathMappings mappings src result :
  stable (apply_pathMappings mappings src result).
Proof.
  revert result. induction mappings as [|mapping rest IH]; intros result; simpl.
  - apply stable_ret.
  - apply stable_bind; [apply stable_log|intros _].
    apply stable_bind; [apply stable_resolve_source|intros v]. apply IH.
Qed.

Lemma stable_apply_transformMappings mappings src context result :
  stable (apply_transformMappings mappings src context result).
Proof.
  revert result. induction mappings as [|mapping rest IH]; intros result; simpl.
  - apply stable_ret.
  - apply stable_bind; [apply stable_log|intros _].
    apply stable_bind; [apply stable_lift|intros v]. apply IH.
Qed.

Lemma stable_construct T : stable (construct T).
Proof.
  intros s s' (Hcl & Hok & Hok'). unfold construct, bind, modify, get, ret; simpl.
  by rewrite Hcl.
Qed.

Lemma stable_invoke mapper src context : stable (invoke mapper src context).
Proof.
  unfold invoke. case_match; [apply stable_ret|].
  apply stable_bind; [apply stable_construct|intros result].
  apply stable_bind; [apply stable_apply_pathMappings|intros result'].
  apply stable_bind; [apply stable_apply_transformMappings|intros result''].
  apply stable_ret.
Qed.

(** ** Arrays *)

Lemma traverse_Ok {A B} (f : A → Result B) xs ys :
  traverse f xs = Ok ys →
  length ys = length xs ∧
  ∀ i x, xs !! i = Some x → ∃ y, ys !! i = Some y ∧ f x = Ok y.
Proof.
  revert ys. induction xs as [|x rest IH]; intros ys; simpl.
  - intros [= <-]. split; [done|]. intros i x. by rewrite lookup_nil.
  - destruct (f x) as [y|e] eqn:Hx; [|done].
    destruct (traverse f rest) as [ys'|e]; [|done].
    intros [= <-]. destruct (IH ys' eq_refl) as [Hlen Hnth].
    split; [simpl; by rewrite Hlen|].
    intros [|i] x'; simpl; [|by apply Hnth].
    intros [= <-]. eauto.
Qed.

Lemma traverse_total {A B} (f : A → Result B) xs :
  (∀ x, x ∈ xs → ∃ y, f x = Ok y) → ∃ ys, traverse f xs = Ok ys.
Proof.
  induction xs as [|x rest IH]; intros H; simpl; [by eexists|].
  destruct (H x) as [y ->]; [apply list_elem_of_here|].
  destruct IH as [ys ->]; [|by eexists].
  intros x' Hx'. apply H. by apply list_elem_of_further.
Qed.

(** The loop of [mapArray] collects, in order, what the mapper returns on
    each element; the path cache the earlier elements filled does not
    change what the later ones yield. *)
Lemma map_elements_result mapper context sources s0 s :
  agree s0 s →
  fst (Mapper.map_elements mapper context sources s) =
    traverse (λ x, if is_nullish x then Ok VNull
                   else fst (invoke mapper x (Some context) s0)) sources.
Proof.
  revert s. induction sources as [|x rest IH]; intros s Hs; simpl; [done|].
  unfold bind at 1.
  destruct (is_nullish x) eqn:Hx; simpl.
  - unfold bind at 1. rewrite <- (IH s Hs).
    by destruct (Mapper.map_elements mapper context rest s) as [[rs|e] s'].
  - destruct (stable_invoke mapper x (Some context) s0 s Hs) as [Hfst Hagree].
    rewrite Hfst.
    destruct (invoke mapper x (Some context) s) as [[r|e] s1]; simpl in *; [|done].
    unfold bind at 1.
    assert (agree s0 s1) as Hs1.
    { destruct Hs as (Hcl & Hok & _), Hagree as (Hcl' & _ & Hok1).
      repeat split; try done.
      destruct (invoke_frame mapper x (Some context) s0) as (-> & _) in Hcl'.
      done. }
    rewrite <- (IH s1 Hs1).
    by destruct (Mapper.map_elements mapper context rest s1) as [[rs|e] s'].
Qed.

Lemma createMapper_pathCache T options :
  respects (keeps pathCache) (MapperFactory.createMapper T options).
Proof.
  intros s. unfold keeps. destruct (createMapper_run T options s) as (k & _ & H).
  assert (pathCache (snd (MappingRegistry.getOptionsKey options
                          (snd (MappingRegistry.getEntry T s)))) = pathCache s) as Hcl.
  { destruct (getOptionsKey_frame options (snd (MappingRegistry.getEntry T s)))
      as (_ & _ & _ & -> & _). rewrite getEntry_run. by destruct (registry s !! T). }
  destruct (cached s T k); [|destruct H as (? & _ & H)]; by rewrite H.
Qed.

Lemma createMapper_pathCache_ok T options s :
  pathCache_ok s → pathCache_ok (snd (MapperFactory.createMapper T options s)).
Proof.
  intros Hok path segments. rewrite (createMapper_pathCache T options s). apply Hok.
Qed.

(** ** Clearing the cache *)

(** [clearCache] empties the declaration registry and nothing else. *)
Lemma clearCache_run s :
  Mapper.clearCache s = (Ok tt, set_registry (λ _, ∅) s).
Proof. done. Qed.

(** ** The invariants hold in every reachable state *)

Lemma valid_state_initial cls : valid_state (initial_state cls).
Proof.
  split; [apply pathCache_ok_initial|]. split.
  - intros T entry. simpl. by rewrite lookup_empty.
  - intros T k m. unfold cached. simpl. by rewrite lookup_empty.
Qed.

Lemma entry_of_metadata_classes s s' T :
  classes s' = classes s → entry_of_metadata s' T = entry_of_metadata s T.
Proof. unfold entry_of_metadata. by intros ->. Qed.

Lemma compiled_from_classes s s' T k m :
  classes s' = classes s → compiled_from s T k m → compiled_from s' T k m.
Proof.
  intros Hcl (options & s0 & props & H). exists options, s0, props.
  by rewrite (entry_of_metadata_classes s s' T Hcl).
Qed.

Lemma valid_state_frame s s' :
  same_but_pathCache_and_trace s s' → pathCache_ok s' →
  valid_state s → valid_state s'.
Proof.
  intros (Hcl & Hreg & Hcm & _) Hok (_ & Hr & Hc). split; [done|]. split.
  - intros T entry. rewrite Hreg, (entry_of_metadata_classes s s' T Hcl). apply Hr.
  - intros T k m. unfold cached. rewrite Hcm. intros H.
    apply (compiled_from_classes s); [done|]. by apply Hc.
Qed.

Lemma invoke_pathCache_ok mapper src context s :
  pathCache_ok s → pathCache_ok (snd (invoke mapper src context s)).
Proof.
  intros Hok. by destruct (stable_invoke mapper src context s s) as (_ & _ & _ & ?).
Qed.

Lemma invoke_valid mapper src context s :
  valid_state s → valid_state (snd (invoke mapper src context s)).
Proof.
  intros Hv. apply (valid_state_frame s); [apply invoke_frame| |done].
  apply invoke_pathCache_ok, Hv.
Qed.

Lemma map_elements_pathCache_ok mapper context sources s :
  pathCache_ok s → pathCache_ok (snd (Mapper.map_elements mapper context sources s)).
Proof.
  revert s. induction sources as [|x rest IH]; intros s Hok; simpl; [done|].
  unfold bind at 1.
  destruct (is_nullish x); simpl.
  - unfold bind at 1. specialize (IH s Hok).
    by destruct (Mapper.map_elements mapper context rest s) as [[rs|e] s'].
  - pose proof (invoke_pathCache_ok mapper x (Some context) s Hok) as Hok1.
    destruct (invoke mapper x (Some context) s) as [[r|e] s1]; simpl in *; [|done].
    unfold bind at 1. specialize (IH s1 Hok1).
    by destruct (Mapper.map_elements mapper context rest s1) as [[rs|e] s'].
Qed.

Lemma map_elements_valid mapper context sources s :
  valid_state s → valid_state (snd (Mapper.map_elements mapper context sources s)).
Proof.
  intros Hv. apply (valid_state_frame s); [apply map_elements_frame| |done].
  apply map_elements_pathCache_ok, Hv.
Qed.

Lemma current_entry_valid s T :
  registry_ok s → current_entry s T = entry_of_metadata s T.
Proof.
  intros Hr. unfold current_entry.
  destruct (registry s !! T) as [entry|] eqn:He; [|done]. by apply Hr.
Qed.

Lemma createMapper_valid T options s :
  valid_state s → valid_state (snd (MapperFactory.createMapper T options s)).
Proof.
  intros (Hok & Hr & Hc).
  pose proof (createMapper_pathCache_ok T options s Hok) as Hok'.
  pose proof (createMapper_classes T options s) as Hcl. unfold keeps in Hcl.
  split; [done|].
  destruct (createMapper_run T options s) as (k & Hk & H).
  set (s1 := snd (MappingRegistry.getEntry T s)) in *.
  set (s2 := snd (MappingRegistry.getOptionsKey options s1)) in *.
  assert (registry_ok s2) as Hr2.
  { intros T' entry. subst s2.
    destruct (getOptionsKey_frame options s1) as (Hcl2 & -> & _).
    rewrite (entry_of_metadata_classes s1 _ T' Hcl2).
    subst s1. rewrite getEntry_run.
    destruct (registry s !! T) eqn:He; simpl; [apply Hr|].
    rewrite lookup_insert. case_decide as HT; [|apply Hr].
    subst T'. by intros [= <-]. }
  assert (compiledMappers s2 = compiledMappers s) as Hcm2.
  { subst s2. destruct (getOptionsKey_frame options s1) as (_ & _ & -> & _).
    subst s1. by rewrite getEntry_compiledMappers. }
  assert (classes s2 = classes s) as Hcl2.
  { subst s2. destruct (getOptionsKey_frame options s1) as (-> & _).
    subst s1. rewrite getEntry_run. by destruct (registry s !! T). }
  destruct (cached s T k) as [mapper|] eqn:Hhit.
  - rewrite H in Hcl |- *. simpl in *. split; [done|].
    intros T' k' m. unfold cached. rewrite Hcm2. intros Hm.
    apply (compiled_from_classes s); [done|]. by apply Hc.
  - destruct H as (properties & Hprops & H). rewrite H in Hcl |- *. simpl in *.
    split.
    + intros T' entry Hin. exact (Hr2 T' entry Hin).
    + intros T' k' m. unfold cached at 1. simpl.
      rewrite Hcm2, cached_insert. case_decide as Heq.
      * destruct Heq as [<- <-]. intros [= <-].
        exists options, s1, properties. split; [|split; [|split]].
        -- destruct (getOptionsKey_run options s1) as (k2 & _ & Hk2).
           unfold signature in Hk, Hk2. rewrite Hk2. rewrite <- Hk.
           symmetry. rewrite <- Hk2. apply signature_arrays.
           subst s1. by rewrite getEntry_arrays.
        -- rewrite <- Hprops. fold s2. rewrite (current_entry_valid s T Hr).
           erewrite (entry_of_metadata_classes s _ T); [done|exact Hcl2].
        -- unfold built_mapper. simpl.
           by destruct (MapperFactory.partition_properties properties [] []).
        -- done.
      * intros Hm. apply (compiled_from_classes s); [done|]. by apply Hc.
Qed.

Lemma valid_state_same s s' :
  classes s' = classes s → registry s' = registry s →
  compiledMappers s' = compiledMappers s → pathCache s' = pathCache s →
  valid_state s → valid_state s'.
Proof.
  intros Hcl Hreg Hcm Hpc (Hok & Hr & Hc). split; [|split].
  - intros path segments. rewrite Hpc. apply Hok.
  - intros T entry. rewrite Hreg, (entry_of_metadata_classes s s' T Hcl). apply Hr.
  - intros T k m. unfold cached. rewrite Hcm. intros H.
    apply (compiled_from_classes s); [done|]. by apply Hc.
Qed.

Lemma map_valid src T options s :
  valid_state s → valid_state (snd (Mapper.map src T options s)).
Proof.
  intros Hv. unfold Mapper.map. destruct (is_nullish src); [done|].
  pose proof (createMapper_valid T options s Hv) as Hv1.
  destruct (createMapper_returns T options s) as [mapper Hm].
  destruct (MapperFactory.createMapper T options s) as [rm s1] eqn:Hrun.
  simpl in *. subst rm. rewrite (bind_Ok _ _ _ _ _ Hrun).
  rewrite (bind_Ok _ _ s1 _ s1) by done.
  by apply invoke_valid.
Qed.

Lemma run_valid c s : valid_state s → valid_state (run c s).
Proof.
  intros Hv. destruct c; simpl; try by apply map_valid.
  - unfold Mapper.mapArray. case_match; [done|].
    pose proof (createMapper_valid T options s Hv) as Hv1.
    destruct (createMapper_returns T options s) as [mapper Hm].
    destruct (MapperFactory.createMapper T options s) as [rm s1] eqn:Hrun.
    simpl in *. subst rm. rewrite (bind_Ok _ _ _ _ _ Hrun).
    rewrite (bind_Ok _ _ s1 _ s1) by done.
    unfold bind at 1.
    pose proof (map_elements_valid mapper (map_context (globalContext s1) options)
                  (array_elements sources) s1 Hv1) as Hv2.
    by destruct (Mapper.map_elements _ _ _ s1) as [[rs|e] s2].
  - pose proof (createMapper_valid T options s Hv) as Hv1.
    destruct (createMapper_returns T options s) as [mapper Hm].
    unfold Mapper.createMapper.
    destruct (MapperFactory.createMapper T options s) as [rm s1] eqn:Hrun.
    simpl in *. subst rm. rewrite (bind_Ok _ _ _ _ _ Hrun).
    by apply (valid_state_same s1).
  - by apply (valid_state_same s).
  - destruct Hv as (Hok & Hr & Hc). split; [done|]. split; [|done].
    intros T entry. simpl. by rewrite lookup_empty.
  - destruct (getOptionsKey_frame options s) as (Hcl & Hreg & Hcm & Hpc & _).
    destruct (Mapper_getCompiledMapper_run T options s) as (k & _ & ->).
    by apply (valid_state_same s).
  - by apply invoke_valid.
  - by apply invoke_valid.
  - by apply (valid_state_same s).
Qed.

(** Every state a program reaches from a valid one is valid; the state
    before the first call is. *)
Lemma steps_valid s s' : steps s s' → valid_state s → valid_state s'.
Proof.
  induction 1 as [s|s1 s2 s3 [c ->] _ IH]; [done|].
  intros Hv. by apply IH, run_valid.
Qed.

(** ** What a compiled mapper assigns *)

Lemma partition_properties_spec properties pms tms :
  MapperFactory.partition_properties properties pms tms =
    (pms ++ omap as_path properties, tms ++ omap as_transform properties).
Proof.
  revert pms tms. induction properties as [|prop rest IH]; intros pms tms; simpl.
  - by rewrite !app_nil_r.
  - unfold as_path, as_transform.
    destruct (isTransform prop), (source prop); rewrite IH; simpl;
      by rewrite <- ?app_assoc.
Qed.

Lemma assigned_keys_built s T properties k :
  k ∈ assigned_keys (built_mapper s T properties) ↔ k ∈ targetKey <$> properties.
Proof.
  unfold assigned_keys, built_mapper. simpl.
  rewrite partition_properties_spec. simpl.
  induction properties as [|prop rest IH]; simpl; [done|].
  unfold as_path at 1, as_transform at 1 2.
  rewrite elem_of_cons, <- IH.
  destruct (isTransform prop), (source prop); simpl;
    rewrite ?elem_of_app, ?elem_of_cons, ?elem_of_app; tauto.
Qed.

Lemma keys_set_prop k k0 v props :
  k ∈ keys (set_prop k0 v props) ↔ k = k0 ∨ k ∈ keys props.
Proof.
  unfold keys. induction props as [|[k' v'] rest IH]; simpl.
  - rewrite list_elem_of_singleton, elem_of_nil. tauto.
  - destruct (String.eqb_spec k0 k') as [->|Hne]; simpl.
    + rewrite !elem_of_cons. tauto.
    + rewrite !elem_of_cons, IH. tauto.
Qed.

Lemma apply_pathMappings_keys mappings src result s r s' :
  apply_pathMappings mappings src result s = (Ok r, s') →
  ∀ k, k ∈ keys r ↔ k ∈ keys result ∨ k ∈ pm_target <$> mappings.
Proof.
  revert result s. induction mappings as [|mapping rest IH]; intros result s; simpl.
  - intros [= <- <-] k. rewrite elem_of_nil. tauto.
  - unfold bind at 1. simpl. unfold bind at 1.
    destruct (resolve_source src (pm_source mapping) _) as [[v|e] s1]; [|done].
    intros H k. rewrite (IH _ _ H k), keys_set_prop, elem_of_cons. tauto.
Qed.

Lemma apply_transformMappings_keys mappings src context result s r s' :
  apply_transformMappings mappings src context result s = (Ok r, s') →
  ∀ k, k ∈ keys r ↔ k ∈ keys result ∨ k ∈ tm_target <$> mappings.
Proof.
  revert result s. induction mappings as [|mapping rest IH]; intros result s; simpl.
  - intros [= <- <-] k. rewrite elem_of_nil. tauto.
  - unfold bind at 1. simpl. unfold bind at 1. unfold lift at 1.
    destruct (tm_transform mapping src context) as [v|e]; [|done].
    intros H k. rewrite (IH _ _ H k), keys_set_prop, elem_of_cons. tauto.
Qed.

(** On a source that is not [null], the result is the fresh instance with
    the mapper's target keys assigned. *)
Lemma invoke_keys mapper src context s v s' :
  is_nullish src = false →
  invoke mapper src context s = (Ok v, s') →
  ∃ r, v = VObj r ∧
       ∀ k, k ∈ keys r ↔
            k ∈ keys (instance_fields (classes s (captured_targetType mapper)))
            ∨ k ∈ assigned_keys mapper.
Proof.
  intros Hsrc. unfold invoke. rewrite Hsrc.
  unfold bind at 1. simpl. unfold bind at 1.
  destruct (apply_pathMappings _ _ _ _) as [[r1|e] s1] eqn:H1; [|done].
  unfold bind at 1.
  destruct (apply_transformMappings _ _ _ _ _) as [[r2|e] s2] eqn:H2; [|done].
  intros [= <- <-]. exists r2. split; [done|]. intros k.
  rewrite (apply_transformMappings_keys _ _ _ _ _ _ _ H2 k).
  rewrite (apply_pathMappings_keys _ _ _ _ _ _ H1 k).
  unfold assigned_keys. rewrite elem_of_app. tauto.
Qed.

(** ** When a compiled mapper returns *)

Lemma walk_segments_returns segments current :
  ∃ v, walk_segments segments current = Ok v.
Proof.
  revert current. induction segments as [|seg rest IH]; intros current; simpl;
    [by eexists|].
  destruct (BLOCKED_KEYS_has seg); [by eexists|].
  destruct (is_nullish current) eqn:Hnull; simpl; [by eexists|].
  destruct (typeof_object current); simpl; [|by eexists].
  destruct (get_prop_object current seg Hnull) as [r ->]. apply IH.
Qed.

Lemma getNestedValue_returns obj path s :
  ∃ v s', getNestedValue obj path s = (Ok v, s').
Proof.
  unfold getNestedValue.
  destruct (is_nullish obj) eqn:Hnull; [by do 2 eexists|].
  destruct (includes_dot path); simpl.
  - unfold bind at 1.
    destruct (cached_segments path _) as [[segments|e] s1] eqn:Hc.
    + destruct (walk_segments_returns segments obj) as [v Hv].
      unfold lift. rewrite Hv. by do 2 eexists.
    + unfold cached_segments, bind, get, modify, ret in Hc. simpl in Hc.
      by destruct (pathCache s !! path).
  - destruct (BLOCKED_KEYS_has path); [by do 2 eexists|].
    destruct (get_prop_object obj path Hnull) as [r Hr].
    unfold lift. rewrite Hr. by do 2 eexists.
Qed.

Lemma apply_pathMappings_returns mappings src result s :
  (∀ mapping, mapping ∈ mappings → ∃ path, pm_source mapping = SourcePath path) →
  ∃ r s', apply_pathMappings mappings src result s = (Ok r, s').
Proof.
  revert result s. induction mappings as [|mapping rest IH]; intros result s H; simpl.
  - by do 2 eexists.
  - destruct (H mapping) as [path Hpath]; [apply list_elem_of_here|].
    unfold bind at 1. simpl. rewrite Hpath. simpl.
    destruct (getNestedValue_returns src path (log (EvPathLookup (pm_target mapping)) s))
      as (v & s1 & Hv).
    rewrite (bind_Ok _ _ _ _ _ Hv). apply IH.
    intros m Hm. apply H. by apply list_elem_of_further.
Qed.

Lemma apply_transformMappings_returns mappings src context result s :
  (∀ mapping, mapping ∈ mappings → ∃ v, tm_transform mapping src context = Ok v) →
  ∃ r s', apply_transformMappings mappings src context result s = (Ok r, s').
Proof.
  revert result s. induction mappings as [|mapping rest IH]; intros result s H; simpl.
  - by do 2 eexists.
  - destruct (H mapping) as [v Hv]; [apply list_elem_of_here|].
    unfold bind at 1. simpl. unfold bind at 1. unfold lift at 1. rewrite Hv.
    apply IH. intros m Hm. apply H. by apply list_elem_of_further.
Qed.

Lemma invoke_returns mapper src context s :
  (∀ mapping, mapping ∈ pathMappings mapper →
              ∃ path, pm_source mapping = SourcePath path) →
  (∀ mapping, mapping ∈ transformMappings mapper →
              ∃ v, tm_transform mapping src context = Ok v) →
  ∃ v s', invoke mapper src context s = (Ok v, s').
Proof.
  intros Hp Ht. unfold invoke. destruct (is_nullish src); [by do 2 eexists|].
  unfold bind at 1. simpl.
  destruct (apply_pathMappings_returns (pathMappings mapper) src
              (instance_fields (classes s (captured_targetType mapper)))
              (log (EvConstruct (captured_targetType mapper)) s) Hp)
    as (r1 & s1 & H1).
  rewrite (bind_Ok _ _ _ _ _ H1).
  destruct (apply_transformMappings_returns (transformMappings mapper) src context
              r1 s1 Ht) as (r2 & s2 & H2).
  rewrite (bind_Ok _ _ _ _ _ H2). by do 2 eexists.
Qed.

(** A mapper built from properties whose locators return, returns. *)
Lemma built_mapper_returns s0 T properties src context s :
  (∀ prop, prop ∈ properties → locator_returns prop src context) →
  ∃ v s', invoke (built_mapper s0 T properties) src context s = (Ok v, s').
Proof.
  intros H. apply invoke_returns; unfold built_mapper; simpl;
    rewrite partition_properties_spec; simpl.
  - intros mapping (prop & Hprop & Hin)%list_elem_of_omap.
    specialize (H prop Hprop). unfold locator_returns in H.
    unfold as_path, as_transform in Hin.
    destruct (source prop) as [path|fn] eqn:Hs.
    + destruct (isTransform prop); simplify_eq/=; eauto.
    + destruct H as [Ht _]. by rewrite Ht in Hin.
  - intros mapping (prop & Hprop & Hin)%list_elem_of_omap.
    specialize (H prop Hprop). unfold locator_returns in H.
    unfold as_transform in Hin.
    destruct (isTransform prop), (source prop) as [path|fn]; simplify_eq/=.
    by destruct H as [_ H].
Qed.

(** ** Which declarations a projection keeps *)

Lemma getPropertiesToMap_unknown_group entry o name s :
  MapOptions.group o = Some name →
  truthy_string name = true →
  fieldGroups entry !! name = None →
  fst (MapperFactory.getPropertiesToMap entry (Some o) s) = Ok [].
Proof.
  intros Ho Ht Hg. unfold MapperFactory.getPropertiesToMap, MapperFactory.truthy_group.
  by rewrite Ho, Ht, Hg.
Qed.

Lemma getPropertiesToMap_pick entry l s :
  arrays s !!! l ≠ [] →
  ∃ properties,
    fst (MapperFactory.getPropertiesToMap entry (pick_options l) s) = Ok properties ∧
    ∀ config,
      config ∈ properties ↔
      (config ∈ (propertyConfigs entry).*2 ∧ ignore config = false)
      ∧ targetKey config ∈ arrays s !!! l.
Proof.
  intros Hne. unfold MapperFactory.getPropertiesToMap. simpl.
  unfold bind, Array_read, get, ret. simpl.
  rewrite bool_decide_true by (destruct (arrays s !!! l); [done|simpl; lia]).
  eexists. split; [done|]. intros config.
  rewrite !list_elem_of_filter, elem_of_list_to_set. tauto.
Qed.

Lemma getPropertiesToMap_omit entry l s :
  ∃ properties,
    fst (MapperFactory.getPropertiesToMap entry (omit_options l) s) = Ok properties ∧
    ∀ config,
      config ∈ properties ↔
      (config ∈ (propertyConfigs entry).*2 ∧ ignore config = false)
      ∧ targetKey config ∉ arrays s !!! l.
Proof.
  unfold MapperFactory.getPropertiesToMap. simpl.
  unfold bind, Array_read, get, ret. simpl.
  case_bool_decide as Hlen; simpl.
  - eexists. split; [done|]. intros config.
    rewrite !list_elem_of_filter, elem_of_list_to_set. tauto.
  - eexists. split; [done|]. intros config. rewrite list_elem_of_filter.
    destruct (arrays s !!! l); [|simpl in Hlen; lia].
    rewrite elem_of_nil. tauto.
Qed.

(** Only options that name the group, and carry no field list, derive the
    signature of a group. *)
Lemma signature_group_inv options s name :
  signature options s = Ok ("group:" +:+ name) →
  ∃ o, options = Some o ∧ MapOptions.pick o = None ∧ MapOptions.omit o = None ∧
       MapOptions.group o = Some name ∧ truthy_string name = true.
Proof.
  unfold signature.
  destruct options as [[[l|] [l'|] [g|] e]|]; simpl; try done.
  destruct (truthy_string g) eqn:Ht; simpl; [|done].
  intros [= Hg]. change (g = name) in Hg. subst g. eexists. by repeat split.
Qed.

Lemma invoke_no_mappings mapper src context s :
  is_nullish src = false →
  pathMappings mapper = [] → transformMappings mapper = [] →
  invoke mapper src context s =
    (Ok (VObj (instance_fields (classes s (captured_targetType mapper)))),
     log (EvConstruct (captured_targetType mapper)) s).
Proof. intros Hsrc Hp Ht. unfold invoke. by rewrite Hsrc, Hp, Ht. Qed.

(** [extras], [depth] and [visited] are all the global context can carry,
    and each is overridden. *)
Lemma map_context_global g g' options :
  map_context g options = map_context g' options.
Proof. done. Qed.

Lemma map_run src T options s mapper s1 :
  is_nullish src = false →
  MapperFactory.createMapper T options s = (Ok mapper, s1) →
  Mapper.map src T options s =
    invoke mapper src (Some (map_context (globalContext s1) options)) s1.
Proof.
  intros Hsrc Hrun. unfold Mapper.map. rewrite Hsrc.
  rewrite (bind_Ok _ _ _ _ _ Hrun).
  by rewrite (bind_Ok _ _ s1 (map_context (globalContext s1) options) s1).
Qed.

(** ** Projections compiled on a cache miss *)

(** The keys a projection assigns when it is compiled now: [P] says which
    target keys the options keep. *)
Lemma projection_keys s T options src (P : string → Prop) key properties :
  valid_state s →
  none_ignored s T →
  is_nullish src = false →
  signature options s = Ok key →
  cached s T key = None →
  fst (MapperFactory.getPropertiesToMap (entry_of_metadata s T) options
         (snd (MappingRegistry.getOptionsKey options
                 (snd (MappingRegistry.getEntry T s))))) = Ok properties →
  (∀ config, config ∈ properties ↔
             (config ∈ declarations s T ∧ ignore config = false)
             ∧ P (targetKey config)) →
  (∃ mapper,
     fst (MapperFactory.createMapper T options s) = Ok mapper ∧
     ∀ k, k ∈ assigned_keys mapper ↔ k ∈ declaredKeys s T ∧ P k)
  ∧ (∀ v, fst (Mapper.map src T options s) = Ok v →
       ∃ r, v = VObj r ∧
            ∀ k, k ∈ keys r ↔
                 k ∈ keys (instance_fields (classes s T))
                 ∨ (k ∈ declaredKeys s T ∧ P k))
  ∧ ((∀ config, config ∈ declarations s T → P (targetKey config) →
                locator_returns config src
                  (Some (map_context (globalContext s) options))) →
     ∃ v, fst (Mapper.map src T options s) = Ok v).
Proof.
  intros (Hok & Hr & Hc) Hign Hsrc Hsig Hmiss Hprops Hin.
  destruct (createMapper_run T options s) as (k & Hk & H).
  rewrite Hsig in Hk. injection Hk as <-. rewrite Hmiss in H.
  destruct H as (properties' & Hprops' & Hrun).
  rewrite (current_entry_valid s T Hr), Hprops in Hprops'.
  injection Hprops' as <-.
  assert (∀ k, k ∈ assigned_keys (built_mapper s T properties) ↔
               k ∈ declaredKeys s T ∧ P k) as Hkeys.
  { intros k. rewrite assigned_keys_built. unfold declaredKeys.
    rewrite !list_elem_of_fmap. split.
    - intros (config & -> & Hc'). apply Hin in Hc' as [[Hd _] HP]. eauto.
    - intros [(config & -> & Hd) HP]. exists config. split; [done|].
      apply Hin. auto. }
  pose proof (createMapper_classes T options s) as Hcl. unfold keeps in Hcl.
  rewrite Hrun in Hcl. simpl in Hcl.
  split; [|split].
  - eexists. rewrite Hrun. split; [done|]. apply Hkeys.
  - intros v. rewrite (map_run src T options s _ _ Hsrc Hrun).
    destruct (invoke _ _ _ _) as [rv s'] eqn:Hinv. simpl. intros ->.
    destruct (invoke_keys _ _ _ _ _ _ Hsrc Hinv) as (r & -> & Hr').
    exists r. split; [done|]. intros k. rewrite Hr'. simpl.
    rewrite Hkeys. by rewrite Hcl.
  - intros Hloc. rewrite (map_run src T options s _ _ Hsrc Hrun).
    rewrite (map_context_global _ (globalContext s)).
    edestruct (built_mapper_returns s T properties src
                 (Some (map_context (globalContext s) options))) as (v & s' & ->).
    + intros prop Hprop. apply Hin in Hprop as [[Hd _] HP]. by apply Hloc.
    + by eexists.
Qed.

Lemma signature_state_arrays T options s l :
  signature_array options = Some l →
  arrays (snd (MappingRegistry.getOptionsKey options
                 (snd (MappingRegistry.getEntry T s)))) !!! l
    = sort (arrays s !!! l).
Proof.
  intros Hl. rewrite getOptionsKey_state, Hl. simpl.
  by rewrite lookup_total_insert_eq, getEntry_arrays.
Qed.

(** ** Reachable states *)

Lemma reachable_initial cls : reachable (initial_state cls).
Proof. by exists cls. Qed.

Lemma reachable_steps s s' : reachable s → steps s s' → reachable s'.
Proof. intros [cls Hs] Hs'. exists cls. by etrans. Qed.

Lemma reachable_run c s : reachable s → reachable (run c s).
Proof.
  intros Hs. apply (reachable_steps s); [done|]. apply rtc_once. by exists c.
Qed.

Lemma reachable_holding l xs s : reachable s → reachable (holding l xs s).
Proof. apply reachable_run. Qed.

(** The invariants hold in every reachable state. *)
Lemma reachable_valid s : reachable s → valid_state s.
Proof.
  intros [cls Hs]. apply (steps_valid _ _ Hs), valid_state_initial.
Qed.

Lemma reachable_pathCache_ok s : reachable s → pathCache_ok s.
Proof. intros Hs. by destruct (reachable_valid s Hs). Qed.

(** ** Function identities *)

Lemma ids_fresh_initial cls : ids_fresh (initial_state cls).
Proof. intros T k m. unfold cached. simpl. by rewrite lookup_empty. Qed.

Lemma ids_fresh_same s s' :
  compiledMappers s' = compiledMappers s → next_fn_id s ≤ next_fn_id s' →
  ids_fresh s → ids_fresh s'.
Proof.
  intros Hcm Hle Hf T k m. unfold cached. rewrite Hcm. intros Hm.
  specialize (Hf T k m Hm). lia.
Qed.

Lemma ids_fresh_frame s s' :
  same_but_pathCache_and_trace s s' → ids_fresh s → ids_fresh s'.
Proof.
  intros (_ & _ & Hcm & _ & _ & Hid). apply ids_fresh_same; [done|lia].
Qed.

Lemma createMapper_ids_fresh T options s :
  ids_fresh s → ids_fresh (snd (MapperFactory.createMapper T options s)).
Proof.
  intros Hf. destruct (createMapper_run T options s) as (k & Hk & H).
  set (s1 := snd (MappingRegistry.getEntry T s)) in *.
  set (s2 := snd (MappingRegistry.getOptionsKey options s1)) in *.
  assert (compiledMappers s2 = compiledMappers s ∧ next_fn_id s2 = next_fn_id s)
    as [Hcm Hid].
  { subst s2. destruct (getOptionsKey_frame options s1) as (_&_& -> &_&_& -> &_).
    subst s1. rewrite getEntry_run. by destruct (registry s !! T). }
  destruct (cached s T k) as [mapper|] eqn:Hhit.
  - rewrite H. simpl. apply (ids_fresh_same s); [done|lia|done].
  - destruct H as (properties & _ & ->). simpl.
    intros T' k' m. unfold cached at 1. simpl.
    rewrite Hcm, cached_insert, Hid. case_decide as Heq.
    + intros [= <-]. simpl. lia.
    + intros Hm. specialize (Hf T' k' m Hm). lia.
Qed.

Lemma map_ids_fresh src T options s :
  ids_fresh s → ids_fresh (snd (Mapper.map src T options s)).
Proof.
  intros Hf. unfold Mapper.map. destruct (is_nullish src); [done|].
  pose proof (createMapper_ids_fresh T options s Hf) as Hf1.
  destruct (createMapper_returns T options s) as [mapper Hm].
  destruct (MapperFactory.createMapper T options s) as [rm s1] eqn:Hrun.
  simpl in *. subst rm. rewrite (bind_Ok _ _ _ _ _ Hrun).
  rewrite (bind_Ok _ _ s1 _ s1) by done.
  apply (ids_fresh_frame s1); [apply invoke_frame|done].
Qed.

Lemma run_ids_fresh c s : ids_fresh s → ids_fresh (run c s).
Proof.
  intros Hf. destruct c; simpl; try by apply map_ids_fresh.
  - unfold Mapper.mapArray. case_match; [done|].
    pose proof (createMapper_ids_fresh T options s Hf) as Hf1.
    destruct (createMapper_returns T options s) as [mapper Hm].
    destruct (MapperFactory.createMapper T options s) as [rm s1] eqn:Hrun.
    simpl in *. subst rm. rewrite (bind_Ok _ _ _ _ _ Hrun).
    rewrite (bind_Ok _ _ s1 _ s1) by done.
    unfold bind at 1.
    pose proof (map_elements_frame mapper (map_context (globalContext s1) options)
                  (array_elements sources) s1) as Hframe.
    destruct (Mapper.map_elements _ _ _ s1) as [[rs|e] s2]; simpl in *;
      by apply (ids_fresh_frame s1).
  - pose proof (createMapper_ids_fresh T options s Hf) as Hf1.
    destruct (createMapper_returns T options s) as [mapper Hm].
    unfold Mapper.createMapper.
    destruct (MapperFactory.createMapper T options s) as [rm s1] eqn:Hrun.
    simpl in *. subst rm. rewrite (bind_Ok _ _ _ _ _ Hrun).
    apply (ids_fresh_same s1); [done|simpl; lia|done].
  - by apply (ids_fresh_same s).
  - by apply (ids_fresh_same s).
  - destruct (getOptionsKey_frame options s) as (_ & _ & Hcm & _ & _ & Hid & _).
    destruct (Mapper_getCompiledMapper_run T options s) as (k & _ & ->).
    apply (ids_fresh_same s); [done|simpl; lia|done].
  - apply (ids_fresh_frame s); [apply invoke_frame|done].
  - apply (ids_fresh_frame s); [apply invoke_frame|done].
  - by apply (ids_fresh_same s).
Qed.

Lemma steps_ids_fresh s s' : steps s s' → ids_fresh s → ids_fresh s'.
Proof.
  induction 1 as [s|s1 s2 s3 [c ->] _ IH]; [done|].
  intros Hf. by apply IH, run_ids_fresh.
Qed.

Lemma reachable_ids_fresh s : reachable s → ids_fresh s.
Proof. intros [cls Hs]. apply (steps_ids_fresh _ _ Hs), ids_fresh_initial. Qed.

(** On a cache miss the closure [createMapper] returns is a new function
    instance: it is none of the stored ones. *)
Lemma createMapper_miss_fresh T options s optionsKey T' optionsKey' mapper' :
  reachable s →
  signature options s = Ok optionsKey →
  cached s T optionsKey = None →
  cached s T' optionsKey' = Some mapper' →
  fst (MapperFactory.createMapper T options s) ≠ Ok mapper'.
Proof.
  intros Hf%reachable_ids_fresh Hsig Hmiss Hm'.
  destruct (createMapper_run T options s) as (k & Hk & H).
  rewrite Hsig in Hk. injection Hk as <-. rewrite Hmiss in H.
  destruct H as (properties & _ & ->). simpl. intros [= <-].
  specialize (Hf T' optionsKey' _ Hm'). simpl in Hf. lia.
Qed.

(** ** The scenarios of the specification, run *)

Example scenario_map :
  fst (Mapper.map userEntity UserDto None (initial_state program)) =
    Ok (VObj [("username", VStr "john_doe"); ("avatar", VStr "u");
              ("email", VStr "john@x.com"); ("isAdult", VBool true)]).
Proof. reflexivity. Qed.

Example scenario_group_minimal :
  fst (Mapper.group userEntity UserDto "minimal" (initial_state program)) =
    Ok (VObj [("username", VStr "john_doe"); ("avatar", VStr "u")]).
Proof. vm_compute. reflexivity. Qed.

Example scenario_mapArray :
  fst (Mapper.mapArray
         (VArr [userEntity; VNull;
                VObj [("username", VStr "jane"); ("email", VStr "john@x.com");
                      ("age", VNum 25); ("profile", VObj [("avatarUrl", VStr "u")])]])
         UserDto None (initial_state program)) =
    Ok (VArr [VObj [("username", VStr "john_doe"); ("avatar", VStr "u");
                    ("email", VStr "john@x.com"); ("isAdult", VBool true)];
              VNull;
              VObj [("username", VStr "jane"); ("avatar", VStr "u");
                    ("email", VStr "john@x.com"); ("isAdult", VBool true)]]).
Proof. vm_compute. reflexivity. Qed.

Example scenario_trace :
  trace (snd (Mapper.map userEntity UserDto None (initial_state program))) =
    [EvTransform "isAdult"; EvPathLookup "email"; EvPathLookup "avatar";
     EvPathLookup "username"; EvConstruct UserDto;
     EvGetMetadata FIELD_GROUPS UserDto; EvGetMetadata PROPERTY_MAPPINGS UserDto].
Proof. reflexivity. Qed.

Example scenario_distinct_mappers :
  let s := holding 2 ["email"] (holding 1 ["username"] (initial_state program)) in
  fst (MapperFactory.createMapper UserDto (pick_options 2)
         (snd (MapperFactory.createMapper UserDto (pick_options 1) s)))
  ≠ fst (MapperFactory.createMapper UserDto (pick_options 1) s).
Proof. vm_compute. intros [=]. Qed.

(* ================================================================== *)
(** * The properties of the specification *)
(* ================================================================== *)

(** C1 (cache identity). Two [createMapper] calls for the same target type
    whose options derive equal signatures return the same function
    instance, whatever the program calls in between; option-free calls
    derive equal signatures, and so do [pick] (or [omit]) options whose
    field lists are permutations of each other. *)
Theorem createMapper_cache_identity :
  (∀ T options1 options2 s s2,
     steps (snd (MapperFactory.createMapper T options1 s)) s2 →
     signature options1 s = signature options2 s2 →
     fst (MapperFactory.createMapper T options2 s2) =
     fst (MapperFactory.createMapper T options1 s))
  ∧ (∀ s s2, signature None s = signature None s2)
  ∧ (∀ l1 l2 om1 om2 g1 g2 e1 e2 s s2,
       arrays s !!! l1 ≡ₚ arrays s2 !!! l2 →
       signature (Some (MapOptions.Build_t (Some l1) om1 g1 e1)) s =
       signature (Some (MapOptions.Build_t (Some l2) om2 g2 e2)) s2)
  ∧ (∀ l1 l2 g1 g2 e1 e2 s s2,
       arrays s !!! l1 ≡ₚ arrays s2 !!! l2 →
       signature (Some (MapOptions.Build_t None (Some l1) g1 e1)) s =
       signature (Some (MapOptions.Build_t None (Some l2) g2 e2)) s2).
Proof.
  split; [|split; [done|split]].
  - intros T options1 options2 s s2 Hsteps Hsig.
    destruct (getOptionsKey_run options1 s) as (k & _ & Hk).
    pose proof (createMapper_cached T options1 s k Hk) as Hc.
    destruct (createMapper_returns T options1 s) as [mapper Hm].
    rewrite Hm in Hc |- *.
    destruct (cached _ T k) as [mapper'|] eqn:Hc'; simplify_eq/=.
    apply (createMapper_hit _ _ _ k); [congruence|].
    by apply (steps_cache_extends _ _ Hsteps).
  - intros. by apply signature_pick_permuted.
  - intros. by apply signature_omit_permuted.
Qed.

(** Two callers pick the same fields of [UserDto] in different orders, from
    arrays of their own, with other mappings in between. *)
Lemma createMapper_cache_identity_witness :
  let s := holding 2 ["avatar"; "email"]
             (holding 1 ["email"; "avatar"] (initial_state program)) in
  let between s1 :=
    run (CallMap userEntity UserDto None)
      (run (CallGroup userEntity UserDto "minimal") s1) in
  fst (MapperFactory.createMapper UserDto (pick_options 2)
         (between (snd (MapperFactory.createMapper UserDto (pick_options 1) s)))) =
  fst (MapperFactory.createMapper UserDto (pick_options 1) s).
Proof.
  intros s between.
  apply (proj1 createMapper_cache_identity).
  - eapply rtc_l; [by eexists|]. apply rtc_once. by eexists.
  - vm_compute. reflexivity.
Defined.

(** C2 (cache invalidation), evaluated on the code. [clearCache] empties
    the declaration registry but leaves every compiled mapper in place: in
    any state, [getCompiledMapper] returns after the clear what it returned
    before. For [UserDto], mapped once and then cleared, the mapper is still
    found under ["default"], and the next compile re-reads the metadata yet
    returns that same pre-clear function instance. *)
Theorem clearCache_keeps_compiled_mappers :
  (∀ s T optionsKey,
     registry (snd (Mapper.clearCache s)) = ∅ ∧
     fst (MappingRegistry.getCompiledMapper T optionsKey (snd (Mapper.clearCache s)))
       = fst (MappingRegistry.getCompiledMapper T optionsKey s))
  ∧ (let s1 := snd (Mapper.map userEntity UserDto None (initial_state program)) in
     let s2 := snd (Mapper.clearCache s1) in
     ∃ mapper,
       fst (MappingRegistry.getCompiledMapper UserDto "default" s1) = Ok (Some mapper)
       ∧ fst (MappingRegistry.getCompiledMapper UserDto "default" s2) = Ok (Some mapper)
       ∧ fst (MapperFactory.createMapper UserDto None s2) = Ok mapper
       ∧ trace (snd (MapperFactory.createMapper UserDto None s2)) =
           EvGetMetadata FIELD_GROUPS UserDto
             :: EvGetMetadata PROPERTY_MAPPINGS UserDto :: trace s2).
Proof.
  split; [done|].
  intros s1 s2. eexists. repeat split.
Qed.

(** C3 (precedence), evaluated on the code. Options that carry both a
    group and a pick list project by the group when compiled on an empty
    cache, but their signature is the pick list's. So the same call returns
    the pick projection once a pick-only call has filled the cache, and a
    pick-only call returns the group projection once the two-mode call
    has. *)
Theorem signature_ignores_group_precedence :
  let s := holding 1 ["email"] (initial_state program) in
  let pick_only := pick_options 1 in
  let group_and_pick :=
    Some (MapOptions.Build_t (Some 1%positive) None (Some "minimal") None) in
  fst (Mapper.map userEntity UserDto group_and_pick s)
    = Ok (VObj [("username", VStr "john_doe"); ("avatar", VStr "u")])
  ∧ fst (Mapper.map userEntity UserDto pick_only s)
    = Ok (VObj [("email", VStr "john@x.com")])
  ∧ signature group_and_pick s = Ok "pick:email"
  ∧ signature pick_only s = Ok "pick:email"
  ∧ fst (Mapper.map userEntity UserDto group_and_pick
           (snd (Mapper.map userEntity UserDto pick_only s)))
    = Ok (VObj [("email", VStr "john@x.com")])
  ∧ fst (Mapper.map userEntity UserDto pick_only
           (snd (Mapper.map userEntity UserDto group_and_pick s)))
    = Ok (VObj [("username", VStr "john_doe"); ("avatar", VStr "u")]).
Proof. vm_compute. repeat split. Qed.

(** C4 (pick/omit complementarity), as amended: the pick list is not
    empty, and the mapper is compiled by this call (nothing is cached under
    the signature yet). In a reachable state, for a shape none of whose
    declarations is ignored and a source that is not [null]: the keys the
    mapper compiled for [pick(F)] assigns are exactly those of [F] that are
    declared, and the keys of the result of [Mapper.pick] are those of the
    fresh instance together with them; for [omit(F)], the declared keys not
    in [F]. Requested fields that are not declared cause no error: the call
    returns whenever the locators of the kept declarations do. *)
Theorem pick_omit_complementarity s T l src :
  reachable s →
  none_ignored s T →
  is_nullish src = false →
  let F := arrays s !!! l in
  let inst := keys (instance_fields (classes s T)) in
  (∀ key, signature (pick_options l) s = Ok key → cached s T key = None →
          F ≠ [] →
     (∃ mapper,
        fst (MapperFactory.createMapper T (pick_options l) s) = Ok mapper ∧
        ∀ k, k ∈ assigned_keys mapper ↔ k ∈ declaredKeys s T ∧ k ∈ F)
     ∧ (∀ v, fst (Mapper.pick src T l s) = Ok v →
          ∃ r, v = VObj r ∧
               ∀ k, k ∈ keys r ↔ k ∈ inst ∨ (k ∈ declaredKeys s T ∧ k ∈ F))
     ∧ ((∀ config, config ∈ declarations s T → targetKey config ∈ F →
                   locator_returns config src
                     (Some (map_context (globalContext s) (pick_options l)))) →
        ∃ v, fst (Mapper.pick src T l s) = Ok v))
  ∧ (∀ key, signature (omit_options l) s = Ok key → cached s T key = None →
     (∃ mapper,
        fst (MapperFactory.createMapper T (omit_options l) s) = Ok mapper ∧
        ∀ k, k ∈ assigned_keys mapper ↔ k ∈ declaredKeys s T ∧ k ∉ F)
     ∧ (∀ v, fst (Mapper.omit src T l s) = Ok v →
          ∃ r, v = VObj r ∧
               ∀ k, k ∈ keys r ↔ k ∈ inst ∨ (k ∈ declaredKeys s T ∧ k ∉ F))
     ∧ ((∀ config, config ∈ declarations s T → targetKey config ∉ F →
                   locator_returns config src
                     (Some (map_context (globalContext s) (omit_options l)))) →
        ∃ v, fst (Mapper.omit src T l s) = Ok v)).
Proof.
  intros Hv%reachable_valid Hign Hsrc F inst. split.
  - intros key Hsig Hmiss HF.
    set (s2 := snd (MappingRegistry.getOptionsKey (pick_options l)
                      (snd (MappingRegistry.getEntry T s)))).
    assert (arrays s2 !!! l = sort F) as Harr
      by (by apply signature_state_arrays).
    destruct (getPropertiesToMap_pick (entry_of_metadata s T) l s2)
      as (properties & Hprops & Hin).
    { rewrite Harr. intros Hnil. by apply sort_nil_inv in Hnil. }
    apply (projection_keys s T (pick_options l) src (λ k, k ∈ F) key properties);
      try done.
    intros config. rewrite Hin, Harr, elem_of_sort. done.
  - intros key Hsig Hmiss.
    set (s2 := snd (MappingRegistry.getOptionsKey (omit_options l)
                      (snd (MappingRegistry.getEntry T s)))).
    assert (arrays s2 !!! l = sort F) as Harr
      by (by apply signature_state_arrays).
    destruct (getPropertiesToMap_omit (entry_of_metadata s T) l s2)
      as (properties & Hprops & Hin).
    apply (projection_keys s T (omit_options l) src (λ k, k ∉ F) key properties);
      try done.
    intros config. rewrite Hin, Harr, elem_of_sort. done.
Qed.

Lemma none_ignored_PlainDto s :
  classes s = program → none_ignored s PlainDto.
Proof.
  intros Hcl config. unfold declarations. rewrite Hcl. simpl.
  intros Hin. repeat (apply elem_of_cons in Hin as [->|Hin]); try done.
  by apply elem_of_nil in Hin.
Qed.

Lemma locators_return_PlainDto s src context config :
  classes s = program → config ∈ declarations s PlainDto →
  locator_returns config src context.
Proof.
  intros Hcl. unfold declarations. rewrite Hcl. simpl.
  intros Hin. repeat (apply elem_of_cons in Hin as [->|Hin]); try done.
  by apply elem_of_nil in Hin.
Qed.

(** A caller picks [b] and a key [PlainDto] does not declare; another
    omits them. *)
Lemma pick_omit_complementarity_witness :
  let s := holding 1 ["b"; "undeclared"] (initial_state program) in
  (∃ r, fst (Mapper.pick plainSource PlainDto 1%positive s) = Ok (VObj r) ∧
        ∀ k, k ∈ keys r ↔
             k ∈ keys (instance_fields (classes s PlainDto))
             ∨ (k ∈ declaredKeys s PlainDto ∧ k ∈ ["b"; "undeclared"]))
  ∧ (∃ r, fst (Mapper.omit plainSource PlainDto 1%positive s) = Ok (VObj r) ∧
        ∀ k, k ∈ keys r ↔
             k ∈ keys (instance_fields (classes s PlainDto))
             ∨ (k ∈ declaredKeys s PlainDto ∧ k ∉ ["b"; "undeclared"])).
Proof.
  intros s.
  destruct (pick_omit_complementarity s PlainDto 1%positive plainSource
              (reachable_holding _ _ _ (reachable_initial program))
              (none_ignored_PlainDto s eq_refl) eq_refl) as [Hpick Homit].
  split.
  - destruct (Hpick "pick:b,undeclared" eq_refl eq_refl ltac:(done))
      as (_ & Hkeys & Hret).
    specialize (Hret (λ config Hin _,
                        locators_return_PlainDto s _ _ config eq_refl Hin)).
    destruct Hret as [v Hv'].
    destruct (Hkeys v Hv') as (r & -> & Hr). by exists r.
  - destruct (Homit "omit:b,undeclared" eq_refl eq_refl) as (_ & Hkeys & Hret).
    specialize (Hret (λ config Hin _,
                        locators_return_PlainDto s _ _ config eq_refl Hin)).
    destruct Hret as [v Hv'].
    destruct (Hkeys v Hv') as (r & -> & Hr). by exists r.
Defined.

(** With an empty pick list every declaration is mapped: the result of
    [pick([])] on [PlainDto], compiled on an empty cache, has both declared
    keys, not none. *)
Lemma pick_nothing_maps_every_field :
  ∃ r,
    arrays (holding 1 [] (initial_state program)) !!! 1%positive = []
    ∧ fst (Mapper.pick plainSource PlainDto 1%positive
             (holding 1 [] (initial_state program))) = Ok (VObj r)
    ∧ keys r = ["a"; "b"]
    ∧ ¬ (∀ k, k ∈ keys r ↔
              k ∈ declaredKeys (holding 1 [] (initial_state program)) PlainDto
              ∧ k ∈ arrays (holding 1 [] (initial_state program)) !!! 1%positive).
Proof.
  eexists. split; [reflexivity|]. split; [vm_compute; reflexivity|].
  split; [reflexivity|].
  intros H. destruct (H "a") as [Ha _].
  destruct Ha as [_ Ha]; [apply list_elem_of_here|].
  by apply elem_of_nil in Ha.
Qed.

(** Why the amended statement asks for a cache miss: field lists are joined
    with commas, so the one-element list [["a,b"]] and the list [["a"; "b"]]
    derive the same signature, and the second call is served the mapper
    compiled for the first, which assigns nothing. *)
Lemma pick_signature_collision :
  let s := holding 2 ["a"; "b"] (holding 1 ["a,b"] (initial_state program)) in
  signature (pick_options 1) s = Ok "pick:a,b"
  ∧ signature (pick_options 2) s = Ok "pick:a,b"
  ∧ fst (Mapper.pick plainSource PlainDto 2%positive s)
    = Ok (VObj [("a", VNum 1); ("b", VNum 2)])
  ∧ fst (Mapper.pick plainSource PlainDto 2%positive
           (snd (Mapper.pick plainSource PlainDto 1%positive s)))
    = Ok (VObj []).
Proof. vm_compute. repeat split. Qed.

(** C5 (prototype-pollution guard). In a reachable state, whatever the
    object, and for every path one of whose dot-separated segments is
    [__proto__], [constructor] or [prototype] (the path itself, when it has
    no dot), [getNestedValue] returns [undefined] and does not throw; the
    only state it may touch is its memo of split paths. *)
Theorem getNestedValue_blocked_segment s obj path :
  reachable s →
  (∃ seg, seg ∈ split_dot path ∧ seg ∈ BLOCKED_KEYS) →
  ∃ s', getNestedValue obj path s = (Ok VUndefined, s') ∧ same_but_pathCache s s'.
Proof.
  intros Hok%reachable_pathCache_ok Hblocked. unfold getNestedValue.
  destruct (is_nullish obj); [by eexists|].
  destruct (includes_dot path) eqn:Hdot; simpl.
  - destruct (cached_segments_spec s path) as (s' & Hrun & Hframe & Hok'); [done|].
    rewrite (bind_Ok _ _ _ _ _ Hrun). unfold lift.
    rewrite walk_segments_blocked by done. by exists s'.
  - rewrite (split_dot_no_dot _ Hdot) in Hblocked.
    destruct Hblocked as (seg & ->%list_elem_of_singleton & Hb).
    rewrite (BLOCKED_KEYS_has_true _ Hb). by eexists.
Qed.

(** The two paths of the specification, after a first mapping has filled
    the path cache. *)
Lemma getNestedValue_blocked_segment_witness :
  let s := run (CallMap userEntity UserDto None) (initial_state program) in
  (∃ s', getNestedValue userEntity "__proto__.polluted" s = (Ok VUndefined, s') ∧
         same_but_pathCache s s')
  ∧ (∃ s', getNestedValue userEntity "constructor" s = (Ok VUndefined, s') ∧
           same_but_pathCache s s').
Proof.
  intros s.
  split; apply getNestedValue_blocked_segment;
    try apply reachable_run, reachable_initial.
  - exists "__proto__". split; [apply list_elem_of_here|].
    apply (bool_decide_unpack _). vm_compute. exact I.
  - exists "constructor". split; [apply list_elem_of_here|].
    apply (bool_decide_unpack _). vm_compute. exact I.
Defined.

(** C6 (array mapping). On an input that is not an array ([null]
    included) [mapArray] returns the empty array and touches nothing. On an
    array, in a reachable state, it compiles once and collects, in index
    order, [null] for each [null]/[undefined] element and the compiled
    mapper's result for each other element: when it returns, the output
    has the length of the input and element [i] is the mapper applied to
    element [i]; it returns whenever the mapper returns on every element (a
    transform that throws makes [mapArray] throw). *)
Theorem mapArray_elementwise sources T options s :
  reachable s →
  (isArray sources = false →
   Mapper.mapArray sources T options s = (Ok (VArr []), s))
  ∧ (∀ elems, sources = VArr elems →
     ∃ mapper s1,
       MapperFactory.createMapper T options s = (Ok mapper, s1) ∧
       let context := map_context (globalContext s1) options in
       let each := λ x,
         if is_nullish x then Ok VNull
         else fst (invoke mapper x (Some context) s1) in
       fst (Mapper.mapArray sources T options s)
         = Result_map VArr (traverse each elems)
       ∧ (∀ out, fst (Mapper.mapArray sources T options s) = Ok out →
            ∃ results, out = VArr results ∧ length results = length elems ∧
              ∀ i x, elems !! i = Some x →
                     ∃ r, results !! i = Some r ∧ each x = Ok r)
       ∧ ((∀ x, x ∈ elems → ∃ r, each x = Ok r) →
            ∃ results, fst (Mapper.mapArray sources T options s) = Ok (VArr results))).
Proof.
  intros Hok%reachable_pathCache_ok. split.
  { intros Harr. unfold Mapper.mapArray. rewrite Harr.
    by rewrite orb_true_r. }
  intros elems ->.
  destruct (createMapper_returns T options s) as [mapper Hm].
  pose proof (createMapper_pathCache_ok T options s Hok) as Hok1.
  destruct (MapperFactory.createMapper T options s) as [rm s1] eqn:Hrun.
  simpl in Hm, Hok1. subst rm. exists mapper, s1. split; [done|].
  intros context each.
  assert (fst (Mapper.mapArray (VArr elems) T options s)
          = Result_map VArr (traverse each elems)) as Hres.
  { unfold Mapper.mapArray. simpl.
    rewrite (bind_Ok _ _ _ _ _ Hrun).
    rewrite (bind_Ok _ _ s1 context s1) by done.
    unfold bind at 1. unfold each.
    rewrite <- (map_elements_result mapper context elems s1 s1) by done.
    by destruct (Mapper.map_elements mapper context elems s1) as [[rs|e] s']. }
  split; [done|]. rewrite Hres. split.
  - intros out Hout.
    destruct (traverse each elems) as [results|e] eqn:Htr; simplify_eq/=.
    exists results. split; [done|]. by apply traverse_Ok.
  - intros Hall. destruct (traverse_total each elems Hall) as [results ->].
    by exists results.
Qed.

(** The scenario of the specification: the second element is [null]. *)
Lemma mapArray_elementwise_witness :
  Mapper.mapArray VNull UserDto None (initial_state program)
    = (Ok (VArr []), initial_state program)
  ∧ ∃ results,
      fst (Mapper.mapArray (VArr [userEntity; VNull; userEntity]) UserDto None
             (initial_state program)) = Ok (VArr results)
      ∧ length results = 3
      ∧ results !! 1 = Some VNull.
Proof.
  destruct (mapArray_elementwise VNull UserDto None (initial_state program)
              (reachable_initial program)) as [Hnull _].
  destruct (mapArray_elementwise (VArr [userEntity; VNull; userEntity]) UserDto None
              (initial_state program) (reachable_initial program)) as [_ Harr].
  split; [by apply Hnull|].
  destruct (Harr _ eq_refl) as (mapper & s1 & Hrun & _ & Hout & Htotal).
  destruct Htotal as [results Hres].
  { injection Hrun as <- <-. intros x Hx.
    repeat (apply elem_of_cons in Hx as [->|Hx]); [| |  |by apply elem_of_nil in Hx];
      vm_compute; eauto. }
  exists results. split; [done|].
  destruct (Hout _ Hres) as (results' & [= <-] & Hlen & Hnth).
  split; [done|].
  destruct (Hnth 1 VNull eq_refl) as (r & Hr & [= <-]). done.
Defined.

(** C7 (null propagation). Compilation always yields a mapper, and calling
    it on [null] or [undefined] returns [null] without throwing and leaves
    the state as it was: nothing is constructed, no path is looked up, no
    transform is called. [Mapper.map] on such a source returns [null]
    before it compiles anything. *)
Theorem null_propagation T options s src :
  is_nullish src = true →
  (∃ mapper,
     fst (MapperFactory.createMapper T options s) = Ok mapper ∧
     ∀ context s', invoke mapper src context s' = (Ok VNull, s'))
  ∧ Mapper.map src T options s = (Ok VNull, s).
Proof.
  intros Hnull. split.
  - destruct (createMapper_returns T options s) as [mapper Hm].
    exists mapper. split; [done|]. intros context s'.
    unfold invoke. by rewrite Hnull.
  - unfold Mapper.map. by rewrite Hnull.
Qed.

Lemma null_propagation_witness :
  (∃ mapper,
     fst (MapperFactory.createMapper UserDto (group_options "minimal")
            (initial_state program)) = Ok mapper ∧
     ∀ context s', invoke mapper VUndefined context s' = (Ok VNull, s'))
  ∧ Mapper.map VUndefined UserDto (group_options "minimal") (initial_state program)
    = (Ok VNull, initial_state program).
Proof. apply null_propagation. reflexivity. Defined.

(** C8 (unknown group), as amended: the group name is not empty. In every
    reachable state, for a non-empty group name the group index of the
    shape does not hold, the projection resolves no declaration; the
    compiled mapper [createMapper] returns (built now or cached earlier)
    assigns no key, and on a source that is not [null] it returns the
    freshly constructed instance as it is, without throwing. *)
Theorem unknown_group_maps_nothing s T name :
  reachable s →
  truthy_string name = true →
  fieldGroups (entry_of_metadata s T) !! name = None →
  fst (MapperFactory.getPropertiesToMap (entry_of_metadata s T)
         (group_options name) s) = Ok []
  ∧ ∃ mapper,
      fst (MapperFactory.createMapper T (group_options name) s) = Ok mapper
      ∧ assigned_keys mapper = []
      ∧ (∀ src context sx, is_nullish src = false →
           invoke mapper src context sx =
             (Ok (VObj (instance_fields (classes sx T))), log (EvConstruct T) sx))
      ∧ (∀ src, is_nullish src = false →
           fst (Mapper.group src T name s)
             = Ok (VObj (instance_fields (classes s T)))).
Proof.
  intros (Hok & Hr & Hc)%reachable_valid Ht Hg.
  split; [by apply (getPropertiesToMap_unknown_group _ _ name)|].
  assert (signature (group_options name) s = Ok ("group:" +:+ name)) as Hsig.
  { unfold signature. simpl. by rewrite Ht. }
  destruct (createMapper_run T (group_options name) s) as (k & Hk & H).
  rewrite Hsig in Hk. injection Hk as <-.
  assert (∃ mapper s1,
            MapperFactory.createMapper T (group_options name) s = (Ok mapper, s1)
            ∧ pathMappings mapper = [] ∧ transformMappings mapper = []
            ∧ captured_targetType mapper = T) as (mapper & s1 & Hrun & Hp & Htm & HT).
  { destruct (cached s T ("group:" +:+ name)) as [mapper|] eqn:Hhit.
    - exists mapper. eexists. split; [done|].
      destruct (Hc _ _ _ Hhit) as (options & s0 & props & Hsig0 & Hprops & Hpart & HT).
      destruct (signature_group_inv options s0 name Hsig0)
        as (o & -> & _ & _ & Hgroup & _).
      rewrite (getPropertiesToMap_unknown_group _ o name _ Hgroup Ht Hg) in Hprops.
      injection Hprops as <-. simpl in Hpart. by injection Hpart as <- <-.
    - destruct H as (props & Hprops & Hrun).
      rewrite (current_entry_valid s T Hr) in Hprops.
      unfold group_options in Hprops.
      rewrite (getPropertiesToMap_unknown_group _
                 (MapOptions.Build_t None None (Some name) None) name _ eq_refl Ht Hg)
        in Hprops.
      injection Hprops as <-. do 2 eexists. split; [done|]. done. }
  exists mapper. rewrite Hrun. split; [done|]. split; [|split].
  - unfold assigned_keys. by rewrite Hp, Htm.
  - intros src context sx Hsrc.
    rewrite (invoke_no_mappings mapper src context sx Hsrc Hp Htm). by rewrite HT.
  - intros src Hsrc.
    change (Mapper.group src T name s) with (Mapper.map src T (group_options name) s).
    rewrite (map_run src T _ s mapper s1 Hsrc Hrun).
    rewrite (invoke_no_mappings mapper src _ s1 Hsrc Hp Htm). simpl.
    pose proof (createMapper_classes T (group_options name) s) as Hcl.
    unfold keeps in Hcl. rewrite Hrun in Hcl. simpl in Hcl.
    by rewrite HT, Hcl.
Qed.

(** The scenario of the specification, after the known groups have been
    mapped. *)
Lemma unknown_group_maps_nothing_witness :
  let s := run (CallGroup userEntity UserDto "full")
             (run (CallGroup userEntity UserDto "minimal") (initial_state program)) in
  ∃ mapper,
    fst (MapperFactory.createMapper UserDto (group_options "nonexistent") s) = Ok mapper
    ∧ assigned_keys mapper = []
    ∧ fst (Mapper.group userEntity UserDto "nonexistent" s) = Ok (VObj []).
Proof.
  intros s.
  destruct (unknown_group_maps_nothing s UserDto "nonexistent")
    as (_ & mapper & Hm & Hkeys & _ & Hgroup).
  - do 2 apply reachable_run. apply reachable_initial.
  - reflexivity.
  - vm_compute. reflexivity.
  - exists mapper. split; [done|]. split; [done|].
    by rewrite (Hgroup userEntity eq_refl).
Defined.

(** The empty group name is taken for no option: [UserDto] has no group of
    that name, yet every declaration is mapped. *)
Lemma empty_group_name_maps_every_field :
  fieldGroups (entry_of_metadata (initial_state program) UserDto) !! "" = None
  ∧ ∃ mapper,
      fst (MapperFactory.createMapper UserDto (group_options "")
             (initial_state program)) = Ok mapper
      ∧ assigned_keys mapper = ["username"; "avatar"; "email"; "isAdult"]
      ∧ fst (Mapper.group userEntity UserDto "" (initial_state program)) =
          Ok (VObj [("username", VStr "john_doe"); ("avatar", VStr "u");
                    ("email", VStr "john@x.com"); ("isAdult", VBool true)]).
Proof.
  split; [vm_compute; reflexivity|].
  eexists. split; [vm_compute; reflexivity|]. split; vm_compute; reflexivity.
Qed.




(** C10 (inspection is read-only). [getCompiledMapper] of the registry
    returns what the cache holds under the signature and leaves the state
    untouched; the facade's [getCompiledMapper] returns what the cache holds
    under the signature it derives from the options, and leaves the
    declaration registry, the compiled-mapper cache, the function
    allocator and the trace (so: no metadata read, no compilation) as they
    were. With nothing cached under the signature both return
    [undefined]. *)
Theorem getCompiledMapper_read_only T options optionsKey s :
  MappingRegistry.getCompiledMapper T optionsKey s = (Ok (cached s T optionsKey), s)
  ∧ same_but_arrays s (snd (Mapper.getCompiledMapper T options s))
  ∧ ∃ k, signature options s = Ok k ∧
         fst (Mapper.getCompiledMapper T options s) = Ok (cached s T k).
Proof.
  split; [done|].
  destruct (Mapper_getCompiledMapper_run T options s) as (k & Hsig & Hrun).
  split.
  - pose proof (getOptionsKey_frame options s) as Hframe.
    rewrite Hrun. exact Hframe.
  - exists k. split; [done|]. by rewrite Hrun.
Qed.

(* ================================================================== *)
(** * Further properties of the code *)
(* ================================================================== *)

(** ** Property lists *)

Lemma lookup_prop_set_prop k k0 v props :
  lookup_prop k (set_prop k0 v props) =
    if decide (k = k0) then Some v else lookup_prop k props.
Proof.
  induction props as [|[k' v'] rest IH]; simpl.
  - destruct (String.eqb_spec k k0); by case_decide.
  - destruct (String.eqb_spec k0 k'); simpl.
    + subst. destruct (String.eqb_spec k k'); by case_decide.
    + destruct (String.eqb_spec k k'); [|done].
      subst. by rewrite decide_False by done.
Qed.


Lemma Map_get_set {V} (k k0 : string) (v : V) m :
  Map_get k (Map_set k0 v m) = if decide (k = k0) then Some v else Map_get k m.
Proof.
  induction m as [|[k' v'] rest IH]; simpl.
  - destruct (String.eqb_spec k k0); by case_decide.
  - destruct (String.eqb_spec k0 k'); simpl.
    + subst. destruct (String.eqb_spec k k'); by case_decide.
    + destruct (String.eqb_spec k k'); [|done].
      subst. by rewrite decide_False by done.
Qed.

Lemma Map_set_set {V} (k : string) (v1 v2 : V) m :
  Map_set k v2 (Map_set k v1 m) = Map_set k v2 m.
Proof.
  induction m as [|[k' v'] rest IH]; simpl.
  - by rewrite String.eqb_refl.
  - destruct (String.eqb_spec k k') as [->|Hne]; simpl.
    + by rewrite String.eqb_refl.
    + destruct (String.eqb_spec k k'); [done|]. by rewrite IH.
Qed.

Lemma Map_get_None {V} (k : string) (m : list (string * V)) :
  Map_get k m = None ↔ k ∉ m.*1.
Proof.
  induction m as [|[k' v'] rest IH]; simpl.
  - split; [intros _; apply not_elem_of_nil|done].
  - rewrite not_elem_of_cons. destruct (String.eqb_spec k k') as [->|Hne].
    + split; [done|]. by intros [? _].
    + rewrite IH. split; [done|]. by intros [_ ?].
Qed.

Lemma Map_get_elem_of {V} (k : string) (v : V) m :
  NoDup m.*1 → (k, v) ∈ m ↔ Map_get k m = Some v.
Proof.
  induction m as [|[k' v'] rest IH]; simpl; intros Hnd.
  - split; [by intros []%elem_of_nil|done].
  - apply NoDup_cons in Hnd as [Hnotin Hnd]. rewrite elem_of_cons, (IH Hnd).
    destruct (String.eqb_spec k k') as [->|Hne].
    + split.
      * intros [[= <-]|Hget]; [done|].
        destruct Hnotin. apply dec_stable. intros Hn.
        apply Map_get_None in Hn. congruence.
      * intros [= <-]. by left.
    + split; [|by right]. by intros [[= ? ?]|?].
Qed.

Lemma Map_set_keys_in {V} (k : string) (v : V) m :
  k ∈ m.*1 → (Map_set k v m).*1 = m.*1.
Proof.
  induction m as [|[k' v'] rest IH]; simpl; [by intros []%elem_of_nil|].
  destruct (String.eqb_spec k k') as [->|Hne]; simpl; [done|].
  intros [?|Hin]%elem_of_cons; [done|]. f_equal. by apply IH.
Qed.

Lemma Map_set_keys_notin {V} (k : string) (v : V) m :
  k ∉ m.*1 → (Map_set k v m).*1 = m.*1 ++ [k].
Proof.
  induction m as [|[k' v'] rest IH]; simpl; [done|].
  intros [Hne Hnotin]%not_elem_of_cons.
  destruct (String.eqb_spec k k'); [done|]. simpl. f_equal. by apply IH.
Qed.

Lemma Map_set_NoDup {V} (k : string) (v : V) m :
  NoDup m.*1 → NoDup (Map_set k v m).*1.
Proof.
  intros Hnd. destruct (decide (k ∈ m.*1)) as [Hin|Hnotin].
  - by rewrite Map_set_keys_in.
  - rewrite Map_set_keys_notin by done.
    apply NoDup_app. split_and!; [done| |apply NoDup_singleton].
    by intros x Hx ->%list_elem_of_singleton.
Qed.

Lemma Map_get_set_eq {V} (k : string) (v : V) m : Map_get k (Map_set k v m) = Some v.
Proof. by rewrite Map_get_set, decide_True. Qed.










(** ** Paths *)

Lemma split_dot_nonempty path : split_dot path ≠ [].
Proof.
  induction path as [|c rest IH]; simpl; [done|].
  destruct (Ascii.eqb c "."); [done|]. by destruct (split_dot rest).
Qed.

Lemma includes_dot_dotted p q : includes_dot (dotted p q) = true.
Proof.
  unfold dotted. induction p as [|c rest IH]; simpl; [done|].
  by destruct (Ascii.eqb c ".").
Qed.

Lemma split_dot_dotted p q : split_dot (dotted p q) = split_dot p ++ split_dot q.
Proof.
  unfold dotted. induction p as [|c rest IH]; simpl; [done|].
  simpl in IH. rewrite IH.
  destruct (Ascii.eqb c "."); [done|].
  pose proof (split_dot_nonempty rest). by destruct (split_dot rest).
Qed.

Lemma walk_segments_undefined segments :
  walk_segments segments VUndefined = Ok VUndefined.
Proof. destruct segments as [|seg rest]; simpl; [done|]. by case_match. Qed.

Lemma walk_segments_app a b current :
  walk_segments (a ++ b) current =
    match walk_segments a current with
    | Ok w => walk_segments b w
    | Throw e => Throw e
    end.
Proof.
  revert current. induction a as [|seg rest IH]; intros current; simpl; [done|].
  destruct (BLOCKED_KEYS_has seg); [by rewrite walk_segments_undefined|].
  destruct (is_nullish current || negb (typeof_object current));
    [by rewrite walk_segments_undefined|].
  destruct (get_prop current seg); [apply IH|done].
Qed.

Lemma walk_segments_not_object segments current :
  segments ≠ [] → object_like current = false →
  walk_segments segments current = Ok VUndefined.
Proof.
  intros Hne Hobj. destruct segments as [|seg rest]; [done|]. simpl.
  destruct (BLOCKED_KEYS_has seg); [done|].
  unfold object_like in Hobj.
  by destruct (is_nullish current), (typeof_object current).
Qed.

Lemma get_prop_primitive v k w :
  object_like v = false → get_prop v k = Ok w → object_like w = false.
Proof.
  destruct v; simpl; try done; intros _.
  - by intros [= <-].
  - by intros [= <-].
  - destruct (String.eqb k "length"); [by intros [= <-]|].
    destruct (array_index _ _); by intros [= <-].
Qed.

(** What the walk over the segments of a path yields, next to the fast
    path of single-segment paths. *)
Lemma walk_segments_resolve_path obj path :
  is_nullish obj = false →
  match walk_segments (split_dot path) obj, resolve_path obj path with
  | Ok w, Ok w' => w = w' ∨ (object_like w = false ∧ object_like w' = false)
  | _, _ => False
  end.
Proof.
  intros Hobj. unfold resolve_path. rewrite Hobj.
  destruct (includes_dot path) eqn:Hdot; simpl.
  - destruct (walk_segments_returns (split_dot path) obj) as [w ->]. by left.
  - rewrite split_dot_no_dot by done. simpl.
    destruct (BLOCKED_KEYS_has path); [by left|]. rewrite Hobj. simpl.
    destruct (typeof_object obj) eqn:Htype; simpl.
    + destruct (get_prop_object obj path Hobj) as [w ->]. by left.
    + destruct (get_prop_object obj path Hobj) as [w Hw]. rewrite Hw.
      right. split; [done|]. eapply get_prop_primitive; [|done].
      unfold object_like. by rewrite Htype, andb_false_r.
Qed.

Lemma resolve_path_object_like obj path :
  object_like obj = true →
  resolve_path obj path = walk_segments (split_dot path) obj.
Proof.
  intros Hobj. unfold resolve_path.
  assert (is_nullish obj = false) as Hnull by (by destruct obj).
  assert (typeof_object obj = true) as Htype by (by destruct obj).
  rewrite Hnull. destruct (includes_dot path) eqn:Hdot; simpl; [done|].
  rewrite split_dot_no_dot by done. simpl.
  destruct (BLOCKED_KEYS_has path); [done|]. rewrite Hnull, Htype. simpl.
  by destruct (get_prop obj path).
Qed.

Lemma resolve_path_returns obj path : ∃ v, resolve_path obj path = Ok v.
Proof.
  unfold resolve_path. destruct (is_nullish obj) eqn:Hobj; [by eexists|].
  destruct (includes_dot path); simpl.
  - apply walk_segments_returns.
  - destruct (BLOCKED_KEYS_has path); [by eexists|]. by apply get_prop_object.
Qed.

Lemma resolve_path_dotted obj p q :
  resolve_path obj (dotted p q) =
    match resolve_path obj p with
    | Ok w => if object_like w then resolve_path w q else Ok VUndefined
    | Throw e => Throw e
    end.
Proof.
  destruct (is_nullish obj) eqn:Hobj.
  { unfold resolve_path. by rewrite Hobj. }
  unfold resolve_path at 1. rewrite Hobj, includes_dot_dotted. simpl.
  rewrite split_dot_dotted, walk_segments_app.
  pose proof (walk_segments_resolve_path obj p Hobj) as Hp.
  destruct (walk_segments (split_dot p) obj) as [w|]; [|done].
  destruct (resolve_path obj p) as [w'|]; [|done].
  destruct Hp as [<-|[Hw Hw']].
  - destruct (object_like w) eqn:Hw.
    + by rewrite resolve_path_object_like.
    + apply walk_segments_not_object; [apply split_dot_nonempty|done].
  - rewrite Hw'. apply walk_segments_not_object; [apply split_dot_nonempty|done].
Qed.

Lemma pathCache_extends_refl s : pathCache_extends s s.
Proof. by intros ??. Qed.

(** [getNestedValue], run: the result is the one of [resolve_path]; the
    state changes on a miss of the memo only. *)
Lemma getNestedValue_run obj path s :
  pathCache_ok s →
  getNestedValue obj path s =
    (resolve_path obj path,
     if is_nullish obj || negb (includes_dot path) then s
     else match pathCache s !! path with
          | Some _ => s
          | None => set_pathCache <[path := split_dot path]> s
          end).
Proof.
  intros Hok. unfold getNestedValue, resolve_path.
  destruct (is_nullish obj); [done|].
  destruct (includes_dot path); simpl.
  - cbv [bind cached_segments get modify ret lift].
    destruct (pathCache s !! path) as [segments|] eqn:Hhit; [|done].
    by rewrite (Hok _ _ Hhit).
  - by destruct (BLOCKED_KEYS_has path).
Qed.

(** X2 ([getNestedValue] never throws). Whatever the object, the path and
    the state, [getNestedValue] returns a value: a [null] or [undefined]
    object and every intermediate value that is not an object end the
    walk with [undefined] instead of a property read that would throw. The
    only state it may touch is its memo of split paths, to which it only
    adds. *)
Theorem getNestedValue_never_throws obj path s :
  ∃ v s', getNestedValue obj path s = (Ok v, s')
          ∧ same_but_pathCache s s' ∧ pathCache_extends s s'.
Proof.
  unfold getNestedValue. destruct (is_nullish obj) eqn:Hobj.
  { eexists _, _. split_and!; [done..|apply pathCache_extends_refl]. }
  destruct (includes_dot path); simpl.
  - cbv [bind cached_segments get modify ret lift].
    destruct (pathCache s !! path) as [segments|] eqn:Hhit.
    + destruct (walk_segments_returns segments obj) as [v ->].
      eexists _, _. split_and!; [done..|apply pathCache_extends_refl].
    + destruct (walk_segments_returns (split_dot path) obj) as [v ->].
      eexists _, _. split_and!; [done..|].
      intros p segs Hp. simpl. rewrite lookup_insert_ne; [done|congruence].
  - destruct (BLOCKED_KEYS_has path).
    + eexists _, _. split_and!; [done..|apply pathCache_extends_refl].
    + destruct (get_prop_object obj path Hobj) as [v Hv].
      exists v, s. unfold lift. rewrite Hv.
      split_and!; [done..|apply pathCache_extends_refl].
Qed.

(** X3 (the memo of split paths is transparent). In a reachable state
    [getNestedValue] returns what it computes with every path split
    afresh, so its result depends on the object and the path only, never
    on what was looked up before. A dotted path looked up on an object
    that is not [null] is memoised with the split of the path, and what
    was memoised before stays. *)
Theorem getNestedValue_memo_transparent s obj path :
  reachable s →
  ∃ s', getNestedValue obj path s = (resolve_path obj path, s')
        ∧ same_but_pathCache s s'
        ∧ pathCache_extends s s'
        ∧ (is_nullish obj = false → includes_dot path = true →
           pathCache s' !! path = Some (split_dot path)).
Proof.
  intros Hok%reachable_pathCache_ok. rewrite getNestedValue_run by done.
  eexists. split; [done|].
  destruct (is_nullish obj); simpl.
  { split_and!; [done|apply pathCache_extends_refl|done]. }
  destruct (includes_dot path); simpl;
    [|split_and!; [done|apply pathCache_extends_refl|done]].
  destruct (pathCache s !! path) as [segments|] eqn:Hhit.
  - split_and!; [done|apply pathCache_extends_refl|].
    intros _ _. by rewrite Hhit, (Hok _ _ Hhit).
  - split_and!; [done| |].
    + intros p segs Hp. simpl. rewrite lookup_insert_ne; [done|congruence].
    + intros _ _. simpl. by rewrite lookup_insert_eq.
Qed.

(** The avatar of the scenario, looked up after a first mapping has
    memoised its path. *)
Lemma getNestedValue_memo_transparent_witness :
  let s := run (CallMap userEntity UserDto None) (initial_state program) in
  ∃ s', getNestedValue userEntity "profile.avatarUrl" s = (Ok (VStr "u"), s')
        ∧ same_but_pathCache s s'
        ∧ pathCache_extends s s'
        ∧ (is_nullish userEntity = false →
           includes_dot "profile.avatarUrl" = true →
           pathCache s' !! "profile.avatarUrl" = Some ["profile"; "avatarUrl"]).
Proof.
  apply (getNestedValue_memo_transparent
           (run (CallMap userEntity UserDto None) (initial_state program))
           userEntity "profile.avatarUrl").
  apply reachable_run, reachable_initial.
Defined.

(** X4 (paths compose). In reachable states, looking up [p.q] is looking
    up [q] in what [p] yields when that is an object or an array, and
    [undefined] otherwise: a [null], [undefined] or primitive value on
    the way is never stepped into (so [name.length] is [undefined] for a
    string [name], although [length] alone, looked up on the string, is
    its length), and nothing throws. *)
Theorem getNestedValue_dotted s s1 s2 obj p q :
  reachable s → reachable s1 → reachable s2 →
  fst (getNestedValue obj (dotted p q) s) =
    match fst (getNestedValue obj p s1) with
    | Ok w => if object_like w then fst (getNestedValue w q s2) else Ok VUndefined
    | Throw e => Throw e
    end.
Proof.
  intros Hs%reachable_pathCache_ok Hs1%reachable_pathCache_ok
         Hs2%reachable_pathCache_ok.
  rewrite !getNestedValue_run by done. simpl. rewrite resolve_path_dotted.
  destruct (resolve_path obj p) as [w|]; [|done].
  destruct (object_like w); [|done]. by rewrite getNestedValue_run.
Qed.

(** [profile.avatarUrl] on the entity of the scenario, and [name.length]
    on an object whose [name] is a string. *)
Lemma getNestedValue_dotted_witness :
  let s := initial_state program in
  let s1 := run (CallMap userEntity UserDto None) s in
  fst (getNestedValue userEntity (dotted "profile" "avatarUrl") s1) = Ok (VStr "u")
  ∧ fst (getNestedValue (VObj [("name", VStr "abc")]) (dotted "name" "length") s)
    = Ok VUndefined
  ∧ fst (getNestedValue (VStr "abc") "length" s) = Ok (VNum 3).
Proof.
  split_and!.
  - rewrite (getNestedValue_dotted
               (run (CallMap userEntity UserDto None) (initial_state program))
               (initial_state program) (initial_state program)
               userEntity "profile" "avatarUrl");
      [reflexivity|apply reachable_run, reachable_initial
      |apply reachable_initial|apply reachable_initial].
  - rewrite (getNestedValue_dotted (initial_state program)
               (initial_state program) (initial_state program)
               (VObj [("name", VStr "abc")]) "name" "length");
      [reflexivity|apply reachable_initial..].
  - reflexivity.
Defined.

(** ** The registry *)

(** X5 ([getEntry] reads the metadata once). [getEntry] returns an entry
    and stores it: asked again, in the state it leaves, it returns the same
    entry and changes nothing. Only the first call for a type reads the
    decorator metadata (both keys, once each), and the entry it builds
    holds what the class declares; the entries of other types are left
    alone. *)
Theorem getEntry_memoises T s :
  ∃ entry s1,
    MappingRegistry.getEntry T s = (Ok entry, s1)
    ∧ registry s1 !! T = Some entry
    ∧ MappingRegistry.getEntry T s1 = (Ok entry, s1)
    ∧ (is_Some (registry s !! T) → s1 = s)
    ∧ (registry s !! T = None →
       entry = entry_of_metadata s T
       ∧ trace s1 = EvGetMetadata FIELD_GROUPS T
                      :: EvGetMetadata PROPERTY_MAPPINGS T :: trace s)
    ∧ (∀ T', T' ≠ T → registry s1 !! T' = registry s !! T').
Proof.
  rewrite getEntry_run. destruct (registry s !! T) as [entry|] eqn:Hreg.
  - exists entry, s. rewrite getEntry_run, Hreg.
    split_and!; done.
  - eexists _, _. split; [done|]. rewrite getEntry_run. simpl.
    rewrite lookup_insert_eq. split_and!; try done.
    intros T' Hne. by rewrite lookup_insert_ne.
Qed.

(** *** The metadata is read once per type and clear *)

Lemma metadata_potential_view T s s' :
  metadata_view T s' = metadata_view T s →
  metadata_potential T s' = metadata_potential T s.
Proof. unfold metadata_view, metadata_potential. by intros [= -> ->]. Qed.

Lemma getEntry_potential T T' s :
  metadata_potential T (snd (MappingRegistry.getEntry T' s)) = metadata_potential T s.
Proof.
  rewrite getEntry_run. unfold metadata_potential.
  destruct (registry s !! T') as [entry|] eqn:Hreg; simpl; [done|].
  destruct (decide (T' = T)) as [->|Hne].
  - rewrite lookup_insert_eq, Hreg. lia.
  - by rewrite lookup_insert_ne.
Qed.

Lemma getOptionsKey_view T options :
  respects (keeps (metadata_view T)) (MappingRegistry.getOptionsKey options).
Proof. unfold MappingRegistry.getOptionsKey, Array_sort. respects_auto. Qed.

Lemma createMapper_potential T T' options s :
  metadata_potential T (snd (MapperFactory.createMapper T' options s))
    = metadata_potential T s.
Proof.
  rewrite <- (getEntry_potential T T' s).
  destruct (createMapper_run T' options s) as (k & _ & H).
  pose proof (getOptionsKey_view T options (snd (MappingRegistry.getEntry T' s)))
    as Hview.
  apply metadata_potential_view in Hview. rewrite <- Hview.
  destruct (cached s T' k); [|destruct H as (? & _ & H)]; by rewrite H.
Qed.

Lemma getNestedValue_view T obj path :
  respects (keeps (metadata_view T)) (getNestedValue obj path).
Proof.
  unfold getNestedValue. respects_auto.
Qed.

Lemma apply_pathMappings_view T mappings src result :
  respects (keeps (metadata_view T)) (apply_pathMappings mappings src result).
Proof.
  revert result. induction mappings as [|mapping rest IH]; intros result; simpl.
  - apply respects_ret; tc_solve.
  - apply respects_bind; [tc_solve|apply respects_modify; by intros ?|intros _].
    apply respects_bind; [tc_solve| |intros v; apply IH].
    unfold resolve_source. respects_auto; apply getNestedValue_view.
Qed.

Lemma apply_transformMappings_view T mappings src context result :
  respects (keeps (metadata_view T))
    (apply_transformMappings mappings src context result).
Proof.
  revert result. induction mappings as [|mapping rest IH]; intros result; simpl.
  - apply respects_ret; tc_solve.
  - apply respects_bind; [tc_solve|apply respects_modify; by intros ?|intros _].
    apply respects_bind; [tc_solve|apply respects_lift; tc_solve|intros v; apply IH].
Qed.

Lemma invoke_view T mapper src context :
  respects (keeps (metadata_view T)) (invoke mapper src context).
Proof.
  unfold invoke, construct. destruct (is_nullish src);
    [apply respects_ret; tc_solve|].
  apply respects_bind; [tc_solve|respects_auto|intros r0].
  apply respects_bind; [tc_solve|apply apply_pathMappings_view|intros r1].
  apply respects_bind; [tc_solve|apply apply_transformMappings_view|intros r2].
  apply respects_ret; tc_solve.
Qed.

Lemma map_elements_view T mapper context sources :
  respects (keeps (metadata_view T)) (Mapper.map_elements mapper context sources).
Proof.
  induction sources as [|x rest IH]; simpl; [apply respects_ret; tc_solve|].
  apply respects_bind; [tc_solve| |intros r].
  - destruct (is_nullish x); simpl; [apply respects_ret; tc_solve|apply invoke_view].
  - apply respects_bind; [tc_solve|apply IH|intros rs].
    apply respects_ret; tc_solve.
Qed.

Lemma map_potential T src T' options s :
  metadata_potential T (snd (Mapper.map src T' options s)) = metadata_potential T s.
Proof.
  unfold Mapper.map. destruct (is_nullish src); [done|].
  destruct (MapperFactory.createMapper T' options s) as [[mapper|e] s1] eqn:Hc.
  - rewrite (bind_Ok _ _ _ _ _ Hc).
    pose proof (createMapper_potential T T' options s) as Hp. rewrite Hc in Hp.
    rewrite <- Hp. apply metadata_potential_view.
    apply (respects_bind (keeps (metadata_view T))); [by intros ?|intros context].
    apply invoke_view.
  - rewrite (bind_Throw _ _ _ _ _ Hc).
    pose proof (createMapper_potential T T' options s) as Hp. by rewrite Hc in Hp.
Qed.

Lemma run_potential T c s :
  metadata_potential T (run c s) =
    match c with
    | CallClearCache => metadata_reads T (trace s) + 1
    | _ => metadata_potential T s
    end.
Proof.
  destruct c; simpl.
  - apply map_potential.
  - unfold Mapper.mapArray. case_match; [done|].
    destruct (MapperFactory.createMapper T0 options s) as [[mapper|e] s1] eqn:Hc.
    + rewrite (bind_Ok _ _ _ _ _ Hc).
      pose proof (createMapper_potential T T0 options s) as Hp. rewrite Hc in Hp.
      rewrite <- Hp. apply metadata_potential_view.
      apply (respects_bind (keeps (metadata_view T))); [by intros ?|intros context].
      apply respects_bind; [tc_solve|apply map_elements_view|intros rs].
      apply respects_ret; tc_solve.
    + rewrite (bind_Throw _ _ _ _ _ Hc).
      pose proof (createMapper_potential T T0 options s) as Hp. by rewrite Hc in Hp.
  - apply map_potential.
  - apply map_potential.
  - apply map_potential.
  - unfold Mapper.createMapper.
    destruct (MapperFactory.createMapper T0 options s) as [[mapper|e] s1] eqn:Hc.
    + rewrite (bind_Ok _ _ _ _ _ Hc).
      pose proof (createMapper_potential T T0 options s) as Hp. by rewrite Hc in Hp.
    + rewrite (bind_Throw _ _ _ _ _ Hc).
      pose proof (createMapper_potential T T0 options s) as Hp. by rewrite Hc in Hp.
  - done.
  - unfold metadata_potential. simpl. by rewrite lookup_empty.
  - apply metadata_potential_view.
    unfold Mapper.getCompiledMapper, MappingRegistry.getCompiledMapper.
    apply (respects_bind (keeps (metadata_view T)));
      [apply getOptionsKey_view|intros k]. respects_auto.
  - apply metadata_potential_view, invoke_view.
  - apply metadata_potential_view, invoke_view.
  - done.
Qed.

Lemma run_all_potential T cs s :
  metadata_potential T (run_all cs s) ≤ metadata_potential T s + clears cs.
Proof.
  revert s. induction cs as [|c rest IH]; intros s; simpl; [lia|].
  etrans; [apply IH|]. rewrite run_potential.
  unfold metadata_potential. destruct c; simpl; try lia.
Qed.

(** X6 (the metadata is read once per type and clear). From whatever
    state, a run of calls none of which is [clearCache] reads the decorator
    metadata of a type at most once, and not at all when the registry
    holds an entry for the type at the start: so it is read at most once
    before the first clear, and at most once between a clear and the
    next. Compiling for other options, mapping arrays, calling mappers and
    inspecting the cache never read it again. Over a whole program it is
    read at most once more than the cache was cleared. *)
Theorem metadata_read_once_per_clear T :
  (∀ cs s,
     clears cs = 0 →
     metadata_reads T (trace (run_all cs s)) ≤
       metadata_reads T (trace s) +
       match registry s !! T with Some _ => 0 | None => 1 end)
  ∧ (∀ cs s,
       clears cs = 0 →
       metadata_reads T (trace (run_all cs (run CallClearCache s))) ≤
         metadata_reads T (trace s) + 1)
  ∧ (∀ cls cs,
       metadata_reads T (trace (run_all cs (initial_state cls))) ≤ 1 + clears cs).
Proof.
  split_and!.
  - intros cs s Hcs. pose proof (run_all_potential T cs s) as H.
    rewrite Hcs in H. unfold metadata_potential in H. lia.
  - intros cs s Hcs. pose proof (run_all_potential T cs (run CallClearCache s)) as H.
    rewrite Hcs, run_potential in H. unfold metadata_potential in H. lia.
  - intros cls cs. pose proof (run_all_potential T cs (initial_state cls)) as H.
    unfold metadata_potential in H. simpl in H. rewrite lookup_empty in H.
    simpl in H. lia.
Qed.

(** A program that maps [UserDto] in four ways after a clear: the
    metadata is read once. *)
Lemma metadata_read_once_per_clear_witness :
  let cs := [ CallMap userEntity UserDto None;
              CallGroup userEntity UserDto "minimal";
              CallMapArray (VArr [userEntity; userEntity]) UserDto None;
              CallGetCompiledMapper UserDto None ] in
  let s := run (CallMap userEntity UserDto None) (initial_state program) in
  metadata_reads UserDto (trace s) = 1
  ∧ metadata_reads UserDto (trace (run_all cs (run CallClearCache s))) ≤ 1 + 1
  ∧ metadata_reads UserDto (trace (run_all cs (run CallClearCache s))) = 2.
Proof.
  intros cs s. split; [reflexivity|]. split; [|vm_compute; reflexivity].
  apply (metadata_read_once_per_clear UserDto). reflexivity.
Defined.

(** X7 (what is stored is what is found). After [setCompiledMapper]
    stored a mapper for a type and a signature, [getCompiledMapper] finds
    that mapper there, whatever was stored there before; under every other
    type or signature it finds what it found before; and nothing but the
    cache of compiled mappers has changed. *)
Theorem setCompiledMapper_getCompiledMapper T optionsKey mapper s :
  ∃ s1,
    MappingRegistry.setCompiledMapper T optionsKey mapper s = (Ok tt, s1)
    ∧ MappingRegistry.getCompiledMapper T optionsKey s1 = (Ok (Some mapper), s1)
    ∧ (∀ T' optionsKey',
         ¬ (T = T' ∧ optionsKey = optionsKey') →
         fst (MappingRegistry.getCompiledMapper T' optionsKey' s1) =
         fst (MappingRegistry.getCompiledMapper T' optionsKey' s))
    ∧ registry s1 = registry s ∧ pathCache s1 = pathCache s
    ∧ arrays s1 = arrays s ∧ next_fn_id s1 = next_fn_id s ∧ trace s1 = trace s.
Proof.
  exists (set_compiledMappers
            <[T := <[optionsKey := mapper]> (default ∅ (compiledMappers s !! T))]> s).
  split; [reflexivity|]. rewrite !getCompiledMapper_run.
  split_and!; try done.
  - unfold cached at 1. simpl. by rewrite cached_insert, decide_True.
  - intros T' k' Hne. rewrite !getCompiledMapper_run. simpl.
    unfold cached at 1. simpl. by rewrite cached_insert, decide_False.
Qed.

(** X8 (a miss allocates a new function). In a reachable state, compiling
    for options under whose signature nothing is cached allocates a
    function instance that differs from every mapper the cache holds, for
    whatever type and signature, stores it under the signature, and
    returns it. *)
Theorem createMapper_miss_allocates T options s optionsKey :
  reachable s →
  signature options s = Ok optionsKey →
  cached s T optionsKey = None →
  ∃ mapper s1,
    MapperFactory.createMapper T options s = (Ok mapper, s1)
    ∧ fn_id mapper = next_fn_id s
    ∧ next_fn_id s1 = S (next_fn_id s)
    ∧ cached s1 T optionsKey = Some mapper
    ∧ ∀ T' optionsKey' mapper',
        cached s T' optionsKey' = Some mapper' → mapper' ≠ mapper.
Proof.
  intros Hreach Hsig Hmiss.
  destruct (createMapper_run T options s) as (k & Hk & H).
  rewrite Hsig in Hk. injection Hk as <-. rewrite Hmiss in H.
  destruct H as (properties & _ & Hrun). rewrite Hrun.
  eexists _, _. split; [done|]. split_and!.
  - done.
  - simpl. destruct (getOptionsKey_frame options
                       (snd (MappingRegistry.getEntry T s))) as (_&_&_&_&_&->&_).
    rewrite getEntry_run. by destruct (registry s !! T).
  - unfold cached. simpl. by rewrite lookup_insert_eq; simpl; rewrite lookup_insert_eq.
  - intros T' k' m' Hm' ->.
    apply (reachable_ids_fresh s Hreach) in Hm'. simpl in Hm'. lia.
Qed.

(** The first compilation of a program. *)
Lemma createMapper_miss_allocates_witness :
  ∃ mapper s1,
    MapperFactory.createMapper UserDto None (initial_state program) = (Ok mapper, s1)
    ∧ fn_id mapper = 0
    ∧ next_fn_id s1 = 1
    ∧ cached s1 UserDto "default" = Some mapper
    ∧ ∀ T' optionsKey' mapper',
        cached (initial_state program) T' optionsKey' = Some mapper' →
        mapper' ≠ mapper.
Proof.
  apply (createMapper_miss_allocates UserDto None (initial_state program) "default");
    [apply reachable_initial|reflexivity|reflexivity].
Defined.

(** ** Projections *)

Lemma getPropertiesToMap_sublist entry options s properties :
  fst (MapperFactory.getPropertiesToMap entry options s) = Ok properties →
  properties `sublist_of`
    filter (λ config, ignore config = false) (propertyConfigs entry).*2.
Proof.
  unfold MapperFactory.getPropertiesToMap, MapperFactory.nonempty_fields, Array_read.
  cbv [bind get ret].
  repeat case_match; simpl; intros [= <-];
    first [done | apply sublist_filter | apply sublist_nil_l].
Qed.

Lemma as_path_target prop pm : as_path prop = Some pm → pm_target pm = targetKey prop.
Proof. unfold as_path. destruct (as_transform prop); [done|]. by intros [= <-]. Qed.

Lemma as_transform_target prop tm :
  as_transform prop = Some tm → tm_target tm = targetKey prop.
Proof. unfold as_transform. repeat case_match; try done. by intros [= <-]. Qed.

Lemma omap_target_sublist {A} (f : PropertyMappingConfig → option A)
    (target : A → string) properties :
  (∀ prop a, f prop = Some a → target a = targetKey prop) →
  target <$> omap f properties `sublist_of` targetKey <$> properties.
Proof.
  intros Hf. induction properties as [|prop rest IH]; simpl; [constructor|].
  destruct (f prop) as [a|] eqn:Ha; simpl.
  - rewrite (Hf _ _ Ha). by constructor.
  - by constructor.
Qed.

(** The mapper [createMapper] returns in a valid state, found in the
    cache or built: it is the partition of a selection of the declarations
    that are not ignored, in declaration order. *)
Lemma createMapper_compiled T options s :
  valid_state s →
  ∃ mapper properties,
    fst (MapperFactory.createMapper T options s) = Ok mapper
    ∧ captured_targetType mapper = T
    ∧ properties `sublist_of`
        filter (λ config, ignore config = false) (declarations s T)
    ∧ pathMappings mapper = omap as_path properties
    ∧ transformMappings mapper = omap as_transform properties.
Proof.
  intros (Hpc & Hreg & Hcache).
  destruct (createMapper_run T options s) as (k & Hk & H).
  destruct (cached s T k) as [mapper|] eqn:Hhit.
  - rewrite H. destruct (Hcache _ _ _ Hhit) as (o & s0 & props & _ & Hprops & Hpart & HT).
    exists mapper, props. split; [done|]. split; [done|].
    rewrite partition_properties_spec in Hpart. injection Hpart as <- <-.
    split; [|done]. by apply getPropertiesToMap_sublist in Hprops.
  - destruct H as (props & Hprops & ->).
    exists (built_mapper s T props), props. split; [done|]. split; [done|].
    rewrite current_entry_valid in Hprops by done.
    split; [by apply getPropertiesToMap_sublist in Hprops|].
    unfold built_mapper. simpl. by rewrite partition_properties_spec.
Qed.

(** X9 (projections keep the declaration order and never an ignored
    field). In a reachable state, whatever the options and whether the
    mapper is found in the cache or built, the mapper [createMapper]
    returns is made from a selection of the declarations of its type that
    keeps their order: the keys its path mappings assign, and the keys its
    transforms assign, come in declaration order, never in the order of a
    [pick] list; and each assigned key is the key of a declaration that is
    not ignored. *)
Theorem projection_keeps_declaration_order s T options :
  reachable s →
  ∃ mapper,
    fst (MapperFactory.createMapper T options s) = Ok mapper
    ∧ captured_targetType mapper = T
    ∧ pm_target <$> pathMappings mapper `sublist_of` declaredKeys s T
    ∧ tm_target <$> transformMappings mapper `sublist_of` declaredKeys s T
    ∧ ∀ k, k ∈ assigned_keys mapper →
           ∃ config, config ∈ declarations s T ∧ targetKey config = k
                     ∧ ignore config = false.
Proof.
  intros Hvalid%reachable_valid.
  destruct (createMapper_compiled T options s Hvalid)
    as (mapper & props & Hm & HT & Hsub & Hpm & Htm).
  exists mapper. split; [done|]. split; [done|].
  assert (targetKey <$> props `sublist_of` declaredKeys s T) as Hkeys.
  { unfold declaredKeys. apply fmap_sublist. etrans; [done|apply sublist_filter]. }
  split_and!.
  - rewrite Hpm. etrans; [|done]. apply omap_target_sublist, as_path_target.
  - rewrite Htm. etrans; [|done]. apply omap_target_sublist, as_transform_target.
  - intros k Hk. unfold assigned_keys in Hk. rewrite Hpm, Htm in Hk.
    assert (∃ prop, prop ∈ props ∧ targetKey prop = k) as (prop & Hin & <-).
    { apply elem_of_app in Hk as [Hk|Hk];
        apply list_elem_of_fmap in Hk as (a & -> & Ha);
        apply list_elem_of_omap in Ha as (prop & Hin & Ha); exists prop;
        (split; [done|]); symmetry.
      - by apply as_path_target.
      - by apply as_transform_target. }
    exists prop. split_and!; [|done|].
    + eapply elem_of_sublist in Hin; [|done].
      by apply list_elem_of_filter in Hin as [_ ?].
    + eapply elem_of_sublist in Hin; [|done].
      by apply list_elem_of_filter in Hin as [? _].
Qed.

(** [UserDto], picked by a list in the reverse of the declaration order. *)
Lemma projection_keeps_declaration_order_witness :
  let s := holding 1 ["email"; "avatar"; "username"] (initial_state program) in
  ∃ mapper,
    fst (MapperFactory.createMapper UserDto (pick_options 1) s) = Ok mapper
    ∧ captured_targetType mapper = UserDto
    ∧ pm_target <$> pathMappings mapper `sublist_of` declaredKeys s UserDto
    ∧ tm_target <$> transformMappings mapper `sublist_of` declaredKeys s UserDto
    ∧ ∀ k, k ∈ assigned_keys mapper →
           ∃ config, config ∈ declarations s UserDto ∧ targetKey config = k
                     ∧ ignore config = false.
Proof.
  apply (projection_keeps_declaration_order
           (holding 1 ["email"; "avatar"; "username"] (initial_state program))
           UserDto (pick_options 1)).
  apply reachable_holding, reachable_initial.
Defined.

(** X10 (no metadata maps to the bare instance). In a reachable state,
    for a type for which [Reflect.getMetadata] finds no property mappings
    (none defined on the class, none inherited up its prototype chain),
    every options value compiles to a mapper that assigns nothing, and
    [Mapper.map] on a source that is not [null] returns the freshly
    constructed instance as it is: missing metadata is an empty mapping,
    never an error. *)
Theorem no_metadata_maps_nothing s T options src :
  reachable s →
  property_mappings (classes s T) = None →
  is_nullish src = false →
  (∃ mapper,
     fst (MapperFactory.createMapper T options s) = Ok mapper
     ∧ assigned_keys mapper = [])
  ∧ fst (Mapper.map src T options s) = Ok (VObj (instance_fields (classes s T))).
Proof.
  intros Hvalid%reachable_valid Hnone Hsrc.
  destruct (createMapper_compiled T options s Hvalid)
    as (mapper & props & Hm & HT & Hsub & Hpm & Htm).
  unfold declarations in Hsub. rewrite Hnone in Hsub.
  apply sublist_nil_r in Hsub. subst props. simpl in Hpm, Htm.
  split.
  - exists mapper. split; [done|]. unfold assigned_keys. by rewrite Hpm, Htm.
  - destruct (MapperFactory.createMapper T options s) as [r0 s1] eqn:Hrun.
    simpl in Hm. subst r0.
    rewrite (map_run src T options s mapper s1 Hsrc Hrun).
    rewrite (invoke_no_mappings mapper src _ s1 Hsrc Hpm Htm). simpl.
    pose proof (createMapper_classes T options s) as Hcl.
    unfold keeps in Hcl. rewrite Hrun in Hcl. simpl in Hcl.
    by rewrite HT, Hcl.
Qed.

(** A constructor of the program that has no metadata, asked for a
    group. *)
Lemma no_metadata_maps_nothing_witness :
  fst (Mapper.map userEntity 7%positive (group_options "minimal")
         (initial_state program)) = Ok (VObj []).
Proof.
  apply (no_metadata_maps_nothing (initial_state program) 7%positive
           (group_options "minimal") userEntity);
    [apply reachable_initial|reflexivity|reflexivity].
Defined.

Lemma getPropertiesToMap_known_group entry o name groupFields s :
  MapOptions.group o = Some name →
  truthy_string name = true →
  fieldGroups entry !! name = Some groupFields →
  fst (MapperFactory.getPropertiesToMap entry (Some o) s) =
    Ok (filter (λ config, targetKey config ∈ groupFields)
          (filter (λ config, ignore config = false) (propertyConfigs entry).*2)).
Proof.
  intros Hg Ht Hf. unfold MapperFactory.getPropertiesToMap, MapperFactory.truthy_group.
  by rewrite Hg, Ht, Hf.
Qed.

Lemma assigned_keys_partition mapper properties k :
  MapperFactory.partition_properties properties [] [] =
    (pathMappings mapper, transformMappings mapper) →
  k ∈ assigned_keys mapper ↔ k ∈ targetKey <$> properties.
Proof.
  intros Hpart. rewrite <- (assigned_keys_built (initial_state program) 1%positive).
  unfold assigned_keys, built_mapper. simpl. by rewrite Hpart.
Qed.

(** The properties a group projects to: those of the group's field set,
    none when the index does not hold the group. *)
Lemma getPropertiesToMap_group entry o name s :
  MapOptions.group o = Some name →
  truthy_string name = true →
  fst (MapperFactory.getPropertiesToMap entry (Some o) s) =
    Ok (match fieldGroups entry !! name with
        | Some groupFields =>
            filter (λ config, targetKey config ∈ groupFields)
              (filter (λ config, ignore config = false) (propertyConfigs entry).*2)
        | None => []
        end).
Proof.
  intros Hg Ht. destruct (fieldGroups entry !! name) as [groupFields|] eqn:Hf.
  - by apply (getPropertiesToMap_known_group entry o name).
  - by apply (getPropertiesToMap_unknown_group entry o name).
Qed.

(** The mapper [createMapper] returns for a group, built now or cached
    earlier. *)
Lemma createMapper_group s T name :
  valid_state s →
  truthy_string name = true →
  ∃ mapper s1,
    MapperFactory.createMapper T (group_options name) s = (Ok mapper, s1)
    ∧ MapperFactory.partition_properties
        (match fieldGroups (entry_of_metadata s T) !! name with
         | Some groupFields =>
             filter (λ config, targetKey config ∈ groupFields)
               (filter (λ config, ignore config = false)
                  (propertyConfigs (entry_of_metadata s T)).*2)
         | None => []
         end) [] [] = (pathMappings mapper, transformMappings mapper)
    ∧ captured_targetType mapper = T.
Proof.
  intros (Hp & Hr & Hc) Ht.
  assert (signature (group_options name) s = Ok ("group:" +:+ name)) as Hsig.
  { unfold signature. simpl. by rewrite Ht. }
  destruct (createMapper_run T (group_options name) s) as (k & Hk & H).
  rewrite Hsig in Hk. injection Hk as <-.
  destruct (cached s T ("group:" +:+ name)) as [mapper|] eqn:Hhit.
  - exists mapper. eexists. split; [done|].
    destruct (Hc _ _ _ Hhit) as (options & s0 & props0 & Hsig0 & Hprops & Hpart & HT).
    destruct (signature_group_inv options s0 name Hsig0)
      as (o & -> & _ & _ & Hgroup & _).
    rewrite (getPropertiesToMap_group _ o name _ Hgroup Ht) in Hprops.
    by injection Hprops as <-.
  - destruct H as (props0 & Hprops & Hrun).
    rewrite (current_entry_valid s T Hr) in Hprops.
    unfold group_options in Hprops.
    rewrite (getPropertiesToMap_group _
               (MapOptions.Build_t None None (Some name) None) name _
               eq_refl Ht) in Hprops.
    injection Hprops as <-. do 2 eexists. split; [done|]. split; [|done].
    simpl. by destruct (MapperFactory.partition_properties _ _ _).
Qed.

(** The keys of what [Mapper.map] returns on a source that is not [null]:
    those of the fresh instance, and those the mapper assigns. *)
Lemma map_keys src T options s mapper s1 v :
  is_nullish src = false →
  MapperFactory.createMapper T options s = (Ok mapper, s1) →
  fst (Mapper.map src T options s) = Ok v →
  ∃ r, v = VObj r ∧
       ∀ k, k ∈ keys r ↔
            k ∈ keys (instance_fields (classes s (captured_targetType mapper)))
            ∨ k ∈ assigned_keys mapper.
Proof.
  intros Hsrc Hrun. rewrite (map_run src T _ s mapper s1 Hsrc Hrun). intros Hv.
  destruct (invoke mapper src (Some (map_context (globalContext s1) options)) s1)
    as [r' s2] eqn:Hinv.
  simpl in Hv. subst r'.
  destruct (invoke_keys _ _ _ _ _ _ Hsrc Hinv) as (r & -> & Hr').
  exists r. split; [done|]. intros k. rewrite Hr'.
  pose proof (createMapper_classes T options s) as Hcl.
  unfold keeps in Hcl. rewrite Hrun in Hcl. simpl in Hcl. by rewrite Hcl.
Qed.

(** X11 (a known group maps the group's fields). In every reachable
    state, for a non-empty group name the group index of the type holds,
    the mapper [createMapper] returns for the group (built now or cached
    earlier) assigns exactly the keys of the declarations that are not
    ignored and belong to the group's field set; the result of
    [Mapper.group] on a source that is not [null] has the keys of the
    fresh instance and those. *)
Theorem group_maps_group_fields s T name groupFields src :
  reachable s →
  truthy_string name = true →
  fieldGroups (entry_of_metadata s T) !! name = Some groupFields →
  is_nullish src = false →
  let selected k :=
    k ∈ groupFields ∧
    ∃ config, config ∈ declarations s T ∧ ignore config = false
              ∧ targetKey config = k in
  ∃ mapper,
    fst (MapperFactory.createMapper T (group_options name) s) = Ok mapper
    ∧ (∀ k, k ∈ assigned_keys mapper ↔ selected k)
    ∧ (∀ v, fst (Mapper.group src T name s) = Ok v →
         ∃ r, v = VObj r ∧
              ∀ k, k ∈ keys r ↔
                   k ∈ keys (instance_fields (classes s T)) ∨ selected k).
Proof.
  intros Hreach Ht Hg Hsrc selected.
  destruct (createMapper_group s T name (reachable_valid s Hreach) Ht)
    as (mapper & s1 & Hrun & Hpart & HT).
  rewrite Hg in Hpart.
  assert (∀ k, k ∈ assigned_keys mapper ↔ selected k) as Hkeys.
  { intros k. rewrite (assigned_keys_partition mapper _ k Hpart).
    unfold selected. rewrite list_elem_of_fmap. split.
    - intros (config & -> & Hin).
      apply list_elem_of_filter in Hin as [Hgf Hin].
      apply list_elem_of_filter in Hin as [Hign Hin]. by eauto.
    - intros (Hgf & config & Hin & Hign & <-). exists config. split; [done|].
      apply list_elem_of_filter. split; [done|]. by apply list_elem_of_filter. }
  exists mapper. rewrite Hrun. split; [done|]. split; [done|].
  intros v Hv.
  destruct (map_keys src T (group_options name) s mapper s1 v Hsrc Hrun Hv)
    as (r & -> & Hr).
  exists r. split; [done|]. intros k. by rewrite Hr, Hkeys, HT.
Qed.

(** The group [minimal] of [UserDto], after the whole shape and the group
    itself have been mapped once. *)
Lemma group_maps_group_fields_witness :
  let s := run (CallGroup userEntity UserDto "minimal")
             (run (CallMap userEntity UserDto None) (initial_state program)) in
  ∃ r, fst (Mapper.group userEntity UserDto "minimal" s) = Ok (VObj r)
       ∧ ∀ k, k ∈ keys r ↔
              k ∈ keys (instance_fields (classes s UserDto))
              ∨ (k ∈ ({[ "username"; "avatar" ]} : gset string) ∧
                 ∃ config, config ∈ declarations s UserDto ∧ ignore config = false
                           ∧ targetKey config = k).
Proof.
  intros s.
  destruct (group_maps_group_fields s UserDto "minimal" {[ "username"; "avatar" ]}
              userEntity) as (mapper & _ & _ & Hgroup).
  - do 2 apply reachable_run. apply reachable_initial.
  - reflexivity.
  - vm_compute. reflexivity.
  - reflexivity.
  - destruct (Hgroup (VObj [("username", VStr "john_doe"); ("avatar", VStr "u")]))
      as (r & Hr & Hkeys); [vm_compute; reflexivity|].
    exists r. split; [|done]. vm_compute. by rewrite <- Hr.
Defined.

(** ** Calling a compiled mapper *)

Lemma getNestedValue_pathCache_ok obj path s :
  pathCache_ok s → pathCache_ok (snd (getNestedValue obj path s)).
Proof.
  intros Hok. rewrite getNestedValue_run by done. simpl.
  destruct (is_nullish obj || negb (includes_dot path)); [done|].
  destruct (pathCache s !! path) eqn:Hhit; [done|].
  intros p segs. simpl. destruct (decide (path = p)) as [->|Hne].
  - rewrite lookup_insert_eq. by intros [= <-].
  - rewrite lookup_insert_ne by done. apply Hok.
Qed.

Lemma getNestedValue_trace obj path s :
  trace (snd (getNestedValue obj path s)) = trace s.
Proof.
  assert (respects (keeps trace) (getNestedValue obj path)) as H; [|apply H].
  unfold getNestedValue. respects_auto.
Qed.

Lemma apply_pathMappings_trace mappings src result s r s' :
  apply_pathMappings mappings src result s = (Ok r, s') →
  trace s' = rev (path_events mappings) ++ trace s.
Proof.
  revert result s. induction mappings as [|mapping rest IH]; intros result s; simpl.
  - by intros [= <- <-].
  - unfold bind at 1. unfold modify at 1.
    set (s1 := log (EvPathLookup (pm_target mapping)) s).
    unfold bind at 1.
    destruct (resolve_source src (pm_source mapping) s1) as [[w|e] s2] eqn:Hres;
      [|done].
    intros Hrun. rewrite (IH _ _ Hrun). simpl. rewrite <- app_assoc. simpl.
    f_equal. f_equal.
    destruct (pm_source mapping) as [path|fn]; simpl in Hres.
    + pose proof (getNestedValue_trace src path s1) as H. by rewrite Hres in H.
    + destruct (is_nullish src); [|done]. by injection Hres as <- <-.
Qed.

(** The loop over the path mappings, when it returns. *)
Lemma apply_pathMappings_spec mappings src result s r s' :
  pathCache_ok s →
  is_nullish src = false →
  apply_pathMappings mappings src result s = (Ok r, s') →
  pathCache_ok s'
  ∧ trace s' = rev (path_events mappings) ++ trace s
  ∧ (∀ k, k ∉ pm_target <$> mappings → lookup_prop k r = lookup_prop k result)
  ∧ (NoDup (pm_target <$> mappings) →
     ∀ mapping, mapping ∈ mappings →
       ∃ path w, pm_source mapping = SourcePath path
                 ∧ resolve_path src path = Ok w
                 ∧ lookup_prop (pm_target mapping) r = Some w).
Proof.
  intros Hok Hsrc. revert result s Hok.
  induction mappings as [|mapping rest IH]; intros result s Hok; simpl.
  - intros [= <- <-]. split_and!; try done. intros _ m []%elem_of_nil.
  - unfold bind at 1. unfold modify at 1.
    destruct (pm_source mapping) as [path|fn] eqn:Hsource; simpl;
      [|by rewrite Hsrc].
    set (s1 := log (EvPathLookup (pm_target mapping)) s).
    assert (pathCache_ok s1) as Hok1 by done.
    unfold bind at 1. rewrite (getNestedValue_run src path s1 Hok1).
    destruct (resolve_path_returns src path) as [w Hw]. rewrite Hw.
    match goal with |- apply_pathMappings _ _ _ ?st = _ → _ => set (s2 := st) end.
    assert (pathCache_ok s2 ∧ trace s2 = trace s1) as [Hok2 Htrace2].
    { pose proof (getNestedValue_pathCache_ok src path s1 Hok1) as H.
      pose proof (getNestedValue_trace src path s1) as H'.
      rewrite getNestedValue_run in H, H' by done. done. }
    intros Hrun. destruct (IH _ _ Hok2 Hrun) as (Hok' & Htrace & Hother & Hmine).
    split_and!.
    + done.
    + rewrite Htrace, Htrace2. simpl. by rewrite <- app_assoc.
    + intros k [Hne Hk]%not_elem_of_cons.
      by rewrite (Hother k Hk), lookup_prop_set_prop, decide_False.
    + intros [Hnotin Hnd]%NoDup_cons m [->|Hin]%elem_of_cons.
      * exists path, w. split_and!; [done..|].
        by rewrite (Hother _ Hnotin), lookup_prop_set_prop, decide_True.
      * by apply Hmine.
Qed.

(** The loop over the transform mappings: it stops at the first transform
    that throws, and the exception is the transform's. *)
Lemma apply_transformMappings_spec mappings src context result s :
  let run := apply_transformMappings mappings src context result s in
  match fst run with
  | Ok r =>
      trace (snd run) = rev (transform_events mappings) ++ trace s
      ∧ (∀ k, k ∉ tm_target <$> mappings → lookup_prop k r = lookup_prop k result)
      ∧ (NoDup (tm_target <$> mappings) →
         ∀ mapping, mapping ∈ mappings →
           ∃ w, tm_transform mapping src context = Ok w
                ∧ lookup_prop (tm_target mapping) r = Some w)
  | Throw e =>
      ∃ called mapping rest,
        mappings = called ++ mapping :: rest
        ∧ (∀ m, m ∈ called → ∃ w, tm_transform m src context = Ok w)
        ∧ tm_transform mapping src context = Throw e
        ∧ trace (snd run) = rev (transform_events (called ++ [mapping])) ++ trace s
  end.
Proof.
  revert result s. induction mappings as [|mapping rest IH]; intros result s; simpl.
  - split_and!; try done. intros _ m []%elem_of_nil.
  - cbv [bind modify lift]. fold apply_transformMappings.
    destruct (tm_transform mapping src context) as [w|e] eqn:Hw; simpl.
    + specialize (IH (set_prop (tm_target mapping) w result)
                     (log (EvTransform (tm_target mapping)) s)).
      simpl in IH.
      destruct (apply_transformMappings rest src context _ _) as [[r|e] s'];
        simpl in *.
      * destruct IH as (Htrace & Hother & Hmine). split_and!.
        -- rewrite Htrace. simpl. by rewrite <- app_assoc.
        -- intros k [Hne Hk]%not_elem_of_cons.
           by rewrite (Hother k Hk), lookup_prop_set_prop, decide_False.
        -- intros [Hnotin Hnd]%NoDup_cons m [->|Hin]%elem_of_cons.
           ++ exists w. split; [done|].
              by rewrite (Hother _ Hnotin), lookup_prop_set_prop, decide_True.
           ++ by apply Hmine.
      * destruct IH as (called & m & post & -> & Hcalled & Hm & Htrace).
        exists (mapping :: called), m, post. split_and!; [done| |done|].
        -- intros m' [->|Hin]%elem_of_cons; [by eexists|by apply Hcalled].
        -- rewrite Htrace. unfold transform_events. simpl.
           by rewrite <- !app_assoc.
    + exists [], mapping, rest. split_and!; try done. intros m []%elem_of_nil.
Qed.

(** A compiled mapper called on a source that is not [null], when it
    returns. *)
Lemma invoke_spec mapper src context s v s' :
  pathCache_ok s →
  is_nullish src = false →
  invoke mapper src context s = (Ok v, s') →
  ∃ r, v = VObj r
    ∧ pathCache_ok s'
    ∧ trace s' = rev (transform_events (transformMappings mapper))
                   ++ rev (path_events (pathMappings mapper))
                   ++ EvConstruct (captured_targetType mapper) :: trace s
    ∧ (∀ k, k ∉ assigned_keys mapper →
         lookup_prop k r =
         lookup_prop k (instance_fields (classes s (captured_targetType mapper))))
    ∧ (NoDup (assigned_keys mapper) →
       (∀ mapping, mapping ∈ pathMappings mapper →
          ∃ path w, pm_source mapping = SourcePath path
                    ∧ resolve_path src path = Ok w
                    ∧ lookup_prop (pm_target mapping) r = Some w)
       ∧ (∀ mapping, mapping ∈ transformMappings mapper →
            ∃ w, tm_transform mapping src context = Ok w
                 ∧ lookup_prop (tm_target mapping) r = Some w)).
Proof.
  intros Hok Hsrc Hrun.
  pose proof (invoke_pathCache_ok mapper src context s Hok) as Hok'.
  rewrite Hrun in Hok'. simpl in Hok'. revert Hrun.
  unfold invoke. rewrite Hsrc. cbv [bind construct modify get ret].
  set (T := captured_targetType mapper).
  set (s0 := log (EvConstruct T) s).
  destruct (apply_pathMappings (pathMappings mapper) src
              (instance_fields (classes s0 T)) s0) as [[r1|e] s1] eqn:Hpaths;
    [|done].
  destruct (apply_pathMappings_spec _ _ _ s0 _ _ Hok Hsrc Hpaths)
    as (Hok1 & Htrace1 & Hother1 & Hmine1).
  pose proof (apply_transformMappings_spec (transformMappings mapper) src context
                r1 s1) as Htm.
  simpl in Htm.
  destruct (apply_transformMappings (transformMappings mapper) src context r1 s1)
    as [[r2|e] s2]; [|done].
  simpl in Htm. destruct Htm as (Htrace2 & Hother2 & Hmine2).
  intros [= <- <-]. exists r2. split; [done|]. split_and!.
  - done.
  - rewrite Htrace2, Htrace1. done.
  - intros k Hk. unfold assigned_keys in Hk.
    apply not_elem_of_app in Hk as [Hk1 Hk2].
    by rewrite (Hother2 k Hk2), (Hother1 k Hk1).
  - intros [Hnd1 [Hdisj Hnd2]]%NoDup_app. split.
    + intros m Hin. destruct (Hmine1 Hnd1 m Hin) as (path & w & ? & ? & Hl).
      exists path, w. split_and!; [done..|]. rewrite Hother2; [done|].
      apply Hdisj. apply list_elem_of_fmap. by exists m.
    + by apply Hmine2.
Qed.

Lemma partition_Permutation properties :
  (pm_target <$> omap as_path properties)
    ++ (tm_target <$> omap as_transform properties)
  ≡ₚ targetKey <$> properties.
Proof.
  induction properties as [|prop rest IH]; simpl; [done|].
  unfold as_path at 1. destruct (as_transform prop) as [tm|] eqn:Htm; simpl.
  - rewrite <- Permutation_middle, IH. by rewrite (as_transform_target _ _ Htm).
  - by rewrite IH.
Qed.

Lemma NoDup_fmap_eq {A B} (f : A → B) (l : list A) x y :
  NoDup (f <$> l) → x ∈ l → y ∈ l → f x = f y → x = y.
Proof.
  induction l as [|a l IH]; simpl; [by intros _ []%elem_of_nil|].
  intros [Hnotin Hnd]%NoDup_cons [->|Hx]%elem_of_cons [->|Hy]%elem_of_cons Heq.
  - done.
  - destruct Hnotin. rewrite Heq. apply list_elem_of_fmap. by exists y.
  - destruct Hnotin. rewrite <- Heq. apply list_elem_of_fmap. by exists x.
  - by apply IH.
Qed.

(** X12 (each field gets what its locator yields). In a reachable state,
    for a type whose declarations have distinct keys and a source that is
    not [null]: when [Mapper.map] returns, the result holds, under the key
    of every declaration the mapper assigns, the value that declaration's
    locator yields on the source (what its path resolves to, or what its
    transform returns, called with the context of this call); a path that
    does not resolve leaves the key present with [undefined]; and every
    other key of the result holds what the fresh instance held. *)
Theorem map_assigns_located_values s T options src v s' :
  reachable s →
  NoDup (declaredKeys s T) →
  is_nullish src = false →
  Mapper.map src T options s = (Ok v, s') →
  ∃ mapper r,
    fst (MapperFactory.createMapper T options s) = Ok mapper
    ∧ v = VObj r
    ∧ (∀ config,
         config ∈ declarations s T → targetKey config ∈ assigned_keys mapper →
         ∃ w, locate config src (Some (map_context (globalContext s) options)) = Ok w
              ∧ lookup_prop (targetKey config) r = Some w)
    ∧ (∀ k, k ∉ assigned_keys mapper →
         lookup_prop k r = lookup_prop k (instance_fields (classes s T))).
Proof.
  intros Hreach Hnd Hsrc Hmap.
  pose proof (reachable_valid s Hreach) as Hvalid.
  destruct (createMapper_compiled T options s Hvalid)
    as (mapper & props & Hm & HT & Hsub & Hpm & Htm).
  destruct (MapperFactory.createMapper T options s) as [r0 s1] eqn:Hrun.
  simpl in Hm. subst r0.
  pose proof (createMapper_classes T options s) as Hcl.
  pose proof (createMapper_pathCache_ok T options s (proj1 Hvalid)) as Hok1.
  unfold keeps in Hcl. rewrite Hrun in Hcl, Hok1. simpl in Hcl, Hok1.
  rewrite (map_run src T options s mapper s1 Hsrc Hrun) in Hmap.
  rewrite (map_context_global _ (globalContext s)) in Hmap.
  destruct (invoke_spec _ _ _ _ _ _ Hok1 Hsrc Hmap)
    as (r & -> & _ & _ & Hother & Hmine).
  assert (props `sublist_of` declarations s T) as Hsub'
    by (etrans; [done|apply sublist_filter]).
  assert (assigned_keys mapper ≡ₚ targetKey <$> props) as Hperm.
  { unfold assigned_keys. rewrite Hpm, Htm. apply partition_Permutation. }
  assert (NoDup (assigned_keys mapper)) as Hnd'.
  { rewrite Hperm. eapply sublist_NoDup; [done|]. by apply fmap_sublist. }
  destruct (Hmine Hnd') as [Hpaths Htransforms].
  exists mapper, r. split; [done|]. split; [done|]. split.
  - intros config Hin Hkey. rewrite Hperm in Hkey.
    apply list_elem_of_fmap in Hkey as (prop & Hkey & Hprop).
    assert (prop = config) as ->.
    { eapply (NoDup_fmap_eq targetKey); [exact Hnd| |done|done].
      by eapply elem_of_sublist. }
    unfold locate. destruct (as_transform config) as [tm|] eqn:Hconfig.
    + rewrite <- (as_transform_target _ _ Hconfig). apply Htransforms.
      rewrite Htm. apply list_elem_of_omap. by exists config.
    + destruct (Hpaths {| pm_target := targetKey config; pm_source := source config |})
        as (path & w & Hsource & Hw & Hl).
      { rewrite Hpm. apply list_elem_of_omap. exists config. split; [done|].
        unfold as_path. by rewrite Hconfig. }
      simpl in Hsource, Hl. rewrite Hsource. by exists w.
  - intros k Hk. by rewrite (Hother k Hk), HT, Hcl.
Qed.

(** [UserDto] mapped from an entity that has no profile: [avatar] is
    present and [undefined]. *)
Lemma map_assigns_located_values_witness :
  let s := initial_state program in
  let src := VObj [("username", VStr "john_doe"); ("age", VNum 25)] in
  ∃ mapper r,
    fst (MapperFactory.createMapper UserDto None s) = Ok mapper
    ∧ fst (Mapper.map src UserDto None s) = Ok (VObj r)
    ∧ (∀ config,
         config ∈ declarations s UserDto →
         targetKey config ∈ assigned_keys mapper →
         ∃ w, locate config src (Some (map_context (globalContext s) None)) = Ok w
              ∧ lookup_prop (targetKey config) r = Some w)
    ∧ lookup_prop "avatar" r = Some VUndefined.
Proof.
  intros s src.
  destruct (map_assigns_located_values s UserDto None src
              (VObj [("username", VStr "john_doe"); ("avatar", VUndefined);
                     ("email", VUndefined); ("isAdult", VBool true)])
              (snd (Mapper.map src UserDto None s)))
    as (mapper & r & Hm & Hr & Hvalues & _).
  - apply reachable_initial.
  - refine (bool_decide_unpack _ _). vm_compute. exact I.
  - reflexivity.
  - apply injective_projections; [vm_compute; reflexivity|reflexivity].
  - exists mapper, r. injection Hr as <-. split; [done|]. split; [|done].
    vm_compute. reflexivity.
Defined.

(** X13 (a compiled mapper calls its collaborators in order). When a
    compiled mapper returns on a source that is not [null], it has
    constructed the target exactly once, first; then looked up every
    path mapping, in the order of the declarations; then called every
    transform, in that order; and nothing else. *)
Theorem invoke_calls_in_order mapper src context s v s' :
  is_nullish src = false →
  invoke mapper src context s = (Ok v, s') →
  trace s' = rev (transform_events (transformMappings mapper))
               ++ rev (path_events (pathMappings mapper))
               ++ EvConstruct (captured_targetType mapper) :: trace s.
Proof.
  intros Hsrc. unfold invoke. rewrite Hsrc.
  cbv [bind construct modify get ret].
  set (T := captured_targetType mapper).
  set (s0 := log (EvConstruct T) s).
  destruct (apply_pathMappings (pathMappings mapper) src
              (instance_fields (classes s0 T)) s0) as [[r1|e] s1] eqn:Hpaths;
    [|done].
  apply apply_pathMappings_trace in Hpaths.
  pose proof (apply_transformMappings_spec (transformMappings mapper) src context
                r1 s1) as Htm.
  simpl in Htm.
  destruct (apply_transformMappings (transformMappings mapper) src context r1 s1)
    as [[r2|e] s2]; [|done].
  simpl in Htm. destruct Htm as (Htrace & _). intros [= <- <-].
  by rewrite Htrace, Hpaths.
Qed.

(** The mapper compiled for [UserDto], called on the entity of the
    scenario. *)
Lemma invoke_calls_in_order_witness :
  let mapper := built_mapper (initial_state program) UserDto
                  (declarations (initial_state program) UserDto) in
  trace (snd (invoke mapper userEntity None (initial_state program))) =
    [EvTransform "isAdult"; EvPathLookup "email"; EvPathLookup "avatar";
     EvPathLookup "username"; EvConstruct UserDto].
Proof.
  intros mapper.
  apply (invoke_calls_in_order mapper userEntity None (initial_state program)
           (VObj [("username", VStr "john_doe"); ("avatar", VStr "u");
                  ("email", VStr "john@x.com"); ("isAdult", VBool true)])).
  - reflexivity.
  - apply injective_projections; [vm_compute; reflexivity|reflexivity].
Defined.

Lemma apply_transformMappings_throw called mapping rest src context result s e :
  (∀ m, m ∈ called → ∃ w, tm_transform m src context = Ok w) →
  tm_transform mapping src context = Throw e →
  let run :=
    apply_transformMappings (called ++ mapping :: rest) src context result s in
  fst run = Throw e
  ∧ trace (snd run) = rev (transform_events (called ++ [mapping])) ++ trace s.
Proof.
  intros Hcalled Hthrow. revert result s.
  induction called as [|m called IH]; intros result s; simpl.
  - cbv [bind modify lift]. by rewrite Hthrow.
  - cbv [bind modify lift]. fold apply_transformMappings.
    destruct (Hcalled m) as [w Hw]; [by left|]. rewrite Hw.
    destruct (IH (λ m' Hin, Hcalled m' (list_elem_of_further _ _ _ Hin))
                 (set_prop (tm_target m) w result)
                 (log (EvTransform (tm_target m)) s)) as [Hfst Htrace].
    simpl in Hfst, Htrace.
    destruct (apply_transformMappings (called ++ mapping :: rest) src context _ _)
      as [[r|e'] s']; simpl in *; [done|].
    split; [done|]. rewrite Htrace. by rewrite <- !app_assoc.
Qed.

(** X14 (a transform's exception is the call's). When the mapper has only
    paths as path sources and one of its transforms throws on the source,
    those before it having returned, the compiled mapper throws that very
    exception; the transforms after it are not called; and [Mapper.map]
    lets the exception through to its caller. *)
Theorem transform_exception_propagates mapper src context called mapping rest e :
  is_nullish src = false →
  (∀ pm, pm ∈ pathMappings mapper → ∃ path, pm_source pm = SourcePath path) →
  transformMappings mapper = called ++ mapping :: rest →
  (∀ m, m ∈ called → ∃ w, tm_transform m src context = Ok w) →
  tm_transform mapping src context = Throw e →
  (∀ s,
     fst (invoke mapper src context s) = Throw e
     ∧ trace (snd (invoke mapper src context s)) =
         rev (transform_events (called ++ [mapping]))
           ++ rev (path_events (pathMappings mapper))
           ++ EvConstruct (captured_targetType mapper) :: trace s)
  ∧ (∀ T options s,
       fst (MapperFactory.createMapper T options s) = Ok mapper →
       context = Some (map_context (globalContext s) options) →
       fst (Mapper.map src T options s) = Throw e).
Proof.
  intros Hsrc Hpaths Hsplit Hcalled Hthrow.
  assert (∀ s,
     fst (invoke mapper src context s) = Throw e
     ∧ trace (snd (invoke mapper src context s)) =
         rev (transform_events (called ++ [mapping]))
           ++ rev (path_events (pathMappings mapper))
           ++ EvConstruct (captured_targetType mapper) :: trace s) as Hinvoke.
  { intros s. unfold invoke. rewrite Hsrc.
    cbv [bind construct modify get ret].
    set (T := captured_targetType mapper).
    set (s0 := log (EvConstruct T) s).
    destruct (apply_pathMappings_returns (pathMappings mapper) src
                (instance_fields (classes s0 T)) s0 Hpaths) as (r1 & s1 & Hrun).
    rewrite Hrun. apply apply_pathMappings_trace in Hrun.
    rewrite Hsplit.
    destruct (apply_transformMappings_throw called mapping rest src context r1 s1 e
                Hcalled Hthrow) as [Hfst Htrace].
    simpl in Hfst, Htrace.
    destruct (apply_transformMappings (called ++ mapping :: rest) src context r1 s1)
      as [[r2|e'] s2]; simpl in *; [done|].
    injection Hfst as ->. split; [done|]. by rewrite Htrace, Hrun. }
  split; [done|].
  intros T options s Hm ->.
  destruct (MapperFactory.createMapper T options s) as [r0 s1] eqn:Hrun.
  simpl in Hm. subst r0.
  rewrite (map_run src T options s mapper s1 Hsrc Hrun).
  rewrite (map_context_global _ (globalContext s)). apply Hinvoke.
Qed.

(** A mapper whose second transform reads [src.profile.bio], called on a
    source without a profile: the third transform is not called. *)
Lemma transform_exception_propagates_witness :
  let mapper :=
    {| fn_id := 0; captured_targetType := UserDto;
       pathMappings := [{| pm_target := "username"; pm_source := SourcePath "username" |}];
       transformMappings :=
         [{| tm_target := "isAdult"; tm_transform := isAdult_fn |};
          {| tm_target := "bio"; tm_transform := bio_fn |};
          {| tm_target := "isAdultToo"; tm_transform := isAdult_fn |}] |} in
  let src := VObj [("username", VStr "john_doe"); ("age", VNum 25)] in
  fst (invoke mapper src None (initial_state program)) = Throw TypeError
  ∧ trace (snd (invoke mapper src None (initial_state program))) =
      [EvTransform "bio"; EvTransform "isAdult"; EvPathLookup "username";
       EvConstruct UserDto].
Proof.
  intros mapper src.
  apply (transform_exception_propagates mapper src None
           [{| tm_target := "isAdult"; tm_transform := isAdult_fn |}]
           {| tm_target := "bio"; tm_transform := bio_fn |}
           [{| tm_target := "isAdultToo"; tm_transform := isAdult_fn |}]
           TypeError).
  - reflexivity.
  - intros pm [->|[]%elem_of_nil]%elem_of_cons. by eexists.
  - reflexivity.
  - intros m [->|[]%elem_of_nil]%elem_of_cons. by eexists.
  - reflexivity.
Defined.

(** ** The facade *)

Lemma signature_after_sort options l s :
  signature_array options = Some l →
  signature options (set_arrays <[l := sort (arrays s !!! l)]> s) = signature options s.
Proof.
  destruct options as [[[l1|] [l2|] g e]|]; simpl; intros [= ->].
  - apply signature_pick_permuted. simpl. rewrite lookup_total_insert_eq.
    apply sort_Permutation.
  - apply signature_pick_permuted. simpl. rewrite lookup_total_insert_eq.
    apply sort_Permutation.
  - apply signature_omit_permuted. simpl. rewrite lookup_total_insert_eq.
    apply sort_Permutation.
Qed.

Lemma signature_after_getOptionsKey options s :
  signature options (snd (MappingRegistry.getOptionsKey options s))
    = signature options s.
Proof.
  rewrite getOptionsKey_state.
  destruct (signature_array options) as [l|] eqn:Harr; [|done].
  by apply signature_after_sort.
Qed.

(** Deriving the signature again, after a compilation, derives the same
    signature. *)
Lemma signature_after_createMapper T options s :
  signature options (snd (MapperFactory.createMapper T options s))
    = signature options s.
Proof.
  rewrite <- (signature_after_getOptionsKey options s).
  apply signature_arrays, createMapper_arrays.
Qed.

Lemma signature_after_map src T options s :
  signature options (snd (Mapper.map src T options s)) = signature options s.
Proof.
  destruct (is_nullish src) eqn:Hsrc.
  { unfold Mapper.map. by rewrite Hsrc. }
  rewrite <- (signature_after_getOptionsKey options s).
  by apply signature_arrays, map_arrays.
Qed.

(** X15 ([extras] never select a mapper). Neither the signature nor the
    projection reads [options.extras]. Options that differ in their
    [extras] only compile alike, and a later call with other [extras] is
    served the function instance the first call compiled; options that
    carry nothing but [extras] share the mapper of the option-free
    call. *)
Theorem extras_share_compiled_mapper T o e s :
  let with_extras :=
    MapOptions.Build_t (MapOptions.pick o) (MapOptions.omit o) (MapOptions.group o) e in
  MapperFactory.createMapper T (Some with_extras) s
    = MapperFactory.createMapper T (Some o) s
  ∧ fst (MapperFactory.createMapper T (Some with_extras)
           (snd (MapperFactory.createMapper T (Some o) s)))
    = fst (MapperFactory.createMapper T (Some o) s)
  ∧ MapperFactory.createMapper T (Some (MapOptions.Build_t None None None e)) s
    = MapperFactory.createMapper T None s.
Proof.
  split; [by destruct o|]. split; [|done].
  set (s1 := snd (MapperFactory.createMapper T (Some o) s)).
  assert (MapperFactory.createMapper T
            (Some (MapOptions.Build_t (MapOptions.pick o) (MapOptions.omit o)
                     (MapOptions.group o) e)) s1
          = MapperFactory.createMapper T (Some o) s1) as -> by (by destruct o).
  destruct (getOptionsKey_run (Some o) s) as (k & _ & Hsig).
  pose proof (createMapper_cached T (Some o) s k Hsig) as Hcached.
  fold s1 in Hcached.
  destruct (cached s1 T k) as [mapper|] eqn:Hc; [|done].
  injection Hcached as <-.
  apply (createMapper_hit T (Some o) s1 k mapper); [|done].
  unfold s1. by rewrite signature_after_createMapper.
Qed.

(** X16 (what was compiled is found by inspection). After
    [MapperFactory.createMapper], and after [Mapper.map] on a source that
    is not [null] (whether the mapping returned or a transform threw),
    [Mapper.getCompiledMapper] with the same options returns the mapper
    that was compiled, not [undefined]. *)
Theorem getCompiledMapper_finds_compiled T options s :
  ∃ mapper,
    fst (MapperFactory.createMapper T options s) = Ok mapper
    ∧ fst (Mapper.getCompiledMapper T options
             (snd (MapperFactory.createMapper T options s))) = Ok (Some mapper)
    ∧ ∀ src, is_nullish src = false →
        fst (Mapper.getCompiledMapper T options (snd (Mapper.map src T options s)))
          = Ok (Some mapper).
Proof.
  destruct (createMapper_returns T options s) as [mapper Hm].
  destruct (getOptionsKey_run options s) as (k & _ & Hsig).
  pose proof (createMapper_cached T options s k Hsig) as Hcached.
  rewrite Hm in Hcached.
  destruct (cached (snd (MapperFactory.createMapper T options s)) T k)
    as [mapper'|] eqn:Hc; [|done].
  injection Hcached as ->.
  exists mapper. split; [done|]. split.
  - destruct (Mapper_getCompiledMapper_run T options
                (snd (MapperFactory.createMapper T options s))) as (k' & Hk' & ->).
    rewrite signature_after_createMapper, Hsig in Hk'. injection Hk' as <-.
    simpl. by rewrite Hc.
  - intros src Hsrc.
    destruct (Mapper_getCompiledMapper_run T options
                (snd (Mapper.map src T options s))) as (k' & Hk' & ->).
    rewrite signature_after_map, Hsig in Hk'. injection Hk' as <-.
    simpl. f_equal.
    destruct (MapperFactory.createMapper T options s) as [r0 s1] eqn:Hrun.
    simpl in Hm, Hc. subst r0.
    rewrite (map_run src T options s mapper s1 Hsrc Hrun).
    by apply invoke_cache_extends.
Qed.

(** *** The global context *)

Lemma igc_ret {A} (a : A) : ignores_globalContext (ret a).
Proof. by intros f s. Qed.

Lemma igc_throw {A} e : ignores_globalContext (@throw A e).
Proof. by intros f s. Qed.

Lemma igc_lift {A} (r : Result A) : ignores_globalContext (lift r).
Proof. by intros f s. Qed.

Lemma igc_bind {A B} (c : M A) (k : A → M B) :
  ignores_globalContext c → (∀ a, ignores_globalContext (k a)) →
  ignores_globalContext (bind c k).
Proof.
  intros Hc Hk f s. unfold bind. rewrite Hc.
  destruct (c s) as [[a|e] s1]; simpl; [apply Hk|done].
Qed.

Lemma igc_getEntry T : ignores_globalContext (MappingRegistry.getEntry T).
Proof.
  intros f s. rewrite !getEntry_run. simpl. by destruct (registry s !! T).
Qed.

Lemma igc_getOptionsKey options :
  ignores_globalContext (MappingRegistry.getOptionsKey options).
Proof.
  intros f s. destruct options as [[[l|] [l'|] [g|] e]|]; simpl; try done.
  by destruct (truthy_string g).
Qed.

Lemma igc_getCompiledMapper T optionsKey :
  ignores_globalContext (MappingRegistry.getCompiledMapper T optionsKey).
Proof. by intros f s. Qed.

Lemma igc_setCompiledMapper T optionsKey mapper :
  ignores_globalContext (MappingRegistry.setCompiledMapper T optionsKey mapper).
Proof. by intros f s. Qed.

Lemma igc_getPropertiesToMap entry options :
  ignores_globalContext (MapperFactory.getPropertiesToMap entry options).
Proof.
  intros f s. apply injective_projections; simpl.
  - by apply getPropertiesToMap_arrays.
  - by rewrite !getPropertiesToMap_state.
Qed.

Lemma igc_buildMapper T entry properties :
  ignores_globalContext (MapperFactory.buildMapper T entry properties).
Proof. intros f s. by rewrite !buildMapper_run. Qed.

Lemma igc_createMapper T options :
  ignores_globalContext (MapperFactory.createMapper T options).
Proof.
  unfold MapperFactory.createMapper.
  apply igc_bind; [apply igc_getEntry|intros entry].
  apply igc_bind; [apply igc_getOptionsKey|intros k].
  apply igc_bind; [apply igc_getCompiledMapper|intros [mapper|]];
    [apply igc_ret|].
  apply igc_bind; [apply igc_getPropertiesToMap|intros props].
  apply igc_bind; [apply igc_buildMapper|intros mapper].
  apply igc_bind; [apply igc_setCompiledMapper|intros _]. apply igc_ret.
Qed.

Lemma igc_getNestedValue obj path : ignores_globalContext (getNestedValue obj path).
Proof.
  intros f s. unfold getNestedValue.
  destruct (is_nullish obj); [done|].
  destruct (negb (includes_dot path)); [by destruct (BLOCKED_KEYS_has path)|].
  cbv [bind cached_segments get modify ret lift]. simpl.
  by destruct (pathCache s !! path).
Qed.

Lemma igc_apply_pathMappings mappings src result :
  ignores_globalContext (apply_pathMappings mappings src result).
Proof.
  revert result. induction mappings as [|mapping rest IH]; intros result; simpl.
  - apply igc_ret.
  - apply igc_bind; [by intros f s|intros _].
    apply igc_bind; [|intros v; apply IH].
    unfold resolve_source. destruct (pm_source mapping).
    + apply igc_getNestedValue.
    + destruct (is_nullish src); [apply igc_ret|apply igc_throw].
Qed.

Lemma igc_apply_transformMappings mappings src context result :
  ignores_globalContext (apply_transformMappings mappings src context result).
Proof.
  revert result. induction mappings as [|mapping rest IH]; intros result; simpl.
  - apply igc_ret.
  - apply igc_bind; [by intros f s|intros _].
    apply igc_bind; [apply igc_lift|intros v; apply IH].
Qed.

Lemma igc_invoke mapper src context :
  ignores_globalContext (invoke mapper src context).
Proof.
  unfold invoke. destruct (is_nullish src); [apply igc_ret|].
  apply igc_bind; [by intros f s|intros r0].
  apply igc_bind; [apply igc_apply_pathMappings|intros r1].
  apply igc_bind; [apply igc_apply_transformMappings|intros r2]. apply igc_ret.
Qed.

Lemma igc_map_elements mapper context sources :
  ignores_globalContext (Mapper.map_elements mapper context sources).
Proof.
  induction sources as [|x rest IH]; simpl; [apply igc_ret|].
  apply igc_bind; [|intros r].
  - destruct (is_nullish x); simpl; [apply igc_ret|apply igc_invoke].
  - apply igc_bind; [apply IH|intros rs]. apply igc_ret.
Qed.

(** The context of a call holds nothing of the global context. *)
Lemma igc_call_context options : ignores_globalContext (Mapper.call_context options).
Proof. by intros f s. Qed.

Lemma igc_map src T options : ignores_globalContext (Mapper.map src T options).
Proof.
  unfold Mapper.map. destruct (is_nullish src); [apply igc_ret|].
  apply igc_bind; [apply igc_createMapper|intros mapper].
  apply igc_bind; [apply igc_call_context|intros context]. apply igc_invoke.
Qed.

Lemma igc_mapArray sources T options :
  ignores_globalContext (Mapper.mapArray sources T options).
Proof.
  unfold Mapper.mapArray.
  destruct (negb (truthy sources) || negb (isArray sources)); [apply igc_ret|].
  apply igc_bind; [apply igc_createMapper|intros mapper].
  apply igc_bind; [apply igc_call_context|intros context].
  apply igc_bind; [apply igc_map_elements|intros rs]. apply igc_ret.
Qed.

(** X17 (the global context never reaches a mapping). Whatever context
    [setGlobalContext] installs, [Mapper.map] and [Mapper.mapArray] return
    what they return without it, and leave the state they would leave,
    but for the context itself: the context they hand to the transforms
    overrides [extras], [depth] and [visited], which is all a context
    has. The function [Mapper.createMapper] returns binds the [extras] of
    its options as well, never the global ones. *)
Theorem globalContext_never_reaches_map context T options s :
  let s' := snd (Mapper.setGlobalContext context s) in
  let installed := set_globalContext (λ g, spread_context g context) in
  (∀ src,
     Mapper.map src T options s' =
       (fst (Mapper.map src T options s), installed (snd (Mapper.map src T options s))))
  ∧ (∀ sources,
       Mapper.mapArray sources T options s' =
         (fst (Mapper.mapArray sources T options s),
          installed (snd (Mapper.mapArray sources T options s))))
  ∧ ∃ f, fst (Mapper.createMapper T options s') = Ok f
         ∧ MappingContext.extras (bound_context f) = options_extras options.
Proof.
  simpl. split_and!.
  - intros src. apply igc_map.
  - intros sources. apply igc_mapArray.
  - unfold Mapper.createMapper.
    destruct (MapperFactory.createMapper T options
                (set_globalContext (λ g, spread_context g context) s))
      as [[mapper|e] s1] eqn:Hrun.
    + rewrite (bind_Ok _ _ _ _ _ Hrun). by eexists.
    + destruct (createMapper_returns T options
                  (set_globalContext (λ g, spread_context g context) s)) as [m Hm].
      by rewrite Hrun in Hm.
Qed.

Lemma traverse_ext {A B} (f g : A → Result B) xs :
  (∀ x, f x = g x) → traverse f xs = traverse g xs.
Proof.
  intros Hfg. induction xs as [|x rest IH]; simpl; [done|]. by rewrite Hfg, IH.
Qed.

(** X18 ([mapArray] maps each element as [map] does, without
    transforms). In a reachable state, for a type none of whose
    declarations is a transform (so that no function of the caller sees
    the context a call builds), [Mapper.mapArray] on an array returns the
    array of what [Mapper.map] returns, in that state, on each element in
    turn: compiling once for the whole array, instead of looking the
    mapper up for each element, makes no difference to the results. *)
Theorem mapArray_as_map s T options elems :
  reachable s →
  (∀ config, config ∈ declarations s T → as_transform config = None) →
  fst (Mapper.mapArray (VArr elems) T options s) =
    Result_map VArr (traverse (λ x, fst (Mapper.map x T options s)) elems)
  ∧ ∃ mapper,
      fst (MapperFactory.createMapper T options s) = Ok mapper
      ∧ transformMappings mapper = [].
Proof.
  intros Hreach Hpaths. pose proof (reachable_pathCache_ok s Hreach) as Hok.
  destruct (createMapper_compiled T options s (reachable_valid s Hreach))
    as (mapper & props & Hm & HT & Hsub & Hpm & Htm).
  assert (transformMappings mapper = []) as Hnone.
  { rewrite Htm. clear -Hsub Hpaths.
    assert (∀ prop, prop ∈ props → as_transform prop = None) as Hprops.
    { intros prop Hin. apply Hpaths. eapply elem_of_sublist in Hin; [|done].
      by apply list_elem_of_filter in Hin as [_ ?]. }
    clear Hsub. induction props as [|prop rest IH]; simpl; [done|].
    rewrite (Hprops prop) by apply list_elem_of_here.
    apply IH. intros p Hin. apply Hprops. by right. }
  split; [|by exists mapper].
  destruct (MapperFactory.createMapper T options s) as [r0 s1] eqn:Hrun.
  simpl in Hm. subst r0.
  pose proof (createMapper_pathCache_ok T options s Hok) as Hok1.
  rewrite Hrun in Hok1. simpl in Hok1.
  unfold Mapper.mapArray. simpl. rewrite (bind_Ok _ _ _ _ _ Hrun).
  cbv [bind Mapper.call_context get ret].
  pose proof (map_elements_result mapper (map_context (globalContext s1) options)
                elems s1 s1) as Hres.
  destruct (Mapper.map_elements mapper (map_context (globalContext s1) options)
              elems s1) as [r s2].
  simpl in Hres. rewrite Hres by done.
  assert (∀ x, (if is_nullish x then Ok VNull
                else fst (invoke mapper x
                            (Some (map_context (globalContext s1) options)) s1))
               = fst (Mapper.map x T options s)) as Heach.
  { intros x. destruct (is_nullish x) eqn:Hx.
    - unfold Mapper.map. by rewrite Hx.
    - by rewrite (map_run x T options s mapper s1 Hx Hrun). }
  rewrite (traverse_ext _ _ elems Heach).
  by destruct (traverse (λ x, fst (Mapper.map x T options s)) elems).
Qed.

(** The class of the tests whose declarations are all paths; the second
    element is [null]. *)
Lemma mapArray_as_map_witness :
  fst (Mapper.mapArray (VArr [userEntity; VNull; userEntity]) UserWithGroupsDto None
         (initial_state test_program)) =
    Result_map VArr
      (traverse
         (λ x, fst (Mapper.map x UserWithGroupsDto None (initial_state test_program)))
         [userEntity; VNull; userEntity]).
Proof.
  apply (mapArray_as_map (initial_state test_program) UserWithGroupsDto None
           [userEntity; VNull; userEntity]).
  - apply reachable_initial.
  - intros config Hin. vm_compute in Hin.
    repeat (apply elem_of_cons in Hin as [->|Hin]; [reflexivity|]).
    by apply elem_of_nil in Hin.
Defined.

Lemma Mapper_createMapper_run T options s mapper s1 :
  MapperFactory.createMapper T options s = (Ok mapper, s1) →
  Mapper.createMapper T options s =
    (Ok {| bound_fn_id := next_fn_id s1;
           bound_mapper := mapper;
           bound_context := bound_call_context (globalContext s1) options |},
     set_next_fn_id S s1).
Proof. intros Hrun. unfold Mapper.createMapper. by rewrite (bind_Ok _ _ _ _ _ Hrun). Qed.

Lemma createMapper_globalContext T options :
  respects (keeps globalContext) (MapperFactory.createMapper T options).
Proof.
  intros s. unfold keeps. destruct (createMapper_run T options s) as (k & _ & H).
  assert (globalContext (snd (MappingRegistry.getOptionsKey options
                          (snd (MappingRegistry.getEntry T s)))) = globalContext s)
    as Hg.
  { destruct (getOptionsKey_frame options (snd (MappingRegistry.getEntry T s)))
      as (_ & _ & _ & _ & -> & _). rewrite getEntry_run. by destruct (registry s !! T). }
  destruct (cached s T k); [|destruct H as (? & _ & H)]; by rewrite H.
Qed.

(** X19 ([Mapper.createMapper] wraps the cached mapper in a new
    function). In a reachable state [Mapper.createMapper] returns a
    function of its own, whose identity no compiled mapper in the cache
    has, around the compiled mapper [MapperFactory.createMapper] returns
    for the options, with a context made of the options' [extras] and the
    global [depth] and [visited]. Asked again, it returns another
    function, around the same compiled mapper. Called on [null] or
    [undefined], the function returns [null] and changes nothing. *)
Theorem createMapper_wraps_compiled s T options :
  reachable s →
  ∃ mapper f s1,
    fst (MapperFactory.createMapper T options s) = Ok mapper
    ∧ Mapper.createMapper T options s = (Ok f, s1)
    ∧ bound_mapper f = mapper
    ∧ bound_context f = bound_call_context (globalContext s) options
    ∧ (∀ T' optionsKey' mapper',
         cached s1 T' optionsKey' = Some mapper' → fn_id mapper' ≠ bound_fn_id f)
    ∧ (∃ f', fst (Mapper.createMapper T options s1) = Ok f'
             ∧ bound_mapper f' = mapper
             ∧ bound_fn_id f' ≠ bound_fn_id f)
    ∧ (∀ src sx, is_nullish src = true → call_bound f src sx = (Ok VNull, sx)).
Proof.
  intros Hreach.
  destruct (createMapper_returns T options s) as [mapper Hm].
  destruct (MapperFactory.createMapper T options s) as [r0 s1] eqn:Hrun.
  simpl in Hm. subst r0.
  pose proof (Mapper_createMapper_run T options s mapper s1 Hrun) as Hbound.
  pose proof (createMapper_globalContext T options s) as Hg.
  pose proof (createMapper_ids_fresh T options s (reachable_ids_fresh s Hreach))
    as Hfresh.
  unfold keeps in Hg. rewrite Hrun in Hg, Hfresh. simpl in Hg, Hfresh.
  eexists mapper, _, _. split; [done|]. split; [exact Hbound|]. simpl.
  split; [done|]. split; [by rewrite Hg|]. split_and!.
  - intros T' k' m' Hc. apply Hfresh in Hc. lia.
  - set (s2 := set_next_fn_id S s1).
    destruct (getOptionsKey_run options s) as (k & _ & Hsig).
    pose proof (createMapper_cached T options s k Hsig) as Hcached.
    rewrite Hrun in Hcached. simpl in Hcached.
    destruct (cached s1 T k) as [mapper'|] eqn:Hc; [|done].
    injection Hcached as ->.
    assert (signature options s2 = Ok k) as Hsig2.
    { rewrite <- Hsig, <- (signature_after_createMapper T options s), Hrun.
      by apply signature_arrays. }
    pose proof (createMapper_hit T options s2 k mapper Hsig2 Hc) as Hhit.
    destruct (MapperFactory.createMapper T options s2) as [r0 s3] eqn:Hrun2.
    simpl in Hhit. subst r0.
    rewrite (Mapper_createMapper_run T options s2 mapper s3 Hrun2).
    eexists. split; [done|]. split; [done|]. simpl.
    destruct (createMapper_run T options s2) as (k' & Hk' & H).
    rewrite Hsig2 in Hk'. injection Hk' as <-.
    change (cached s2 T k) with (cached s1 T k) in H. rewrite Hc, Hrun2 in H.
    injection H as ->.
    destruct (getOptionsKey_frame options (snd (MappingRegistry.getEntry T s2)))
      as (_ & _ & _ & _ & _ & -> & _).
    rewrite getEntry_run. destruct (registry s2 !! T); simpl; lia.
  - intros src sx Hsrc. unfold call_bound, invoke. by rewrite Hsrc.
Qed.

(** Two mappers for [UserDto], asked for one after the other. *)
Lemma createMapper_wraps_compiled_witness :
  let s := initial_state program in
  ∃ mapper f f',
    fst (MapperFactory.createMapper UserDto None s) = Ok mapper
    ∧ fst (Mapper.createMapper UserDto None s) = Ok f
    ∧ fst (Mapper.createMapper UserDto None
             (snd (Mapper.createMapper UserDto None s))) = Ok f'
    ∧ bound_mapper f = mapper ∧ bound_mapper f' = mapper
    ∧ bound_fn_id f' ≠ bound_fn_id f.
Proof.
  intros s.
  destruct (createMapper_wraps_compiled s UserDto None (reachable_initial program))
    as (mapper & f & s1 & Hm & Hf & Hbound & _ & _ & (f' & Hf' & Hbound' & Hne) & _).
  exists mapper, f, f'. rewrite Hf. simpl. by rewrite Hf'.
Defined.

(** ** Decorators *)

Lemma elem_of_Set_to_array x xs : x ∈ Set_to_array xs ↔ x ∈ xs.
Proof.
  induction xs as [|y rest IH]; simpl; [done|].
  rewrite !elem_of_cons, list_elem_of_filter, IH.
  destruct (decide (x = y)) as [->|Hne]; [split; by left|].
  split; [intros [?|[_ ?]]; [done|by right]|intros [?|?]; [done|by right]].
Qed.

Lemma Set_to_array_NoDup xs : NoDup (Set_to_array xs).
Proof.
  induction xs as [|y rest IH]; simpl; [constructor|].
  apply NoDup_cons. split.
  - rewrite list_elem_of_filter. by intros [? _].
  - by apply NoDup_filter.
Qed.

Lemma add_to_groups_lookup key gs fieldGroups g k :
  k ∈ default ∅ (add_to_groups key gs fieldGroups !! g) ↔
  (k = key ∧ g ∈ gs) ∨ k ∈ default ∅ (fieldGroups !! g).
Proof.
  revert fieldGroups. induction gs as [|g0 rest IH]; intros fieldGroups; simpl.
  - split; [by right|]. by intros [[_ []%elem_of_nil]|?].
  - rewrite IH, elem_of_cons. destruct (decide (g = g0)) as [->|Hne].
    + rewrite lookup_insert_eq. simpl. rewrite elem_of_union, elem_of_singleton.
      split.
      * intros [[-> ?]|[->|?]]; [left; split; [done|by right]
                                |left; split; [done|by left]|by right].
      * intros [[-> [_|?]]|?]; [by right; left|left; by split|by right; right].
    + rewrite lookup_insert_ne by done. split.
      * intros [[-> ?]|?]; [left; split; [done|by right]|by right].
      * intros [[-> [?|?]]|?]; [done|left; by split|by right].
Qed.

(** [metadata_ok] in terms of [Map.get]. *)
Lemma metadata_ok_get info :
  metadata_ok info ↔
  let mappings := default [] (property_mappings info) in
  let fieldGroups := default ∅ (field_groups info) in
  NoDup mappings.*1
  ∧ (∀ key config, Map_get key mappings = Some config →
       targetKey config = key ∧ NoDup (groups config))
  ∧ (∀ group key,
       key ∈ default ∅ (fieldGroups !! group) ↔
       ∃ config, Map_get key mappings = Some config ∧ group ∈ groups config).
Proof.
  unfold metadata_ok. simpl. split; intros (Hnd & Hkeys & Hindex).
  - split_and!; [done| |].
    + intros key config Hget. apply Hkeys. by apply Map_get_elem_of.
    + intros group key. rewrite Hindex. split; intros (config & Hin & Hg);
        exists config; (split; [|done]); by apply Map_get_elem_of.
  - split_and!; [done| |].
    + intros key config Hin. apply Hkeys. by apply Map_get_elem_of.
    + intros group key. rewrite Hindex. split; intros (config & Hin & Hg);
        exists config; (split; [|done]); by apply Map_get_elem_of.
Qed.

(** A decorator that rewrites the config of [key], and adds [key] to the
    groups [gs] of the index, keeps the metadata well formed when the new
    config lists the old groups and [gs]. *)
Lemma metadata_ok_update info info' key
    (update : PropertyMappingConfig → PropertyMappingConfig) gs :
  let mappings := default [] (property_mappings info) in
  let config := default (createDefaultConfig key) (Map_get key mappings) in
  default [] (property_mappings info') = Map_set key (update config) mappings →
  default ∅ (field_groups info') =
    add_to_groups key gs (default ∅ (field_groups info)) →
  targetKey (update config) = targetKey config →
  (NoDup (groups config) → NoDup (groups (update config))) →
  (∀ g, g ∈ groups (update config) ↔ g ∈ groups config ∨ g ∈ gs) →
  metadata_ok info → metadata_ok info'.
Proof.
  intros mappings config Hmappings Hfg Htarget Hnd Hgroups.
  rewrite !metadata_ok_get. simpl. rewrite Hmappings, Hfg.
  intros (Hkeys & Hconfigs & Hindex).
  fold mappings in Hkeys, Hconfigs, Hindex.
  assert (targetKey config = key ∧ NoDup (groups config) ∧
          ∀ g, g ∈ groups config ↔
               key ∈ default ∅ (default ∅ (field_groups info) !! g))
    as (Hkey & Hnd0 & Hmine).
  { unfold config. destruct (Map_get key mappings) as [c|] eqn:Hget; simpl.
    - split; [by apply Hconfigs|]. split; [by apply (Hconfigs key)|].
      intros g. rewrite Hindex. split.
      + intros Hg. by exists c.
      + intros (c' & Hc' & Hg). by simplify_eq.
    - split; [done|]. split; [constructor|].
      intros g. rewrite Hindex. split; [by intros []%elem_of_nil|].
      intros (c' & Hc' & _). congruence. }
  split_and!.
  - by apply Map_set_NoDup.
  - intros k c. rewrite Map_get_set. case_decide as Hk.
    + intros [= <-]. subst k. split; [congruence|by apply Hnd].
    + apply Hconfigs.
  - intros g k. rewrite add_to_groups_lookup. split.
    + intros [[-> Hg]|Hk].
      * exists (update config). rewrite Map_get_set, decide_True by done.
        split; [done|]. apply Hgroups. by right.
      * destruct (decide (k = key)) as [->|Hne].
        -- exists (update config). rewrite Map_get_set, decide_True by done.
           split; [done|]. apply Hgroups. left. by apply Hmine.
        -- apply Hindex in Hk as (c & Hget & Hg). exists c.
           by rewrite Map_get_set, decide_False.
    + intros (c & Hget & Hg). rewrite Map_get_set in Hget.
      case_decide as Hk.
      * injection Hget as <-. subst k. apply Hgroups in Hg as [Hg|Hg].
        -- right. by apply Hmine.
        -- by left.
      * right. apply Hindex. by exists c.
Qed.

Lemma decorate_metadata_ok d key c :
  metadata_ok (class_info c) → metadata_ok (class_info (decorate d key c)).
Proof.
  destruct d as [src| |gs| |T]; simpl; [| | | |done].
  - apply (metadata_ok_update _ _ key
             (λ config,
                {| targetKey := targetKey config; source := src;
                   isTransform := match src with SourceFn _ => true | _ => false end;
                   groups := groups config; ignore := ignore config |}) []);
      simpl; [by destruct src|by destruct (field_groups (class_info c))
             |done|done|].
    intros g'. rewrite elem_of_nil. tauto.
  - apply (metadata_ok_update _ _ key
             (λ config,
                {| targetKey := targetKey config; source := SourcePath key;
                   isTransform := false;
                   groups := groups config; ignore := ignore config |}) []);
      simpl; [done|by destruct (field_groups (class_info c))|done|done|].
    intros g'. rewrite elem_of_nil. tauto.
  - apply (metadata_ok_update _ _ key
             (λ config,
                {| targetKey := targetKey config; source := source config;
                   isTransform := isTransform config;
                   groups := Set_to_array (groups config ++ gs);
                   ignore := ignore config |}) gs);
      simpl; [done|done|done|intros _; apply Set_to_array_NoDup|].
    intros g'. by rewrite elem_of_Set_to_array, elem_of_app.
  - apply (metadata_ok_update _ _ key
             (λ config,
                {| targetKey := targetKey config; source := source config;
                   isTransform := isTransform config;
                   groups := groups config; ignore := true |}) []);
      simpl; [done|by destruct (field_groups (class_info c))|done|done|].
    intros g'. rewrite elem_of_nil. tauto.
Qed.

Lemma metadata_ok_undecorated fields : metadata_ok (class_info (undecorated fields)).
Proof.
  unfold metadata_ok. simpl. split_and!; [constructor| |].
  - by intros key config []%elem_of_nil.
  - intros group key. rewrite lookup_empty. simpl. split; [by intros []%elem_of_empty|].
    by intros (config & []%elem_of_nil & _).
Qed.

Lemma decorate_instance_fields d key c :
  instance_fields (class_info (decorate d key c)) = instance_fields (class_info c).
Proof. by destruct d. Qed.

Lemma define_class_snoc fields decorators d :
  define_class fields (decorators ++ [d]) =
    decorate d.1 d.2 (define_class fields decorators).
Proof. unfold define_class. by rewrite foldl_app. Qed.

Lemma run_decorators_snoc decorators d c :
  run_decorators (decorators ++ [d]) c = decorate d.1 d.2 (run_decorators decorators c).
Proof. unfold run_decorators. by rewrite foldl_app. Qed.

Lemma run_decorators_ok decorators c :
  metadata_ok (class_info c) →
  metadata_ok (class_info (run_decorators decorators c))
  ∧ instance_fields (class_info (run_decorators decorators c))
    = instance_fields (class_info c).
Proof.
  intros Hok. induction decorators as [|d rest IH] using rev_ind; [done|].
  rewrite run_decorators_snoc. destruct IH as [IH1 IH2]. split.
  - by apply decorate_metadata_ok.
  - by rewrite decorate_instance_fields.
Qed.

Lemma define_class_ok fields decorators :
  metadata_ok (class_info (define_class fields decorators))
  ∧ instance_fields (class_info (define_class fields decorators)) = fields.
Proof.
  apply (run_decorators_ok decorators (undecorated fields)),
    metadata_ok_undecorated.
Qed.

Lemma metadata_ok_declaredKeys info :
  metadata_ok info →
  NoDup (targetKey <$> (default [] (property_mappings info)).*2).
Proof.
  intros (Hnd & Hkeys & _).
  set (mappings := default [] (property_mappings _)) in *.
  assert (targetKey <$> mappings.*2 = mappings.*1) as ->; [|done].
  clear Hnd. induction mappings as [|[k config] rest IH]; simpl; [done|].
  f_equal.
  - by apply (Hkeys k config), list_elem_of_here.
  - apply IH. intros key c Hin. apply Hkeys. by right.
Qed.

(** X20 (the decorators of a class keep its metadata well formed). The
    decorators of one class declaration, run on the metadata the class
    finds (what it inherits, for a subclass; none, for a class that
    inherits none), leave the class with well-formed metadata when what
    they found was well formed, as the empty metadata is: each config is
    stored once, under its own key, so the declared keys are distinct; a
    config lists each of its groups once; and the group index holds a key
    under a group exactly when the config of that key lists the group. The
    fields of the instances are not touched. This is what the class sees
    when its declaration ends; the maps are shared with the classes it
    inherited them from and with its subclasses, whose later decorators
    change them. *)
Theorem decorators_keep_metadata_ok decorators c :
  metadata_ok (class_info c) →
  let info := class_info (run_decorators decorators c) in
  metadata_ok info
  ∧ instance_fields info = instance_fields (class_info c)
  ∧ NoDup (targetKey <$> (default [] (property_mappings info)).*2).
Proof.
  intros Hok. simpl. destruct (run_decorators_ok decorators c Hok) as [Hok' Hfields].
  split; [done|]. split; [done|]. by apply metadata_ok_declaredKeys.
Qed.

(** The class with groups of the tests, which inherits no metadata, and a
    subclass of it that declares one more property. *)
Lemma decorators_keep_metadata_ok_witness :
  let inherited := UserWithGroupsDto_metadata in
  let info :=
    class_info
      (run_decorators [ (DAutoMap, "phone"); (DFieldGroup ["full"], "phone") ]
         inherited) in
  metadata_ok (class_info inherited)
  ∧ metadata_ok info
  ∧ targetKey <$> (default [] (property_mappings info)).*2
    = ["username"; "avatar"; "bio"; "email"; "createdAt"; "phone"].
Proof.
  intros inherited info.
  assert (metadata_ok (class_info inherited)) as Hok.
  { apply (decorators_keep_metadata_ok
             [ (DAutoMap, "username"); (DFieldGroup ["minimal"; "public"], "username");
               (DMapFrom (SourcePath "profile.avatarUrl"), "avatar");
               (DFieldGroup ["minimal"; "public"], "avatar");
               (DAutoMap, "bio"); (DFieldGroup ["public"; "full"], "bio");
               (DAutoMap, "email"); (DFieldGroup ["full"], "email");
               (DAutoMap, "createdAt"); (DFieldGroup ["full"], "createdAt") ]
             (undecorated [])).
    apply metadata_ok_undecorated. }
  split; [done|]. split; [|reflexivity].
  by apply (decorators_keep_metadata_ok
              [ (DAutoMap, "phone"); (DFieldGroup ["full"], "phone") ] inherited).
Defined.

(** X21 (decorators on one property can be stacked in any order). Two
    decorators on the same property that are about different things (the
    locator, the groups, ignoring, the nested type) leave the same
    metadata whichever runs first. Of two locators ([MapFrom] or
    [AutoMap]) on one property, the one that runs last decides the
    mapping, as if the other had not been there. *)
Theorem decorators_stack_in_any_order d1 d2 key c :
  (concern d1 ≠ concern d2 →
   decorate d1 key (decorate d2 key c) = decorate d2 key (decorate d1 key c))
  ∧ (concern d1 = Locator → concern d2 = Locator →
     class_info (decorate d1 key (decorate d2 key c)) = class_info (decorate d1 key c)).
Proof.
  split.
  - intros Hne.
    destruct d1 as [src1| |gs1| |T1], d2 as [src2| |gs2| |T2]; try done;
      unfold decorate, MapFrom, AutoMap, FieldGroup, Ignore, NestedType,
        defineMetadata_PROPERTY_MAPPINGS, defineMetadata_FIELD_GROUPS,
        defineMetadata_AUTO_MAP, defineMetadata_IGNORE, defineMetadata_NESTED_TYPE;
      simpl; rewrite ?Map_get_set_eq, ?Map_set_set; simpl;
      try destruct src1; try destruct src2; reflexivity.
  - intros H1 H2.
    destruct d1 as [src1| |gs1| |T1], d2 as [src2| |gs2| |T2]; try done;
      unfold decorate, MapFrom, AutoMap,
        defineMetadata_PROPERTY_MAPPINGS, defineMetadata_AUTO_MAP;
      simpl; rewrite ?Map_get_set_eq, ?Map_set_set; simpl;
      try destruct src1; try destruct src2; reflexivity.
Qed.

(** [@FieldGroup("minimal", "public") @AutoMap() username], and the two
    decorators the other way round. *)
Lemma decorators_stack_in_any_order_witness :
  decorate (DFieldGroup ["minimal"; "public"]) "username"
    (decorate DAutoMap "username" (undecorated []))
  = decorate DAutoMap "username"
      (decorate (DFieldGroup ["minimal"; "public"]) "username" (undecorated [])).
Proof.
  apply (decorators_stack_in_any_order (DFieldGroup ["minimal"; "public"]) DAutoMap
           "username" (undecorated [])).
  discriminate.
Defined.

(** *** Declared classes, mapped *)

Lemma decorate_keeps_ignored d key k c :
  (∃ config, Map_get k (default [] (property_mappings (class_info c))) = Some config
             ∧ ignore config = true) →
  ∃ config,
    Map_get k (default [] (property_mappings (class_info (decorate d key c))))
      = Some config
    ∧ ignore config = true.
Proof.
  intros (config & Hget & Hign).
  destruct d as [src| |gs| |T]; simpl; rewrite ?Map_get_set;
    try (case_decide as Hk; [subst k; rewrite Hget; simpl|by exists config]);
    try destruct src; by eauto.
Qed.

Lemma define_class_ignored fields decorators key :
  (DIgnore, key) ∈ decorators →
  ∃ config,
    Map_get key
      (default [] (property_mappings (class_info (define_class fields decorators))))
      = Some config
    ∧ ignore config = true.
Proof.
  induction decorators as [|d rest IH] using rev_ind; [by intros []%elem_of_nil|].
  rewrite define_class_snoc. intros [Hin|Heq%list_elem_of_singleton]%elem_of_app.
  - by apply decorate_keeps_ignored, IH.
  - subst d. simpl. rewrite Map_get_set_eq. by eexists.
Qed.

(** In well-formed metadata a declaration is found under its key. *)
Lemma metadata_ok_declaration info config :
  metadata_ok info →
  config ∈ (default [] (property_mappings info)).*2 →
  Map_get (targetKey config) (default [] (property_mappings info)) = Some config.
Proof.
  intros (Hnd & Hkeys & _) Hin.
  apply list_elem_of_fmap in Hin as ([k c] & -> & Hin). simpl.
  destruct (Hkeys k c Hin) as [-> _]. by apply Map_get_elem_of.
Qed.

Lemma map_lookup_other s T options src v mapper :
  reachable s →
  is_nullish src = false →
  fst (MapperFactory.createMapper T options s) = Ok mapper →
  fst (Mapper.map src T options s) = Ok v →
  ∃ r, v = VObj r ∧
       ∀ k, k ∉ assigned_keys mapper →
            lookup_prop k r =
            lookup_prop k (instance_fields (classes s (captured_targetType mapper))).
Proof.
  intros Hok%reachable_pathCache_ok Hsrc Hm.
  destruct (MapperFactory.createMapper T options s) as [r0 s1] eqn:Hrun.
  simpl in Hm. subst r0.
  pose proof (createMapper_classes T options s) as Hcl.
  pose proof (createMapper_pathCache_ok T options s Hok) as Hok1.
  unfold keeps in Hcl. rewrite Hrun in Hcl, Hok1. simpl in Hcl, Hok1.
  rewrite (map_run src T options s mapper s1 Hsrc Hrun).
  destruct (invoke mapper src (Some (map_context (globalContext s1) options)) s1)
    as [r' s2] eqn:Hinv.
  simpl. intros ->.
  destruct (invoke_spec _ _ _ _ _ _ Hok1 Hsrc Hinv) as (r & -> & _ & _ & Hother & _).
  exists r. split; [done|]. intros k Hk. by rewrite (Hother k Hk), Hcl.
Qed.

(** X22 (an ignored property is never mapped). When a class declares
    [@Ignore()] on a property, whatever other decorators the property
    carries and wherever they stand, then in every reachable state and for
    all options (option-free, a [pick] list or a group that names the
    property included) the compiled mapper does not assign the property,
    and the result of [Mapper.map] holds under its key what the fresh
    instance held, nothing of the source. *)
Theorem ignored_field_never_mapped s T fields decorators key options :
  reachable s →
  classes s T = class_info (define_class fields decorators) →
  (DIgnore, key) ∈ decorators →
  ∃ mapper,
    fst (MapperFactory.createMapper T options s) = Ok mapper
    ∧ (key ∉ assigned_keys mapper)
    ∧ ∀ src v, is_nullish src = false →
        fst (Mapper.map src T options s) = Ok v →
        ∃ r, v = VObj r ∧ lookup_prop key r = lookup_prop key fields.
Proof.
  intros Hreach Hclass Hin.
  destruct (createMapper_compiled T options s (reachable_valid s Hreach))
    as (mapper & props & Hm & HT & Hsub & Hpm & Htm).
  destruct (define_class_ok fields decorators) as (Hok & Hfields).
  destruct (define_class_ignored fields decorators key Hin) as (config & Hget & Hign).
  assert (key ∉ assigned_keys mapper) as Hnot.
  { intros Hkey.
    assert (assigned_keys mapper ≡ₚ targetKey <$> props) as Hperm.
    { unfold assigned_keys. rewrite Hpm, Htm. apply partition_Permutation. }
    rewrite Hperm in Hkey. apply list_elem_of_fmap in Hkey as (prop & -> & Hprop).
    eapply elem_of_sublist in Hprop; [|done].
    apply list_elem_of_filter in Hprop as [Hign' Hdecl].
    unfold declarations in Hdecl. rewrite Hclass in Hdecl.
    apply (metadata_ok_declaration _ _ Hok) in Hdecl. congruence. }
  exists mapper. split; [done|]. split; [done|].
  intros src v Hsrc Hv.
  destruct (map_lookup_other s T options src v mapper Hreach Hsrc Hm Hv)
    as (r & -> & Hother).
  exists r. split; [done|]. by rewrite (Hother key Hnot), HT, Hclass, Hfields.
Qed.

(** The test of [@Ignore()]: a source with a [secret], mapped to the DTO
    that ignores it, asking for the secret by name. *)
Lemma ignored_field_never_mapped_witness :
  let s := holding 1 ["secret"] (initial_state test_program) in
  let src := VObj [("name", VStr "Test"); ("secret", VStr "password123")] in
  ∃ mapper,
    fst (MapperFactory.createMapper IgnoreTestDto (pick_options 1) s) = Ok mapper
    ∧ ("secret" ∉ assigned_keys mapper)
    ∧ fst (Mapper.map src IgnoreTestDto None s) = Ok (VObj [("name", VStr "Test")]).
Proof.
  intros s src.
  destruct (ignored_field_never_mapped s IgnoreTestDto []
              [ (DAutoMap, "name"); (DIgnore, "secret") ] "secret" (pick_options 1))
    as (mapper & Hm & Hnot & _).
  - apply reachable_holding, reachable_initial.
  - reflexivity.
  - apply list_elem_of_further, list_elem_of_here.
  - exists mapper. split; [done|]. split; [done|]. vm_compute. reflexivity.
Defined.

(** X23 ([Mapper.group] maps the properties declared in the group). For
    a type whose metadata is well formed (what the decorators of a class
    leave it with, as long as no other class sharing its maps has changed
    them since), in every reachable state and for every non-empty group
    name, the result of [Mapper.group] on a source that is not [null] has
    the keys of the fresh instance and the keys of exactly those
    declarations that list the group (through [@FieldGroup]) and are not
    ignored: a group no declaration lists maps nothing, and never throws
    for being unknown. *)
Theorem group_maps_declared_group s T name src v :
  reachable s →
  metadata_ok (classes s T) →
  truthy_string name = true →
  is_nullish src = false →
  fst (Mapper.group src T name s) = Ok v →
  ∃ r, v = VObj r ∧
       ∀ k, k ∈ keys r ↔
            k ∈ keys (instance_fields (classes s T))
            ∨ ∃ config, config ∈ declarations s T ∧ targetKey config = k
                        ∧ name ∈ groups config ∧ ignore config = false.
Proof.
  intros Hreach Hok Ht Hsrc Hv.
  destruct (createMapper_group s T name (reachable_valid s Hreach) Ht)
    as (mapper & s1 & Hrun & Hpart & HT).
  change (Mapper.group src T name s)
    with (Mapper.map src T (group_options name) s) in Hv.
  destruct (map_keys src T (group_options name) s mapper s1 v Hsrc Hrun Hv)
    as (r & -> & Hr).
  exists r. split; [done|]. intros k.
  rewrite Hr, HT, (assigned_keys_partition mapper _ k Hpart).
  apply or_iff_compat_l.
  pose proof Hok as (_ & _ & Hindex).
  unfold entry_of_metadata, declarations. simpl.
  set (mappings := default [] (property_mappings _)) in *.
  set (fieldGroups := default ∅ (field_groups _)) in *.
  specialize (Hindex name).
  assert (∀ config, config ∈ mappings.*2 →
            (targetKey config ∈ default ∅ (fieldGroups !! name)
             ↔ name ∈ groups config)) as Hgroup.
  { intros config Hin. rewrite Hindex.
    pose proof (metadata_ok_declaration _ _ Hok Hin) as Hget.
    destruct Hok as (Hnd & _ & _). split.
    - intros (config' & Hin' & Hg). apply Map_get_elem_of in Hin'; [|done].
      fold mappings in Hget. by simplify_eq.
    - intros Hg. exists config. split; [|done]. by apply Map_get_elem_of. }
  rewrite list_elem_of_fmap. split.
  - intros (config & -> & Hin). exists config.
    destruct (fieldGroups !! name) as [groupFields|] eqn:Hf;
      [|by apply elem_of_nil in Hin].
    apply list_elem_of_filter in Hin as [Hgf Hin].
    apply list_elem_of_filter in Hin as [Hign Hin].
    split_and!; [done..| |done]. by apply Hgroup.
  - intros (config & Hin & <- & Hg & Hign). exists config. split; [done|].
    apply Hgroup in Hg; [|done].
    destruct (fieldGroups !! name) as [groupFields|] eqn:Hf;
      [|by apply elem_of_empty in Hg].
    apply list_elem_of_filter. split; [done|]. by apply list_elem_of_filter.
Qed.

(** The test of the group [minimal], on the class of the tests. *)
Lemma group_maps_declared_group_witness :
  let s := initial_state test_program in
  ∃ r, fst (Mapper.group userEntity UserWithGroupsDto "minimal" s) = Ok (VObj r)
       ∧ keys r = ["username"; "avatar"]
       ∧ ∀ k, k ∈ keys r ↔
              k ∈ keys (instance_fields (classes s UserWithGroupsDto))
              ∨ ∃ config, config ∈ declarations s UserWithGroupsDto
                          ∧ targetKey config = k
                          ∧ "minimal" ∈ groups config ∧ ignore config = false.
Proof.
  intros s.
  destruct (group_maps_declared_group s UserWithGroupsDto "minimal" userEntity
              (VObj [("username", VStr "john_doe"); ("avatar", VStr "u")]))
    as (r & Hr & Hkeys).
  - apply reachable_initial.
  - apply (define_class_ok []).
  - reflexivity.
  - reflexivity.
  - vm_compute. reflexivity.
  - exists r. injection Hr as <-. split; [vm_compute; reflexivity|]. by split.
Defined.

(** ** The mapping builder *)

Lemma walk_typed_unblocked segments current :
  (∀ seg, seg ∈ segments → seg ∉ BLOCKED_KEYS) →
  walk_typed segments current = walk_segments segments current.
Proof.
  revert current. induction segments as [|seg rest IH]; intros current Hfree;
    simpl; [done|].
  unfold BLOCKED_KEYS_has. rewrite bool_decide_false by (apply Hfree; by left).
  destruct (is_nullish current || negb (typeof_object current)); [done|].
  destruct (get_prop current seg); [|done].
  apply IH. intros seg' Hin. apply Hfree. by right.
Qed.

Lemma walk_typed_returns segments current : ∃ v, walk_typed segments current = Ok v.
Proof.
  revert current. induction segments as [|seg rest IH]; intros current; simpl;
    [by eexists|].
  destruct (is_nullish current) eqn:Hnull; simpl; [by eexists|].
  destruct (negb (typeof_object current)); [by eexists|].
  destruct (get_prop_object current seg Hnull) as [next ->]. apply IH.
Qed.

(** X24 ([getNestedValueTyped] and [getNestedValue]). The builder's own
    path lookup never throws, whatever the source and the path. For a
    primitive source it returns [undefined] whatever the path, also where
    [getNestedValue] reads a property of the primitive. On a path none of
    whose segments is one of the blocked keys it returns, for an object,
    an array, [null] or [undefined], what [getNestedValue] returns in any
    reachable state. *)
Theorem getNestedValueTyped_agrees obj path :
  (∃ v, getNestedValueTyped obj path = Ok v)
  ∧ (object_like obj = false → getNestedValueTyped obj path = Ok VUndefined)
  ∧ (∀ s,
       (∀ seg, seg ∈ split_dot path → seg ∉ BLOCKED_KEYS) →
       reachable s →
       object_like obj = true ∨ is_nullish obj = true →
       getNestedValueTyped obj path = fst (getNestedValue obj path s)).
Proof.
  unfold getNestedValueTyped. split_and!.
  - destruct (is_nullish obj); [by eexists|apply walk_typed_returns].
  - intros Hobj. destruct (is_nullish obj) eqn:Hnull; [done|].
    pose proof (split_dot_nonempty path) as Hne.
    destruct (split_dot path) as [|seg rest]; [done|]. simpl.
    unfold object_like in Hobj. rewrite Hnull in Hobj. simpl in Hobj.
    by rewrite Hnull, Hobj.
  - intros s Hfree Hok%reachable_pathCache_ok.
    rewrite getNestedValue_run by done. simpl. intros [Hobj|Hnull].
    + rewrite resolve_path_object_like by done.
      assert (is_nullish obj = false) as -> by (by destruct obj).
      by apply walk_typed_unblocked.
    + unfold resolve_path. by rewrite Hnull.
Qed.

(** The avatar of the scenario; the length of a string; and a blocked
    path on a primitive. *)
Lemma getNestedValueTyped_agrees_witness :
  getNestedValueTyped userEntity "profile.avatarUrl"
    = fst (getNestedValue userEntity "profile.avatarUrl" (initial_state program))
  ∧ getNestedValueTyped (VStr "abc") "constructor.name" = Ok VUndefined
  ∧ getNestedValueTyped (VStr "abc") "length" = Ok VUndefined
  ∧ fst (getNestedValue (VStr "abc") "length" (initial_state program)) = Ok (VNum 3).
Proof.
  split_and!.
  - apply (getNestedValueTyped_agrees userEntity "profile.avatarUrl").
    + intros seg Hin. vm_compute in Hin.
      repeat (apply elem_of_cons in Hin as [->|Hin]); [..|by apply elem_of_nil in Hin];
        by apply (bool_decide_unpack _).
    + apply reachable_initial.
    + by left.
  - by apply (getNestedValueTyped_agrees (VStr "abc") "constructor.name").
  - reflexivity.
  - reflexivity.
Defined.



